(** * Overlay caches and the local documents view of the Firestore client

    A shallow embedding of
    - [packages/firestore/src/local/memory_document_overlay_cache.ts]
      (the in-memory cache, the IndexedDb cache and the
      [DocumentOverlayCache] interface), and
    - the [LocalDocumentsView] class,
    together with the properties of the specification that concern them.

    Conventions.  Batch ids are integers ([Z]).  A [DocumentKey] is
    identified with its path: containers keyed by document keys ([Map],
    [Set], [SortedMap]) are keyed by the path.  A method that may raise
    is a state transformer returning an [Outcome]; the state it returns
    is the state the object is left in, also when it raises. *)

From Stdlib Require Import ZArith Lia OrdersEx.
From stdpp Require Import gmap strings list fin_maps sorting.

Local Open Scope Z_scope.

(** ** JavaScript values and exceptions *)

(** The result of a lookup.  The built-in [Map.prototype.get] yields
    [undefined] for a missing key, [SortedMap.get] yields [null]. *)
Inductive Nullable (A : Type) : Type :=
  | Null
  | Undefined
  | Val (a : A).
Arguments Null {A}.
Arguments Undefined {A}.
Arguments Val {A} a.

(** [x === null] *)
Definition is_null {A} (x : Nullable A) : bool :=
  match x with Null => true | _ => false end.

(** [x === undefined] *)
Definition is_undefined {A} (x : Nullable A) : bool :=
  match x with Undefined => true | _ => false end.

Inductive Error : Type :=
  | TypeError.

Inductive Outcome (A : Type) : Type :=
  | Ok (a : A)
  | Throw (e : Error).
Arguments Ok {A} a.
Arguments Throw {A} e.

Global Instance Error_eq_dec : EqDecision Error.
Proof. solve_decision. Defined.

Global Instance Outcome_eq_dec {A} `{EqDecision A} : EqDecision (Outcome A).
Proof. solve_decision. Defined.

(** Commands over a mutable state [S]: the state is threaded through,
    an exception stops the command and keeps the state reached. *)
Definition Cmd (S A : Type) : Type := S → Outcome A * S.

Definition ret {S A} (a : A) : Cmd S A := λ s, (Ok a, s).
Definition throw {S A} (e : Error) : Cmd S A := λ s, (Throw e, s).
Definition bind {S A B} (c : Cmd S A) (k : A → Cmd S B) : Cmd S B :=
  λ s, match c s with
       | (Ok a, s') => k a s'
       | (Throw e, s') => (Throw e, s')
       end.
Definition gets {S A} (f : S → A) : Cmd S A := λ s, (Ok (f s), s).
Definition modify {S} (f : S → S) : Cmd S unit := λ s, (Ok tt, f s).

Global Instance Cmd_ret {S} : MRet (Cmd S) := λ A, ret.
Global Instance Cmd_bind {S} : MBind (Cmd S) := λ A B k c, bind c k.

(** [list.forEach(f)] *)
Fixpoint forEach {S A} (f : A → Cmd S unit) (l : list A) : Cmd S unit :=
  match l with
  | [] => ret tt
  | x :: rest => f x ;; forEach f rest
  end.

(** ** Comparators *)

(** A comparator that defines a total order. *)
Class Comparator {A} (cmp : A → A → comparison) : Prop := {
  cmp_eq x y : cmp x y = Eq ↔ x = y;
  cmp_antisym x y : cmp y x = CompOpp (cmp x y);
  cmp_trans x y z : cmp x y = Lt → cmp y z = Lt → cmp x z = Lt
}.

(** [cmp x y <= 0] *)
Definition cle {A} (cmp : A → A → comparison) (x y : A) : Prop :=
  cmp x y ≠ Gt.

Global Instance cle_dec {A} (cmp : A → A → comparison) x y :
  Decision (cle cmp x y).
Proof. unfold cle. solve_decision. Defined.

(** Comparison of pairs, first component first. *)
Definition pair_compare {A B} (ca : A → A → comparison)
    (cb : B → B → comparison) (x y : A * B) : comparison :=
  match ca x.1 y.1 with
  | Eq => cb x.2 y.2
  | c => c
  end.

(** Comparison of sequences, component by component, then by length. *)
Fixpoint list_compare {A} (ca : A → A → comparison)
    (p q : list A) : comparison :=
  match p, q with
  | [], [] => Eq
  | [], _ :: _ => Lt
  | _ :: _, [] => Gt
  | a :: p', b :: q' =>
      match ca a b with
      | Eq => list_compare ca p' q'
      | c => c
      end
  end.

(** The comparator [(key1, key2) => key1 - key2] on numbers. *)
Definition numberComparator (key1 key2 : Z) : comparison :=
  Z.compare (key1 - key2) 0.

(** ** Paths and document keys *)

Definition ResourcePath : Type := list string.

Definition child (p : ResourcePath) (segment : string) : ResourcePath :=
  p ++ [segment].

Fixpoint isPrefixOf (p other : ResourcePath) : bool :=
  match p, other with
  | [], _ => true
  | _ :: _, [] => false
  | a :: p', b :: other' =>
      if String.eqb a b then isPrefixOf p' other' else false
  end.

(** [path.popLast()] *)
Definition popLast (p : ResourcePath) : ResourcePath := removelast p.

(** Modelled from the spec: [ResourcePath.comparator], the component-wise
    path comparator (segments as strings, in code order). *)
Definition pathComparator : ResourcePath → ResourcePath → comparison :=
  list_compare String_as_OT.compare.

Record DocumentKey : Type := mkDocumentKey { path : ResourcePath }.

Global Instance DocumentKey_eq_dec : EqDecision DocumentKey.
Proof. solve_decision. Defined.

Global Instance DocumentKey_countable : Countable DocumentKey :=
  inj_countable' path mkDocumentKey (λ k, match k with mkDocumentKey _ => eq_refl end).

(** Modelled from the spec: [DocumentKey.comparator] compares the paths. *)
Definition keyComparator (k1 k2 : DocumentKey) : comparison :=
  pathComparator (path k1) (path k2).

(** Modelled from the spec: [getCollectionGroup()], the last collection
    segment of the key's path (the segment before the document id), absent
    when the path has none. *)
Definition getCollectionGroup (k : DocumentKey) : option string :=
  match rev (path k) with
  | _ :: g :: _ => Some g
  | _ => None
  end.

(** ** Mutations and overlays *)

Inductive MutationType : Type :=
  | SetMutation
  | PatchMutation
  | DeleteMutation
  | VerifyMutation.

Global Instance MutationType_eq_dec : EqDecision MutationType.
Proof. solve_decision. Defined.

(** A mutation is opaque to the caches but for its variant and its key. *)
Record Mutation : Type := mkMutation {
  mutationType : MutationType;
  key : DocumentKey;
  fields : list (string * Z)
}.

Global Instance Mutation_eq_dec : EqDecision Mutation.
Proof. solve_decision. Defined.

(** [mutation instanceof PatchMutation] *)
Definition isPatchMutation (m : Mutation) : bool :=
  bool_decide (mutationType m = PatchMutation).

Module Overlay.
Record t : Type := mk {
  largestBatchId : Z;
  mutation : Mutation
}.

Definition getKey (o : t) : DocumentKey := key (mutation o).
End Overlay.
Abbreviation Overlay := Overlay.t.

Global Instance Overlay_eq_dec : EqDecision Overlay.
Proof. solve_decision. Defined.

(** ** Containers *)

(** The built-in [Map]: [get] yields [undefined] for a missing key. *)
Module JsMap.
Definition get `{Countable K} {V} (m : gmap K V) (k : K) : Nullable V :=
  match m !! k with
  | Some v => Val v
  | None => Undefined
  end.

Definition has `{Countable K} {V} (m : gmap K V) (k : K) : bool :=
  bool_decide (is_Some (m !! k)).
End JsMap.

(** Modelled from the spec: [SortedMap], "an ordered associative container"
    with [get], [insert], [remove], [iterator()] (ascending),
    [iteratorFrom(key)] (ascending, from the first key not below [key]) and
    [reverseIterator()].  The map is updated in place; [get] yields [null]
    for a missing key, as its callers test.  An iterator is the list of the
    entries it will yield. *)
Module SortedMap.
Section SortedMap.
Context `{Countable K} {V : Type} (comparator : K → K → comparison).

Definition get (m : gmap K V) (k : K) : Nullable V :=
  match m !! k with
  | Some v => Val v
  | None => Null
  end.

Definition entry_le (e1 e2 : K * V) : Prop :=
  cle comparator e1.1 e2.1.

Definition getIterator (m : gmap K V) : list (K * V) :=
  merge_sort entry_le (map_to_list m).

Definition getIteratorFrom (m : gmap K V) (k : K) : list (K * V) :=
  filter (λ e, cle comparator k e.1) (getIterator m).

Definition getReverseIterator (m : gmap K V) : list (K * V) :=
  reverse (getIterator m).
End SortedMap.
End SortedMap.

(** ** The in-memory overlay cache *)

Module MemoryDocumentOverlayCache.

Record t : Type := mk {
  overlays : gmap DocumentKey Overlay;
  overlayByBatchId : gmap Z (gset DocumentKey)
}.

Global Instance t_eq_dec : EqDecision t.
Proof. solve_decision. Defined.

Definition empty : t := mk ∅ ∅.

Definition set_overlays (f : gmap DocumentKey Overlay → gmap DocumentKey Overlay)
    (c : t) : t :=
  mk (f (overlays c)) (overlayByBatchId c).

Definition set_overlayByBatchId
    (f : gmap Z (gset DocumentKey) → gmap Z (gset DocumentKey)) (c : t) : t :=
  mk (overlays c) (f (overlayByBatchId c)).

Definition getOverlay (c : t) (k : DocumentKey) : option Overlay :=
  match SortedMap.get (overlays c) k with
  | Val o => Some o
  | _ => None
  end.

(** [saveOverlay].  The bucket of [largestBatchId] is looked up in the
    built-in [Map] and compared with [null]; a call of a method on a
    missing bucket ([undefined]) raises a [TypeError]. *)
Definition saveOverlay (largestBatchId : Z) (mutation : option Mutation)
    : Cmd t unit :=
  match mutation with
  | None => mret tt
  | Some mutation =>
      existing ← gets (λ c, SortedMap.get (overlays c) (key mutation));
      (if negb (is_null existing) then
         match existing with
         | Val existing =>
             bucket ← gets (λ c, JsMap.get (overlayByBatchId c)
                                   (Overlay.largestBatchId existing));
             match bucket with
             | Val keys =>
                 modify (set_overlayByBatchId
                   <[Overlay.largestBatchId existing := keys ∖ {[key mutation]}]>)
             | _ => throw TypeError
             end
         | _ => throw TypeError
         end
       else mret tt);;
      modify (set_overlays <[key mutation := Overlay.mk largestBatchId mutation]>);;
      bucket ← gets (λ c, JsMap.get (overlayByBatchId c) largestBatchId);
      (if is_null bucket then
         modify (set_overlayByBatchId <[largestBatchId := ∅]>)
       else mret tt);;
      bucket ← gets (λ c, JsMap.get (overlayByBatchId c) largestBatchId);
      match bucket with
      | Val keys =>
          modify (set_overlayByBatchId
            <[largestBatchId := keys ∪ {[key mutation]}]>)
      | _ => throw TypeError
      end
  end.

(** [saveOverlays]: the entries of the argument map, in insertion order. *)
Definition saveOverlays (largestBatchId : Z)
    (overlays : list (DocumentKey * option Mutation)) : Cmd t unit :=
  forEach (λ entry, saveOverlay largestBatchId entry.2) overlays.

Definition removeOverlaysForBatchId (batchId : Z) : Cmd t unit :=
  has ← gets (λ c, JsMap.has (overlayByBatchId c) batchId);
  if has : bool then
    keys ← gets (λ c, JsMap.get (overlayByBatchId c) batchId);
    modify (set_overlayByBatchId (delete batchId));;
    match keys with
    | Val keys =>
        forEach (λ k, modify (set_overlays (delete k))) (elements keys)
    | _ => throw TypeError
    end
  else mret tt.

(** The loop of [getOverlaysForCollection] over the iterator. *)
Fixpoint collectionLoop (collection : ResourcePath) (sinceBatchId : Z)
    (iter : list (DocumentKey * Overlay))
    (result : gmap DocumentKey Overlay) : gmap DocumentKey Overlay :=
  match iter with
  | [] => result
  | entry :: iter =>
      let overlay := entry.2 in
      let k := Overlay.getKey overlay in
      if negb (isPrefixOf collection (path k)) then result
      else if negb (bool_decide
                (length (path k) = S (length collection))) then
        collectionLoop collection sinceBatchId iter result
      else if bool_decide (sinceBatchId < Overlay.largestBatchId overlay) then
        collectionLoop collection sinceBatchId iter
          (<[Overlay.getKey overlay := overlay]> result)
      else collectionLoop collection sinceBatchId iter result
  end.

Definition getOverlaysForCollection (c : t) (collection : ResourcePath)
    (sinceBatchId : Z) : gmap DocumentKey Overlay :=
  let prefix := mkDocumentKey (child collection "") in
  let iter := SortedMap.getIteratorFrom keyComparator (overlays c) prefix in
  collectionLoop collection sinceBatchId iter ∅.

(** First loop of [getOverlaysForCollectionGroup]: the overlays of the
    group past [sinceBatchId], by batch id. *)
Fixpoint groupLoop (collectionGroup : string) (sinceBatchId : Z)
    (iter : list (DocumentKey * Overlay))
    (batchIdToOverlays : gmap Z (gmap DocumentKey Overlay))
    : gmap Z (gmap DocumentKey Overlay) :=
  match iter with
  | [] => batchIdToOverlays
  | entry :: iter =>
      let overlay := entry.2 in
      let k := Overlay.getKey overlay in
      if negb (bool_decide (getCollectionGroup k = Some collectionGroup)) then
        groupLoop collectionGroup sinceBatchId iter batchIdToOverlays
      else if bool_decide (sinceBatchId < Overlay.largestBatchId overlay) then
        let batchIdToOverlays :=
          if is_null (SortedMap.get batchIdToOverlays
                        (Overlay.largestBatchId overlay))
          then <[Overlay.largestBatchId overlay := ∅]> batchIdToOverlays
          else batchIdToOverlays in
        groupLoop collectionGroup sinceBatchId iter
          (alter <[Overlay.getKey overlay := overlay]>
             (Overlay.largestBatchId overlay) batchIdToOverlays)
      else groupLoop collectionGroup sinceBatchId iter batchIdToOverlays
  end.

(** Second loop: the buckets by ascending batch id, each added whole;
    the size of the result is tested after a bucket is added. *)
Fixpoint batchLoop (count : Z)
    (batchIter : list (Z * gmap DocumentKey Overlay))
    (result : gmap DocumentKey Overlay) : gmap DocumentKey Overlay :=
  match batchIter with
  | [] => result
  | entry :: batchIter =>
      let result :=
        foldl (λ r e, <[e.1 := e.2]> r) result (map_to_list entry.2) in
      if bool_decide (count ≤ Z.of_nat (size result)) then result
      else batchLoop count batchIter result
  end.

Definition getOverlaysForCollectionGroup (c : t) (collectionGroup : string)
    (sinceBatchId count : Z) : gmap DocumentKey Overlay :=
  let batchIdToOverlays :=
    groupLoop collectionGroup sinceBatchId
      (SortedMap.getIterator keyComparator (overlays c)) ∅ in
  batchLoop count (SortedMap.getIterator numberComparator batchIdToOverlays) ∅.

End MemoryDocumentOverlayCache.

(** ** The IndexedDb object store of overlays *)

(** A number, or [Number.POSITIVE_INFINITY]. *)
Inductive Num : Type :=
  | Finite (n : Z)
  | PositiveInfinity.

Definition numCompare (a b : Num) : comparison :=
  match a, b with
  | Finite x, Finite y => Z.compare x y
  | Finite _, PositiveInfinity => Lt
  | PositiveInfinity, Finite _ => Gt
  | PositiveInfinity, PositiveInfinity => Eq
  end.

(** [IDBKeyRange.bound(lower, upper, lowerOpen, upperOpen)] *)
Module IDBKeyRange.
Record t (K : Type) : Type := bound {
  lower : K;
  upper : K;
  lowerOpen : bool;
  upperOpen : bool
}.
Arguments bound {K} _ _ _ _.
Arguments lower {K} _.
Arguments upper {K} _.
Arguments lowerOpen {K} _.
Arguments upperOpen {K} _.

Definition includes {K} (cmp : K → K → comparison) (r : t K) (k : K) : bool :=
  (if lowerOpen r then bool_decide (cmp (lower r) k = Lt)
   else bool_decide (cmp (lower r) k ≠ Gt))
  && (if upperOpen r then bool_decide (cmp k (upper r) = Lt)
      else bool_decide (cmp k (upper r) ≠ Gt)).
End IDBKeyRange.

(** Modelled from the spec: [encodeResourcePath], an encoding of paths that
    preserves equality and order; the encoded path is kept as the sequence
    of its segments. *)
Definition encodeResourcePath (p : ResourcePath) : ResourcePath := p.

(** Modelled from the spec: the persisted overlay record
    "(userId, documentPath, collectionPath, collectionGroup,
    largestBatchId, mutationBytes)" and its three indexes.  The serializer
    "round-trips a Mutation without loss": the record holds the mutation. *)
Module DbDocumentOverlay.
Record t : Type := mk {
  userId : string;
  documentPath : ResourcePath;
  collectionPath : ResourcePath;
  collectionGroup : option string;
  largestBatchId : Z;
  overlayMutation : Mutation
}.

(** The primary key, [DbDocumentOverlayKey]. *)
Definition keyOf (row : t) : string * ResourcePath :=
  (userId row, documentPath row).

Definition keyCompare : string * ResourcePath → string * ResourcePath → comparison :=
  pair_compare String_as_OT.compare pathComparator.

(** An index maps a record to its index key; a record without one is
    not in the index. *)
Definition batchIdOverlayIndex (row : t) : option (string * Z) :=
  Some (userId row, largestBatchId row).

Definition batchIdOverlayIndexCompare : string * Z → string * Z → comparison :=
  pair_compare String_as_OT.compare Z.compare.

Definition collectionPathOverlayIndex (row : t)
    : option (string * ResourcePath * Num) :=
  Some (userId row, collectionPath row, Finite (largestBatchId row)).

Definition collectionPathOverlayIndexCompare
    : string * ResourcePath * Num → string * ResourcePath * Num → comparison :=
  pair_compare (pair_compare String_as_OT.compare pathComparator) numCompare.

Definition collectionGroupOverlayIndex (row : t)
    : option (string * string * Num) :=
  match collectionGroup row with
  | Some g => Some (userId row, g, Finite (largestBatchId row))
  | None => None
  end.

Definition collectionGroupOverlayIndexCompare
    : string * string * Num → string * string * Num → comparison :=
  pair_compare (pair_compare String_as_OT.compare String_as_OT.compare) numCompare.
End DbDocumentOverlay.
Abbreviation DbDocumentOverlay := DbDocumentOverlay.t.

Global Instance DbDocumentOverlay_eq_dec : EqDecision DbDocumentOverlay.
Proof. solve_decision. Defined.

(** Modelled from the spec: [toDbDocumentOverlayKey], [toDbDocumentOverlay]
    and [fromDbDocumentOverlay] of the local serializer.  The record of an
    overlay is built from the key of its mutation; an overlay made of a
    [null] mutation has no key to read, and building its record raises. *)
Definition toDbDocumentOverlayKey (userId : string) (k : DocumentKey)
    : string * ResourcePath :=
  (userId, encodeResourcePath (path k)).

Definition toDbDocumentOverlay (userId : string) (largestBatchId : Z)
    (mutation : option Mutation) : Outcome DbDocumentOverlay :=
  match mutation with
  | None => Throw TypeError
  | Some m =>
      Ok (DbDocumentOverlay.mk userId
            (encodeResourcePath (path (key m)))
            (encodeResourcePath (popLast (path (key m))))
            (getCollectionGroup (key m))
            largestBatchId m)
  end.

Definition fromDbDocumentOverlay (row : DbDocumentOverlay) : Overlay :=
  Overlay.mk (DbDocumentOverlay.largestBatchId row)
             (DbDocumentOverlay.overlayMutation row).

(** Modelled from the spec: [SimpleDbStore], the "transactional indexed
    store": records by primary key, read through an index in the order of
    the index key and then of the primary key. *)
Module SimpleDbStore.
Abbreviation t := (gmap (string * ResourcePath) DbDocumentOverlay).

Definition get (store : t) (k : string * ResourcePath)
    : option DbDocumentOverlay :=
  store !! k.

Definition put (row : DbDocumentOverlay) (store : t) : t :=
  <[DbDocumentOverlay.keyOf row := row]> store.

Section Index.
Context {I : Type} (index : DbDocumentOverlay → option I)
        (cmp : I → I → comparison).

Definition inRange (range : IDBKeyRange.t I) (row : DbDocumentOverlay)
    : bool :=
  match index row with
  | Some i => IDBKeyRange.includes cmp range i
  | None => false
  end.

Definition deleteAll (range : IDBKeyRange.t I) (store : t) : t :=
  filter (λ kv, inRange range kv.2 = false) store.

Definition cursorCompare (e1 e2 : I * DbDocumentOverlay) : comparison :=
  pair_compare cmp DbDocumentOverlay.keyCompare
    (e1.1, DbDocumentOverlay.keyOf e1.2)
    (e2.1, DbDocumentOverlay.keyOf e2.2).

Definition indexed (range : IDBKeyRange.t I) (kv : (string * ResourcePath) * DbDocumentOverlay)
    : option (I * DbDocumentOverlay) :=
  match index kv.2 with
  | Some i =>
      if IDBKeyRange.includes cmp range i then Some (i, kv.2) else None
  | None => None
  end.

(** The records a cursor on the index visits within the range. *)
Definition cursor (range : IDBKeyRange.t I) (store : t)
    : list DbDocumentOverlay :=
  (merge_sort (cle cursorCompare)
     (omap (indexed range) (map_to_list store))).*2.

Definition loadAll (range : IDBKeyRange.t I) (store : t)
    : list DbDocumentOverlay :=
  cursor range store.
End Index.

(** [iterate(options, callback)]: the callback is run on the records of
    the cursor until it calls [control.done()]. *)
Fixpoint iterateLoop {A} (callback : DbDocumentOverlay → A → A * bool)
    (rows : list DbDocumentOverlay) (a : A) : A :=
  match rows with
  | [] => a
  | row :: rows =>
      let '(a, done) := callback row a in
      if done : bool then a else iterateLoop callback rows a
  end.

Definition iterate {I A} (index : DbDocumentOverlay → option I)
    (cmp : I → I → comparison) (range : IDBKeyRange.t I)
    (callback : DbDocumentOverlay → A → A * bool) (store : t) (a : A) : A :=
  iterateLoop callback (cursor index cmp range store) a.
End SimpleDbStore.

(** ** The IndexedDb overlay cache *)

Module IndexedDbDocumentOverlayCache.

(** The cache of a user, with the object store of the transaction. *)
Record t : Type := mk {
  userId : string;
  documentOverlayStore : SimpleDbStore.t
}.

Global Instance t_eq_dec : EqDecision t.
Proof. solve_decision. Defined.

Definition forUser (uid : string) : t := mk uid ∅.

Definition set_store (f : SimpleDbStore.t → SimpleDbStore.t) (c : t) : t :=
  mk (userId c) (f (documentOverlayStore c)).

Definition getOverlay (c : t) (k : DocumentKey) : option Overlay :=
  match SimpleDbStore.get (documentOverlayStore c)
          (toDbDocumentOverlayKey (userId c) k) with
  | Some dbOverlay => Some (fromDbDocumentOverlay dbOverlay)
  | None => None
  end.

(** [saveOverlay] of [new Overlay(largestBatchId, mutation)]. *)
Definition saveOverlay (largestBatchId : Z) (mutation : option Mutation)
    : Cmd t unit :=
  uid ← gets userId;
  match toDbDocumentOverlay uid largestBatchId mutation with
  | Ok row => modify (set_store (SimpleDbStore.put row))
  | Throw e => throw e
  end.

Definition saveOverlays (largestBatchId : Z)
    (overlays : list (DocumentKey * option Mutation)) : Cmd t unit :=
  forEach (λ entry, saveOverlay largestBatchId entry.2) overlays.

Definition removeOverlaysForBatchId (batchId : Z) : Cmd t unit :=
  uid ← gets userId;
  let range := IDBKeyRange.bound (uid, batchId) (uid, batchId + 1) false true in
  modify (set_store
    (SimpleDbStore.deleteAll DbDocumentOverlay.batchIdOverlayIndex
       DbDocumentOverlay.batchIdOverlayIndexCompare range)).

Definition getOverlaysForCollection (c : t) (collection : ResourcePath)
    (sinceBatchId : Z) : gmap DocumentKey Overlay :=
  let collectionPath := encodeResourcePath collection in
  let range :=
    IDBKeyRange.bound (userId c, collectionPath, Finite sinceBatchId)
                      (userId c, collectionPath, PositiveInfinity)
                      true false in
  let dbOverlays :=
    SimpleDbStore.loadAll DbDocumentOverlay.collectionPathOverlayIndex
      DbDocumentOverlay.collectionPathOverlayIndexCompare range
      (documentOverlayStore c) in
  foldl (λ result dbOverlay,
           let overlay := fromDbDocumentOverlay dbOverlay in
           <[Overlay.getKey overlay := overlay]> result)
        ∅ dbOverlays.

(** The state of the scan of [getOverlaysForCollectionGroup]. *)
Record Scan : Type := mkScan {
  result : gmap DocumentKey Overlay;
  currentBatchId : option Z;
  currentCount : Z
}.

Definition groupCallback (count : Z) (dbOverlay : DbDocumentOverlay)
    (s : Scan) : Scan * bool :=
  let overlay := fromDbDocumentOverlay dbOverlay in
  if bool_decide (currentCount s < count)
     || bool_decide (Some (Overlay.largestBatchId overlay) = currentBatchId s)
  then (mkScan (<[Overlay.getKey overlay := overlay]> (result s))
               (Some (Overlay.largestBatchId overlay))
               (currentCount s + 1), false)
  else (s, true).

Definition getOverlaysForCollectionGroup (c : t) (collectionGroup : string)
    (sinceBatchId count : Z) : gmap DocumentKey Overlay :=
  let range :=
    IDBKeyRange.bound (userId c, collectionGroup, Finite sinceBatchId)
                      (userId c, collectionGroup, PositiveInfinity)
                      true false in
  result
    (SimpleDbStore.iterate DbDocumentOverlay.collectionGroupOverlayIndex
       DbDocumentOverlay.collectionGroupOverlayIndexCompare range
       (groupCallback count) (documentOverlayStore c) (mkScan ∅ None 0)).

End IndexedDbDocumentOverlayCache.

(** ** The [DocumentOverlayCache] interface *)

Class DocumentOverlayCache (C : Type) : Type := {
  getOverlay : C → DocumentKey → option Overlay;
  saveOverlays : Z → list (DocumentKey * option Mutation) → Cmd C unit;
  removeOverlaysForBatchId : Z → Cmd C unit;
  getOverlaysForCollection : C → ResourcePath → Z → gmap DocumentKey Overlay;
  getOverlaysForCollectionGroup :
    C → string → Z → Z → gmap DocumentKey Overlay
}.

Global Instance MemoryDocumentOverlayCache_impl
    : DocumentOverlayCache MemoryDocumentOverlayCache.t := {
  getOverlay := MemoryDocumentOverlayCache.getOverlay;
  saveOverlays := MemoryDocumentOverlayCache.saveOverlays;
  removeOverlaysForBatchId := MemoryDocumentOverlayCache.removeOverlaysForBatchId;
  getOverlaysForCollection := MemoryDocumentOverlayCache.getOverlaysForCollection;
  getOverlaysForCollectionGroup :=
    MemoryDocumentOverlayCache.getOverlaysForCollectionGroup
}.

Global Instance IndexedDbDocumentOverlayCache_impl
    : DocumentOverlayCache IndexedDbDocumentOverlayCache.t := {
  getOverlay := IndexedDbDocumentOverlayCache.getOverlay;
  saveOverlays := IndexedDbDocumentOverlayCache.saveOverlays;
  removeOverlaysForBatchId := IndexedDbDocumentOverlayCache.removeOverlaysForBatchId;
  getOverlaysForCollection := IndexedDbDocumentOverlayCache.getOverlaysForCollection;
  getOverlaysForCollectionGroup :=
    IndexedDbDocumentOverlayCache.getOverlaysForCollectionGroup
}.

(** ** Documents, field masks and mutation batches *)

Inductive DocumentType : Type :=
  | INVALID
  | FOUND_DOCUMENT
  | NO_DOCUMENT
  | UNKNOWN_DOCUMENT.

Global Instance DocumentType_eq_dec : EqDecision DocumentType.
Proof. solve_decision. Defined.

Module MutableDocument.
Record t : Type := mk {
  key : DocumentKey;
  documentType : DocumentType;
  data : list (string * Z)
}.

Definition newInvalidDocument (k : DocumentKey) : t := mk k INVALID [].

Definition isFoundDocument (d : t) : bool :=
  bool_decide (documentType d = FOUND_DOCUMENT).
End MutableDocument.
Abbreviation MutableDocument := MutableDocument.t.

Global Instance MutableDocument_eq_dec : EqDecision MutableDocument.
Proof. solve_decision. Defined.

(** A field mask is the list of the field paths it holds;
    [new FieldMask([])] is the empty list. *)
Definition FieldMask : Type := list (list string).

Definition Timestamp : Type := Z.

(** Modelled from the spec: a mutation batch "exposes batchId, keys(), and
    applyToLocalViewWithFieldMask"; its keys are the keys of its mutations. *)
Module MutationBatch.
Record t : Type := mk {
  batchId : Z;
  mutations : list Mutation
}.

Definition keys (b : t) : gset DocumentKey :=
  list_to_set (key <$> mutations b).
End MutationBatch.
Abbreviation MutationBatch := MutationBatch.t.

(** The functions of the mutation model that the local documents view
    calls; their code is not part of the files at hand, and the view is
    defined over any implementation of them. *)
Class MutationModel : Type := {
  (** [mutationApplyToLocalView(mutation, document, null, localWriteTime)],
      which updates [document] in place: the document it leaves. *)
  mutationApplyToLocalView :
    Mutation → MutableDocument → Timestamp → MutableDocument;
  (** [batch.applyToLocalViewWithFieldMask(document, mask)]: the document
      it leaves and the mask it returns (which may be [null]). *)
  applyToLocalViewWithFieldMask :
    MutationBatch → MutableDocument → option FieldMask →
    MutableDocument * option FieldMask;
  (** [calculateOverlayMutation(document, mask)] *)
  calculateOverlayMutation :
    MutableDocument → option FieldMask → option Mutation
}.


(** Modelled from the spec: the offset of a query, of which the view reads
    [readTime] and [largestBatchId]. *)
Module IndexOffset.
Record t : Type := mk {
  readTime : Z;
  largestBatchId : Z
}.
End IndexOffset.
Abbreviation IndexOffset := IndexOffset.t.

(** ** The local documents view *)

(** The calls made to the collaborators of the view, latest first. *)
Inductive Call : Type :=
  | RemoteGetEntry (k : DocumentKey)
  | RemoteGetEntries (ks : gset DocumentKey)
  | OverlayGetOverlay (k : DocumentKey)
  | OverlaySaveOverlays (largestBatchId : Z)
      (overlays : list (DocumentKey * option Mutation))
  | QueueGetAllMutationBatchesAffectingDocumentKeys (ks : gset DocumentKey).

Module LocalDocumentsView.
Section LocalDocumentsView.
Context {C : Type} `{!DocumentOverlayCache C} `{!MutationModel}.

(** The view with what it reaches: the remote document cache, the mutation
    queue, the overlay cache, the clock read by [Timestamp.now()], and the
    record of the calls made. *)
Record t : Type := mk {
  remoteDocumentCache : gmap DocumentKey MutableDocument;
  mutationQueue : list MutationBatch;
  documentOverlayCache : C;
  now : Timestamp;
  calls : list Call
}.

Definition record (c : Call) : Cmd t unit :=
  modify (λ w, mk (remoteDocumentCache w) (mutationQueue w)
                  (documentOverlayCache w) (now w) (c :: calls w)).

(** Runs a command of the overlay cache on the cache of the view. *)
Definition onOverlayCache {A} (c : Cmd C A) : Cmd t A :=
  λ w, let '(r, cache) := c (documentOverlayCache w) in
       (r, mk (remoteDocumentCache w) (mutationQueue w) cache (now w) (calls w)).

(** Modelled from the spec: [RemoteDocumentCache.getEntry] and
    [getEntries]; "absent keys yield invalid-document sentinels". *)
Definition remoteGetEntry (k : DocumentKey) : Cmd t MutableDocument :=
  record (RemoteGetEntry k);;
  gets (λ w, default (MutableDocument.newInvalidDocument k)
               (remoteDocumentCache w !! k)).

Definition remoteGetEntries (ks : gset DocumentKey)
    : Cmd t (gmap DocumentKey MutableDocument) :=
  record (RemoteGetEntries ks);;
  gets (λ w, set_to_map
               (λ k, (k, default (MutableDocument.newInvalidDocument k)
                           (remoteDocumentCache w !! k))) ks).

(** Modelled from the spec: [getAllMutationBatchesAffectingDocumentKeys],
    "every batch affecting the set of keys", in the order of the queue. *)
Definition affects (ks : gset DocumentKey) (b : MutationBatch) : Prop :=
  MutationBatch.keys b ∩ ks ≠ ∅.

Definition getAllMutationBatchesAffectingDocumentKeys (ks : gset DocumentKey)
    : Cmd t (list MutationBatch) :=
  record (QueueGetAllMutationBatchesAffectingDocumentKeys ks);;
  gets (λ w, filter (affects ks) (mutationQueue w)).

Definition overlayGetOverlay (k : DocumentKey) : Cmd t (option Overlay) :=
  record (OverlayGetOverlay k);;
  gets (λ w, getOverlay (documentOverlayCache w) k).

Definition overlaySaveOverlays (largestBatchId : Z)
    (overlays : list (DocumentKey * option Mutation)) : Cmd t unit :=
  record (OverlaySaveOverlays largestBatchId overlays);;
  onOverlayCache (saveOverlays largestBatchId overlays).

(** Returns a base document that can be used to apply [overlay]. *)
Definition getBaseDocument (k : DocumentKey) (overlay : option Overlay)
    : Cmd t MutableDocument :=
  if match overlay with
     | None => true
     | Some overlay => isPatchMutation (Overlay.mutation overlay)
     end
  then remoteGetEntry k
  else mret (MutableDocument.newInvalidDocument k).

Definition getDocument (k : DocumentKey) : Cmd t MutableDocument :=
  overlay ← overlayGetOverlay k;
  document ← getBaseDocument k overlay;
  match overlay with
  | Some overlay =>
      time ← gets now;
      mret (mutationApplyToLocalView (Overlay.mutation overlay) document time)
  | None => mret document
  end.

(** The local state of [recalculateAndSaveOverlays]: the documents it was
    given (which the batches update in place), the masks, the keys by batch
    id and the keys already saved. *)
Record Recalculation : Type := mkRecalculation {
  docs : gmap DocumentKey MutableDocument;
  masks : gmap DocumentKey (option FieldMask);
  documentsByBatchId : gmap Z (gset DocumentKey);
  processed : gset DocumentKey
}.

(** The body of [batch.keys().forEach(key => ...)].  The batch reads the
    document it is given: a key with no document in [docs] raises. *)
Definition applyBatchToKey (batch : MutationBatch) (k : DocumentKey)
    : Cmd Recalculation unit :=
  λ r,
    let mask := match masks r !! k with
                | Some mask => mask
                | None => Some []
                end in
    match docs r !! k with
    | None => (Throw TypeError, r)
    | Some document =>
        let '(document, mask) :=
          applyToLocalViewWithFieldMask batch document mask in
        let byBatch :=
          if is_null (SortedMap.get (documentsByBatchId r)
                        (MutationBatch.batchId batch))
          then <[MutationBatch.batchId batch := ∅]> (documentsByBatchId r)
          else documentsByBatchId r in
        (Ok tt,
         mkRecalculation (<[k := document]> (docs r)) (<[k := mask]> (masks r))
           (alter (λ ks, ks ∪ {[k]}) (MutationBatch.batchId batch) byBatch)
           (processed r))
    end.

Definition applyBatches (batches : list MutationBatch)
    : Cmd Recalculation unit :=
  forEach (λ batch,
    forEach (applyBatchToKey batch) (elements (MutationBatch.keys batch)))
    batches.

(** The overlays staged for one batch id: the keys not saved yet, each with
    its computed mutation. *)
Fixpoint stageOverlays (r : Recalculation) (ks : list DocumentKey)
    : list (DocumentKey * option Mutation) * gset DocumentKey :=
  match ks with
  | [] => ([], processed r)
  | k :: ks =>
      if bool_decide (k ∈ processed r) then stageOverlays r ks
      else
        let mutation :=
          match docs r !! k with
          | Some document =>
              calculateOverlayMutation document (mjoin (masks r !! k))
          | None => None
          end in
        let '(overlays, done) :=
          stageOverlays
            (mkRecalculation (docs r) (masks r) (documentsByBatchId r)
               (processed r ∪ {[k]})) ks in
        ((k, mutation) :: overlays, done)
  end.

(** The loop over [documentsByBatchId.getReverseIterator()]. *)
Fixpoint saveLoop (r : Recalculation) (iter : list (Z * gset DocumentKey))
    : Cmd t unit :=
  match iter with
  | [] => mret tt
  | entry :: iter =>
      let '(overlays, done) := stageOverlays r (elements entry.2) in
      overlaySaveOverlays entry.1 overlays;;
      saveLoop (mkRecalculation (docs r) (masks r) (documentsByBatchId r) done)
               iter
  end.

(** [recalculateAndSaveOverlays(docs)]; it returns the documents as the
    batches left them, which are the objects the caller passed. *)
Definition recalculateAndSaveOverlays (ds : gmap DocumentKey MutableDocument)
    : Cmd t (gmap DocumentKey MutableDocument) :=
  batches ← getAllMutationBatchesAffectingDocumentKeys (dom ds);
  match applyBatches batches (mkRecalculation ds ∅ ∅ ∅) with
  | (Throw e, _) => throw e
  | (Ok _, r) =>
      saveLoop r (SortedMap.getReverseIterator numberComparator
                    (documentsByBatchId r));;
      mret (docs r)
  end.

(** The state of the loop of [computeViews]: the documents (updated in
    place) and the documents to recalculate. *)
Definition computeViewsStep (memoizedOverlays : gmap DocumentKey Overlay)
    (existenceStateChanged : gset DocumentKey)
    (acc : gmap DocumentKey MutableDocument * gmap DocumentKey MutableDocument)
    (entry : DocumentKey * MutableDocument)
    : Cmd t (gmap DocumentKey MutableDocument * gmap DocumentKey MutableDocument) :=
  let doc := entry.2 in
  overlay ←
    (if JsMap.has memoizedOverlays (MutableDocument.key doc)
     then mret (memoizedOverlays !! MutableDocument.key doc)
     else overlayGetOverlay (MutableDocument.key doc));
  if bool_decide (MutableDocument.key doc ∈ existenceStateChanged)
     && match overlay with
        | None => true
        | Some overlay => isPatchMutation (Overlay.mutation overlay)
        end
  then mret (acc.1, <[MutableDocument.key doc := doc]> acc.2)
  else
    match overlay with
    | Some overlay =>
        time ← gets now;
        mret (<[entry.1 :=
                 mutationApplyToLocalView (Overlay.mutation overlay) doc time]>
                acc.1, acc.2)
    | None => mret acc
    end.

Fixpoint computeViewsLoop (memoizedOverlays : gmap DocumentKey Overlay)
    (existenceStateChanged : gset DocumentKey)
    (entries : list (DocumentKey * MutableDocument))
    (acc : gmap DocumentKey MutableDocument * gmap DocumentKey MutableDocument)
    : Cmd t (gmap DocumentKey MutableDocument * gmap DocumentKey MutableDocument) :=
  match entries with
  | [] => mret acc
  | entry :: entries =>
      acc ← computeViewsStep memoizedOverlays existenceStateChanged acc entry;
      computeViewsLoop memoizedOverlays existenceStateChanged entries acc
  end.

(** The documents marked for recalculation, as [computeViews] hands them to
    [recalculateAndSaveOverlays]. *)
Definition markedForRecalculation (ds : gmap DocumentKey MutableDocument)
    (memoizedOverlays : gmap DocumentKey Overlay)
    (existenceStateChanged : gset DocumentKey)
    : Cmd t (gmap DocumentKey MutableDocument * gmap DocumentKey MutableDocument) :=
  computeViewsLoop memoizedOverlays existenceStateChanged
    (SortedMap.getIterator keyComparator ds) (ds, ∅).

Definition computeViews (ds : gmap DocumentKey MutableDocument)
    (memoizedOverlays : gmap DocumentKey Overlay)
    (existenceStateChanged : gset DocumentKey)
    : Cmd t (gmap DocumentKey MutableDocument) :=
  acc ← markedForRecalculation ds memoizedOverlays existenceStateChanged;
  recalculated ← recalculateAndSaveOverlays acc.2;
  (* the recalculated documents are the very objects held in [docs] *)
  mret (recalculated ∪ acc.1).

Definition getLocalViewOfDocuments (ds : gmap DocumentKey MutableDocument)
    (existenceStateChanged : gset DocumentKey)
    : Cmd t (gmap DocumentKey MutableDocument) :=
  computeViews ds ∅ existenceStateChanged.

Definition getDocuments (ks : gset DocumentKey)
    : Cmd t (gmap DocumentKey MutableDocument) :=
  ds ← remoteGetEntries ks;
  getLocalViewOfDocuments ds ∅.

Definition recalculateAndSaveOverlaysForDocumentKeys
    (documentKeys : gset DocumentKey) : Cmd t unit :=
  ds ← remoteGetEntries documentKeys;
  recalculateAndSaveOverlays ds;;
  mret tt.

(** *** Queries *)

Context `{!QueryModel}.



(** Just do a simple document lookup. *)
Definition getDocumentsMatchingDocumentQuery (docPath : ResourcePath)
    : Cmd t (gmap DocumentKey MutableDocument) :=
  document ← getDocument (mkDocumentKey docPath);
  mret (if MutableDocument.isFoundDocument document
        then <[MutableDocument.key document := document]> ∅
        else ∅).




End LocalDocumentsView.
End LocalDocumentsView.

(** ** Statements of the specification *)

(** "k is an immediate child of c": the path of the key extends the
    collection path by one segment. *)
Definition immediateChild (collection : ResourcePath) (k : DocumentKey)
    : Prop :=
  isPrefixOf collection (path k) = true
  ∧ length (path k) = S (length collection).

(** The overlays of a collection group past a batch id. *)
Definition inGroupSince (collectionGroup : string) (sinceBatchId : Z)
    (kv : DocumentKey * Overlay) : Prop :=
  getCollectionGroup kv.1 = Some collectionGroup
  ∧ sinceBatchId < Overlay.largestBatchId kv.2.

(** The batch groups below [batchId], the batch group of [batchId], and
    the number of overlays collected from the groups below [batchId]. *)
Definition groupsBelow (all : gmap DocumentKey Overlay)
    (collectionGroup : string) (sinceBatchId batchId : Z)
    : gmap DocumentKey Overlay :=
  filter (λ kv, inGroupSince collectionGroup sinceBatchId kv
                ∧ Overlay.largestBatchId kv.2 < batchId) all.

Definition batchGroup (all : gmap DocumentKey Overlay)
    (collectionGroup : string) (sinceBatchId batchId : Z)
    : gmap DocumentKey Overlay :=
  filter (λ kv, inGroupSince collectionGroup sinceBatchId kv
                ∧ Overlay.largestBatchId kv.2 = batchId) all.

Definition collectedBefore (all : gmap DocumentKey Overlay)
    (collectionGroup : string) (sinceBatchId batchId : Z) : nat :=
  size (groupsBelow all collectionGroup sinceBatchId batchId).

(** What the specification asks of [getOverlaysForCollectionGroup]: the
    overlays of the group past [sinceBatchId], in whole batch groups by
    ascending batch id, a group being added while the number collected from
    the groups before it is below [count]. *)
Definition wholeBatchGroups (all : gmap DocumentKey Overlay)
    (collectionGroup : string) (sinceBatchId count : Z)
    : gmap DocumentKey Overlay :=
  filter (λ kv, inGroupSince collectionGroup sinceBatchId kv
                ∧ Z.of_nat (collectedBefore all collectionGroup sinceBatchId
                              (Overlay.largestBatchId kv.2)) < count) all.

(** The entries of a map of mutations that hold a mutation. *)
Definition presentMutations (overlays : list (DocumentKey * option Mutation))
    : list (DocumentKey * option Mutation) :=
  filter (λ entry, is_Some entry.2) overlays.

(** The inverted index of the in-memory cache agrees with its forward map. *)
Definition indexConsistent (c : MemoryDocumentOverlayCache.t) : Prop :=
  ∀ (k : DocumentKey) (b : Z),
    (∃ ks, MemoryDocumentOverlayCache.overlayByBatchId c !! b = Some ks ∧ k ∈ ks)
    ↔ (∃ o, MemoryDocumentOverlayCache.overlays c !! k = Some o
            ∧ Overlay.largestBatchId o = b).

(** Each overlay of the in-memory cache is held under the key of its
    mutation. *)
Definition keyedByMutation (all : gmap DocumentKey Overlay) : Prop :=
  ∀ k o, all !! k = Some o → Overlay.getKey o = k.

(** Each record of the store is the record of an overlay, held under its
    primary key; document keys have a path. *)
Definition storeWellFormed (store : SimpleDbStore.t) : Prop :=
  ∀ pk row, store !! pk = Some row →
    pk = DbDocumentOverlay.keyOf row
    ∧ toDbDocumentOverlay (DbDocumentOverlay.userId row)
        (DbDocumentOverlay.largestBatchId row)
        (Some (DbDocumentOverlay.overlayMutation row)) = Ok row
    ∧ DbDocumentOverlay.documentPath row ≠ [].

(** The overlays that the IndexedDb cache of a user holds. *)
Definition storedOverlays (c : IndexedDbDocumentOverlayCache.t)
    : gmap DocumentKey Overlay :=
  list_to_map
    (omap (λ kv : (string * ResourcePath) * DbDocumentOverlay,
             if decide (kv.1.1 = IndexedDbDocumentOverlayCache.userId c)
             then Some (mkDocumentKey kv.1.2, fromDbDocumentOverlay kv.2)
             else None)
          (map_to_list (IndexedDbDocumentOverlayCache.documentOverlayStore c))).

(** The entries that the loop of [getOverlaysForCollection] collects. *)
Definition collected (collection : ResourcePath) (sinceBatchId : Z)
    (e : DocumentKey * Overlay) : Prop :=
  immediateChild collection (Overlay.getKey e.2)
  ∧ sinceBatchId < Overlay.largestBatchId e.2.

Global Instance collected_dec collection sinceBatchId e :
  Decision (collected collection sinceBatchId e).
Proof. unfold collected, immediateChild. apply _. Defined.

(** The overlay that a record of the store holds, with its key. *)
Definition overlayEntry (row : DbDocumentOverlay) : DocumentKey * Overlay :=
  (Overlay.getKey (fromDbDocumentOverlay row), fromDbDocumentOverlay row).

(** The number of records of a list whose batch id is below [batchId]. *)
Definition recordsBelow (rows : list DbDocumentOverlay) (batchId : Z) : nat :=
  length (filter (λ row, DbDocumentOverlay.largestBatchId row < batchId) rows).

Section LocalDocumentsViewStatements.
Context {C : Type} `{!DocumentOverlayCache C} `{!MutationModel}.

(** The view after the calls [cs] (latest first) were recorded. *)
Definition recorded (cs : list Call) (w : LocalDocumentsView.t (C:=C))
    : LocalDocumentsView.t :=
  LocalDocumentsView.mk (LocalDocumentsView.remoteDocumentCache w) (LocalDocumentsView.mutationQueue w)
    (LocalDocumentsView.documentOverlayCache w) (LocalDocumentsView.now w)
    (cs ++ LocalDocumentsView.calls w).

(** The entry of the remote document cache for a key. *)
Definition remoteEntry (w : LocalDocumentsView.t (C:=C)) (k : DocumentKey)
    : MutableDocument :=
  default (MutableDocument.newInvalidDocument k) (LocalDocumentsView.remoteDocumentCache w !! k).

(** The calls of the loop of [computeViews] when no overlay is memoized:
    one read of the overlay cache per document, latest first. *)
Definition overlayReads (entries : list (DocumentKey * MutableDocument))
    : list Call :=
  reverse ((λ e, OverlayGetOverlay (MutableDocument.key e.2)) <$> entries).

(** The computed mutation of a key, as [stageOverlays] stages it. *)
Definition stagedMutation (r : LocalDocumentsView.Recalculation)
    (k : DocumentKey) : option Mutation :=
  match LocalDocumentsView.docs r !! k with
  | Some document =>
      calculateOverlayMutation document
        (mjoin (LocalDocumentsView.masks r !! k))
  | None => None
  end.

(** [k] is among the keys that [documentsByBatchId] holds for [b]. *)
Definition recordedFor (r : LocalDocumentsView.Recalculation) (b : Z)
    (k : DocumentKey) : Prop :=
  ∃ ks, LocalDocumentsView.documentsByBatchId r !! b = Some ks ∧ k ∈ ks.

(** Each document of the map is held under its own key. *)
Definition keyedDocuments (ds : gmap DocumentKey MutableDocument) : Prop :=
  ∀ k d, ds !! k = Some d → MutableDocument.key d = k.

(** A batch keeps the key of the document it is applied to, and the overlay
    mutation computed for a document carries its key. *)
Definition keepsKeys : Prop :=
  (∀ batch d mask,
     MutableDocument.key (applyToLocalViewWithFieldMask batch d mask).1
     = MutableDocument.key d)
  ∧ (∀ d mask m,
       calculateOverlayMutation d mask = Some m → key m = MutableDocument.key d).

End LocalDocumentsViewStatements.

(** ** Concrete data, on which the definitions are run *)

(** The state a command leaves, whether it returns or raises. *)
Definition after {S A} (c : Cmd S A) (s : S) : S := (c s).2.

Definition alice : DocumentKey := mkDocumentKey ["users"; "alice"].
Definition bob : DocumentKey := mkDocumentKey ["users"; "bob"].
Definition room1 : DocumentKey := mkDocumentKey ["rooms"; "r1"].
Definition message (id : string) : DocumentKey :=
  mkDocumentKey ["rooms"; "r1"; "messages"; id].

Definition setTo (k : DocumentKey) (v : Z) : Mutation :=
  mkMutation SetMutation k [("v", v)].
Definition patchTo (k : DocumentKey) (v : Z) : Mutation :=
  mkMutation PatchMutation k [("v", v)].

(** Scenario S4: batch 3 holds A and B, batch 4 holds C, batch 5 holds D, E
    and F, each saved by a call of [saveOverlays]. *)
Definition messageBatches : list (Z * DocumentKey) :=
  [(3, message "A"); (3, message "B"); (4, message "C");
   (5, message "D"); (5, message "E"); (5, message "F")].

Definition memoryMessages : MemoryDocumentOverlayCache.t :=
  foldl (λ c e, after (MemoryDocumentOverlayCache.saveOverlays e.1
                         [(e.2, Some (setTo e.2 0))]) c)
        MemoryDocumentOverlayCache.empty messageBatches.

Definition indexedDbMessages : IndexedDbDocumentOverlayCache.t :=
  foldl (λ c e, after (IndexedDbDocumentOverlayCache.saveOverlays e.1
                         [(e.2, Some (setTo e.2 0))]) c)
        (IndexedDbDocumentOverlayCache.forUser "u") messageBatches.

(** Scenario S3: overlays for [rooms/r1] and [rooms/r1/messages/m1]. *)
Definition memoryRooms : MemoryDocumentOverlayCache.t :=
  after (MemoryDocumentOverlayCache.saveOverlays 2
           [(message "m1", Some (setTo (message "m1") 0))])
    (after (MemoryDocumentOverlayCache.saveOverlays 1
              [(room1, Some (setTo room1 0))])
       MemoryDocumentOverlayCache.empty).

Definition indexedDbRooms : IndexedDbDocumentOverlayCache.t :=
  after (IndexedDbDocumentOverlayCache.saveOverlays 2
           [(message "m1", Some (setTo (message "m1") 0))])
    (after (IndexedDbDocumentOverlayCache.saveOverlays 1
              [(room1, Some (setTo room1 0))])
       (IndexedDbDocumentOverlayCache.forUser "u")).

(** A small mutation model: a set mutation replaces the data, a patch
    updates a found document, a delete leaves no document. *)
Definition sampleApply (m : Mutation) (d : MutableDocument) (time : Timestamp)
    : MutableDocument :=
  match mutationType m with
  | SetMutation =>
      MutableDocument.mk (MutableDocument.key d) FOUND_DOCUMENT (fields m)
  | PatchMutation =>
      if MutableDocument.isFoundDocument d
      then MutableDocument.mk (MutableDocument.key d) FOUND_DOCUMENT
             (fields m ++ MutableDocument.data d)
      else d
  | DeleteMutation =>
      MutableDocument.mk (MutableDocument.key d) NO_DOCUMENT []
  | VerifyMutation => d
  end.

Definition sampleApplyBatch (b : MutationBatch) (d : MutableDocument)
    (mask : option FieldMask) : MutableDocument * option FieldMask :=
  foldl (λ acc m,
           if decide (key m = MutableDocument.key d)
           then (sampleApply m acc.1 0,
                 match mutationType m, acc.2 with
                 | PatchMutation, Some fs => Some (fs ++ ((λ f, [f.1]) <$> fields m))
                 | _, _ => None
                 end)
           else acc)
        (d, mask) (MutationBatch.mutations b).

Definition sampleOverlayMutation (d : MutableDocument) (mask : option FieldMask)
    : option Mutation :=
  match mask with
  | None =>
      Some (if MutableDocument.isFoundDocument d
            then mkMutation SetMutation (MutableDocument.key d)
                   (MutableDocument.data d)
            else mkMutation DeleteMutation (MutableDocument.key d) [])
  | Some [] => None
  | Some _ =>
      Some (mkMutation PatchMutation (MutableDocument.key d)
              (MutableDocument.data d))
  end.

Definition sampleMutationModel : MutationModel := {|
  mutationApplyToLocalView := sampleApply;
  applyToLocalViewWithFieldMask := sampleApplyBatch;
  calculateOverlayMutation := sampleOverlayMutation
|}.

(** A view over the IndexedDb cache of user [u]: the remote document of
    alice, and a queue of two batches that set alice (1 and 3) and one that
    sets bob (2). *)
Definition aliceDocument : MutableDocument :=
  MutableDocument.mk alice FOUND_DOCUMENT [("v", 0)].

Definition sampleQueue : list MutationBatch :=
  [MutationBatch.mk 1 [setTo alice 1];
   MutationBatch.mk 2 [setTo bob 2];
   MutationBatch.mk 3 [setTo alice 3]].

Definition sampleView (queue : list MutationBatch)
    : LocalDocumentsView.t (C := IndexedDbDocumentOverlayCache.t) :=
  LocalDocumentsView.mk {[alice := aliceDocument]} queue
    (IndexedDbDocumentOverlayCache.forUser "u") 0 [].




(** The in-memory caches that calls of [saveOverlays] and
    [removeOverlaysForBatchId] lead to from the empty cache, whether the
    calls return or raise. *)
Inductive memoryReachable : MemoryDocumentOverlayCache.t → Prop :=
  | memoryReachable_empty :
      memoryReachable MemoryDocumentOverlayCache.empty
  | memoryReachable_saveOverlays b entries c :
      memoryReachable c →
      memoryReachable (after (MemoryDocumentOverlayCache.saveOverlays b entries) c)
  | memoryReachable_removeOverlaysForBatchId b c :
      memoryReachable c →
      memoryReachable
        (after (MemoryDocumentOverlayCache.removeOverlaysForBatchId b) c).

(** The IndexedDb caches of a user that calls of [saveOverlays] (for keys
    that have a path) and [removeOverlaysForBatchId] lead to from an empty
    store, whether the calls return or raise. *)
Inductive indexedDbReachable (uid : string)
    : IndexedDbDocumentOverlayCache.t → Prop :=
  | indexedDbReachable_forUser :
      indexedDbReachable uid (IndexedDbDocumentOverlayCache.forUser uid)
  | indexedDbReachable_saveOverlays b entries c :
      indexedDbReachable uid c →
      (∀ k m, (k, Some m) ∈ entries → path (key m) ≠ []) →
      indexedDbReachable uid
        (after (IndexedDbDocumentOverlayCache.saveOverlays b entries) c)
  | indexedDbReachable_removeOverlaysForBatchId b c :
      indexedDbReachable uid c →
      indexedDbReachable uid
        (after (IndexedDbDocumentOverlayCache.removeOverlaysForBatchId b) c).

(** The cache that another user has over the same store. *)
Definition asUser (uid : string) (c : IndexedDbDocumentOverlayCache.t)
    : IndexedDbDocumentOverlayCache.t :=
  IndexedDbDocumentOverlayCache.mk uid
    (IndexedDbDocumentOverlayCache.documentOverlayStore c).

(** * Properties *)

(** Unfolds the operations of commands. *)
Ltac cmd_unfold :=
  unfold mbind, mret, Cmd_bind, Cmd_ret, bind, ret, gets, modify, throw in *.

(** ** Comparators are total orders *)

Section ComparatorFacts.
Context {A : Type} (cmp : A → A → comparison) `{!Comparator cmp}.

Lemma cmp_refl x : cmp x x = Eq.
Proof. by apply cmp_eq. Qed.

Lemma cmp_gt_lt x y : cmp x y = Gt ↔ cmp y x = Lt.
Proof. rewrite (cmp_antisym (cmp:=cmp) x y). destruct (cmp x y); simpl; naive_solver. Qed.

Lemma cle_refl x : cle cmp x x.
Proof. unfold cle. by rewrite cmp_refl. Qed.

Lemma cle_total_or x y : cle cmp x y ∨ cle cmp y x.
Proof.
  unfold cle. rewrite (cmp_antisym (cmp:=cmp) x y).
  destruct (cmp x y); simpl; auto.
Qed.

Lemma cle_lt_or_eq x y : cle cmp x y ↔ cmp x y = Lt ∨ x = y.
Proof.
  unfold cle. rewrite <- (cmp_eq (cmp:=cmp)). destruct (cmp x y); naive_solver.
Qed.

Lemma cle_transitive x y z : cle cmp x y → cle cmp y z → cle cmp x z.
Proof.
  rewrite !cle_lt_or_eq. intros [Hxy| ->] [Hyz| ->]; auto.
  left. by eapply cmp_trans.
Qed.

Lemma cle_antisymmetric x y : cle cmp x y → cle cmp y x → x = y.
Proof.
  rewrite (cle_lt_or_eq x y). intros [Hlt| ->]; [|done].
  unfold cle. intros Hge. apply cmp_gt_lt in Hlt. done.
Qed.

Lemma not_cle_lt x y : ¬ cle cmp x y ↔ cmp y x = Lt.
Proof.
  unfold cle. rewrite <- cmp_gt_lt. destruct (cmp x y); naive_solver.
Qed.

(** The order induced on a type through a projection to the keys. *)
Global Instance cle_proj_total {B} (f : B → A) :
  Total (λ a b, cle cmp (f a) (f b)).
Proof. intros a b. apply cle_total_or. Qed.

Global Instance cle_proj_trans {B} (f : B → A) :
  Transitive (λ a b, cle cmp (f a) (f b)).
Proof. intros a b c. apply cle_transitive. Qed.
End ComparatorFacts.

Lemma string_lt_irrefl (x : string) : ¬ String_as_OT.lt x x.
Proof. apply (StrictOrder_Irreflexive (R:=String_as_OT.lt)). Qed.

Lemma string_lt_trans (x y z : string) :
  String_as_OT.lt x y → String_as_OT.lt y z → String_as_OT.lt x z.
Proof. apply (StrictOrder_Transitive (R:=String_as_OT.lt)). Qed.

Global Instance string_Comparator : Comparator String_as_OT.compare.
Proof.
  split.
  - intros x y. destruct (String_as_OT.compare_spec x y) as [Heq|Hlt|Hlt].
    + done.
    + split; [done|]. intros <-. by apply string_lt_irrefl in Hlt.
    + split; [done|]. intros <-. by apply string_lt_irrefl in Hlt.
  - intros x y.
    destruct (String_as_OT.compare_spec x y) as [Heq|H1|H1],
             (String_as_OT.compare_spec y x) as [E|H2|H2]; simpl; try done;
      exfalso; unfold String_as_OT.eq in *; subst;
      first [ by eapply string_lt_irrefl
            | eapply string_lt_irrefl; eapply string_lt_trans; eassumption ].
  - intros x y z. apply string_lt_trans.
Qed.

Global Instance Z_Comparator : Comparator Z.compare.
Proof.
  split.
  - intros x y. apply Z.compare_eq_iff.
  - intros x y. apply Z.compare_antisym.
  - intros x y z. rewrite !Z.compare_lt_iff. lia.
Qed.

Lemma numberComparator_compare x y : numberComparator x y = Z.compare x y.
Proof.
  unfold numberComparator.
  destruct (Z.compare_spec x y), (Z.compare_spec (x - y) 0); lia || done.
Qed.

Global Instance number_Comparator : Comparator numberComparator.
Proof.
  split; intros *; rewrite !numberComparator_compare.
  - apply cmp_eq.
  - apply cmp_antisym.
  - apply cmp_trans.
Qed.

Global Instance num_Comparator : Comparator numCompare.
Proof.
  split.
  - intros [x|] [y|]; simpl; rewrite ?Z.compare_eq_iff; naive_solver.
  - intros [x|] [y|]; simpl; auto using Z.compare_antisym.
  - intros [x|] [y|] [z|]; simpl; try done. rewrite !Z.compare_lt_iff. lia.
Qed.

Global Instance pair_Comparator {A B} (ca : A → A → comparison)
    (cb : B → B → comparison) `{!Comparator ca, !Comparator cb} :
  Comparator (pair_compare ca cb).
Proof.
  split.
  - intros [a1 b1] [a2 b2]. unfold pair_compare; simpl.
    destruct (ca a1 a2) eqn:Ha.
    + apply cmp_eq in Ha as ->. rewrite cmp_eq. naive_solver.
    + split; [done|]. intros [= -> ->]. by rewrite cmp_refl in Ha.
    + split; [done|]. intros [= -> ->]. by rewrite cmp_refl in Ha.
  - intros [a1 b1] [a2 b2]. unfold pair_compare; simpl.
    rewrite (cmp_antisym (cmp:=ca) a1 a2).
    destruct (ca a1 a2); simpl; auto using cmp_antisym.
  - intros [a1 b1] [a2 b2] [a3 b3]. unfold pair_compare; simpl.
    destruct (ca a1 a2) eqn:H12; try done.
    + apply cmp_eq in H12 as ->. destruct (ca a2 a3); try done.
      apply cmp_trans.
    + intros _. destruct (ca a2 a3) eqn:H23; try done.
      * apply cmp_eq in H23 as ->. by rewrite H12.
      * by rewrite (cmp_trans _ _ _ H12 H23).
Qed.

Global Instance list_Comparator {A} (ca : A → A → comparison)
    `{!Comparator ca} : Comparator (list_compare ca).
Proof.
  split.
  - intros p. induction p as [|a p IH]; intros [|b q]; simpl; try done.
    destruct (ca a b) eqn:Hab.
    + apply cmp_eq in Hab as ->. rewrite IH. naive_solver.
    + split; [done|]. intros [= -> ->]. by rewrite cmp_refl in Hab.
    + split; [done|]. intros [= -> ->]. by rewrite cmp_refl in Hab.
  - intros p. induction p as [|a p IH]; intros [|b q]; simpl; try done.
    rewrite (cmp_antisym (cmp:=ca) a b).
    destruct (ca a b); simpl; auto.
  - intros p. induction p as [|a p IH]; intros [|b q] [|c r]; simpl; try done.
    destruct (ca a b) eqn:H12; try done.
    + apply cmp_eq in H12 as ->. destruct (ca b c); try done. apply IH.
    + intros _. destruct (ca b c) eqn:H23; try done.
      * apply cmp_eq in H23 as ->. by rewrite H12.
      * by rewrite (cmp_trans _ _ _ H12 H23).
Qed.

Global Instance path_Comparator : Comparator pathComparator.
Proof. unfold pathComparator. apply _. Qed.

Global Instance key_Comparator : Comparator keyComparator.
Proof.
  unfold keyComparator. split.
  - intros [p] [q]; simpl. rewrite cmp_eq. naive_solver.
  - intros x y. apply cmp_antisym.
  - intros x y z. apply cmp_trans.
Qed.

(** ** Sorted maps and maps filled by a loop *)

Section SortedMapFacts.
Context `{Countable K} {V : Type}.
Context (cmp : K → K → comparison) `{!Comparator cmp}.

Lemma getIterator_Permutation (m : gmap K V) :
  SortedMap.getIterator cmp m ≡ₚ map_to_list m.
Proof. apply merge_sort_Permutation. Qed.

Lemma elem_of_getIterator (m : gmap K V) k v :
  (k, v) ∈ SortedMap.getIterator cmp m ↔ m !! k = Some v.
Proof. by rewrite getIterator_Permutation, elem_of_map_to_list. Qed.

Lemma NoDup_fst_getIterator (m : gmap K V) :
  NoDup (SortedMap.getIterator cmp m).*1.
Proof. rewrite getIterator_Permutation. apply NoDup_fst_map_to_list. Qed.

Lemma getIterator_sorted (m : gmap K V) :
  StronglySorted (SortedMap.entry_le cmp) (SortedMap.getIterator cmp m).
Proof.
  apply (@Sorted_StronglySorted _ (SortedMap.entry_le cmp)
           (cle_proj_trans cmp fst)).
  apply (@Sorted_merge_sort _ (SortedMap.entry_le cmp) _
           (cle_proj_total cmp fst)).
Qed.

Lemma getIterator_empty : SortedMap.getIterator cmp (∅ : gmap K V) = [].
Proof. unfold SortedMap.getIterator. by rewrite map_to_list_empty. Qed.
End SortedMapFacts.

Section FoldInsert.
Context `{Countable K} {V : Type}.

Lemma NoDup_fst_filter (P : K * V → Prop) `{!∀ x, Decision (P x)} l :
  NoDup l.*1 → NoDup (filter P l).*1.
Proof.
  intros Hnd. refine (sublist_NoDup _ _ Hnd _).
  apply fmap_sublist, sublist_filter.
Qed.

Lemma foldl_insert_lookup (l : list (K * V)) (r : gmap K V) k v :
  NoDup l.*1 →
  foldl (λ r e, <[e.1 := e.2]> r) r l !! k = Some v
  ↔ (k, v) ∈ l ∨ (k ∉ l.*1 ∧ r !! k = Some v).
Proof.
  revert r. induction l as [|[k' v'] l IH]; intros r Hnd; simpl.
  - rewrite elem_of_nil. set_solver.
  - apply NoDup_cons in Hnd as [Hk' Hnd]. rewrite IH by done.
    rewrite elem_of_cons, not_elem_of_cons. simpl.
    destruct (decide (k = k')) as [->|Hne].
    + rewrite lookup_insert_eq. split.
      * intros [Hin|[Hnin [= ->]]]; [|by left; left].
        destruct Hk'. apply list_elem_of_fmap. by exists (k', v).
      * intros [[[= ->]|Hin]|[[? ?] ?]]; [|by left|done].
        right. by split.
    + rewrite lookup_insert_ne by done. naive_solver.
Qed.

Lemma foldl_insert_map_to_list (m r : gmap K V) :
  foldl (λ r e, <[e.1 := e.2]> r) r (map_to_list m) = m ∪ r.
Proof.
  apply map_eq. intros k. apply option_eq. intros v.
  rewrite foldl_insert_lookup by apply NoDup_fst_map_to_list.
  rewrite lookup_union_Some_raw, elem_of_map_to_list.
  split; (intros [?|[Hnin ?]]; [by left|right; split; [|done]]).
  - destruct (m !! k) as [v'|] eqn:Hk; [|done].
    destruct Hnin. apply list_elem_of_fmap. exists (k, v').
    by rewrite elem_of_map_to_list.
  - intros ([k' v'] & -> & Hin)%list_elem_of_fmap.
    apply elem_of_map_to_list in Hin. simpl in *. congruence.
Qed.

Lemma foldl_insert_ext {E} (f g : E → K) (h : E → V) (l : list E)
    (r : gmap K V) :
  (∀ e, e ∈ l → f e = g e) →
  foldl (λ r e, <[f e := h e]> r) r l = foldl (λ r e, <[g e := h e]> r) r l.
Proof.
  revert r. induction l as [|e l IH]; intros r Hfg; simpl; [done|].
  rewrite Hfg by left. apply IH. intros e' ?. apply Hfg. by right.
Qed.
End FoldInsert.

Lemma StronglySorted_impl {A} (R R' : relation A) (Q : A → Prop) l :
  (∀ x y, Q x → Q y → R x y → R' x y) →
  Forall Q l → StronglySorted R l → StronglySorted R' l.
Proof.
  intros HR HQ Hs. induction Hs as [|x l Hs IH Hx]; [constructor|].
  apply Forall_cons in HQ as [Hqx HQ]. constructor; [by apply IH|].
  rewrite Forall_forall in Hx, HQ |- *. intros y Hy. apply HR; auto.
Qed.

Lemma filter_nil_Forall {A} (P : A → Prop) `{!∀ x, Decision (P x)} l :
  Forall (λ x, ¬ P x) l → filter P l = [].
Proof.
  induction 1 as [|x l Hx _ IH]; [done|].
  by rewrite filter_cons_False.
Qed.

Lemma StronglySorted_filter {A} (R : relation A) (P : A → Prop)
    `{!∀ x, Decision (P x)} l :
  StronglySorted R l → StronglySorted R (filter P l).
Proof.
  induction 1 as [|x l Hs IH Hx]; [constructor|].
  rewrite filter_cons. destruct (decide (P x)); [|done].
  constructor; [done|].
  rewrite Forall_forall in Hx |- *.
  intros y [_ Hy]%list_elem_of_filter. by apply Hx.
Qed.

Lemma filter_all_Forall {A} (P : A → Prop) `{!∀ x, Decision (P x)} l :
  Forall P l → filter P l = l.
Proof.
  induction 1 as [|x l Hx _ IH]; [done|].
  rewrite filter_cons_True by done. by rewrite IH.
Qed.

(** ** Paths in the order of the comparator *)

Lemma isPrefixOf_app (c p : ResourcePath) :
  isPrefixOf c p = true ↔ ∃ q, p = c ++ q.
Proof.
  revert p. induction c as [|a c IH]; intros p; simpl.
  - split; [by exists p|done].
  - destruct p as [|b p]; [by split; [|intros [? ?]]|].
    destruct (String.eqb a b) eqn:Hab.
    + apply String.eqb_eq in Hab as ->. rewrite IH.
      split; intros [q Hq]; exists q; congruence.
    + apply String.eqb_neq in Hab. split; [done|]. intros [q [= ? ?]]. done.
Qed.

Lemma immediateChild_app (c : ResourcePath) (k : DocumentKey) :
  immediateChild c k ↔ ∃ id, path k = c ++ [id].
Proof.
  unfold immediateChild. rewrite isPrefixOf_app. split.
  - intros [[q Hq] Hlen]. rewrite Hq, length_app in Hlen.
    destruct q as [|id [|? ?]]; simpl in Hlen; try lia. by exists id.
  - intros [id Hid]. split; [by exists [id]|].
    rewrite Hid, length_app. simpl. lia.
Qed.

Lemma immediateChild_popLast (c : ResourcePath) (k : DocumentKey) :
  immediateChild c k ↔ popLast (path k) = c ∧ path k ≠ [].
Proof.
  rewrite immediateChild_app. unfold popLast. split.
  - intros [id ->]. rewrite removelast_last. split; [done|].
    by destruct c.
  - intros [<- Hne]. exists (List.last (path k) "").
    by apply app_removelast_last.
Qed.

Lemma empty_segment_least (x : string) : String_as_OT.compare "" x ≠ Gt.
Proof. by destruct x. Qed.

(** A path that extends the collection path is not below the first path a
    document of the collection can have. *)
Lemma child_least (c p : ResourcePath) :
  isPrefixOf c p = true → (length c < length p)%nat →
  cle pathComparator (child c "") p.
Proof.
  unfold cle, pathComparator, child. revert p.
  induction c as [|a c IH]; intros [|b p]; simpl; try done; try lia.
  - intros _ _. by destruct b, p.
  - destruct (String.eqb a b) eqn:Hab; [|done].
    apply String.eqb_eq in Hab as ->. rewrite cmp_refl by apply _.
    intros ? ?. apply IH; [done|lia].
Qed.

(** Past the paths that extend the collection path, no path extends it. *)
Lemma past_collection (c p q : ResourcePath) :
  cle pathComparator (child c "") p → isPrefixOf c p = false →
  cle pathComparator p q → isPrefixOf c q = false.
Proof.
  unfold cle, pathComparator, child. revert p q.
  induction c as [|a c IH]; intros [|b p] [|d q]; simpl; try done.
  destruct (String_as_OT.compare a b) eqn:Hab; [|clear IH|done].
  - apply cmp_eq in Hab as ->. rewrite String.eqb_refl.
    destruct (String_as_OT.compare b d) eqn:Hbd; [| |done].
    + apply cmp_eq in Hbd as ->. rewrite String.eqb_refl. apply IH.
    + intros _ _ _. destruct (String.eqb b d) eqn:E; [|done].
      apply String.eqb_eq in E as ->. by rewrite cmp_refl in Hbd by apply _.
  - intros _ _ Hle. destruct (String.eqb a d) eqn:E; [|done].
    apply String.eqb_eq in E as ->.
    destruct (String_as_OT.compare b d) eqn:Hbd; [| |done].
    + apply cmp_eq in Hbd as ->.
      pose proof (cmp_trans (cmp:=String_as_OT.compare) _ _ _ Hab Hab) as H'.
      by rewrite cmp_refl in Hab by apply _.
    + pose proof (cmp_trans (cmp:=String_as_OT.compare) _ _ _ Hab Hbd) as H'.
      by rewrite cmp_refl in H' by apply _.
Qed.

(** ** The in-memory overlay cache *)

Section MemoryCache.
Import MemoryDocumentOverlayCache.

(** *** Saving raises *)

(** No call creates a bucket of the index: from the empty cache, the index
    stays empty. *)
Lemma saveOverlay_index_empty b m c :
  overlayByBatchId c = ∅ → overlayByBatchId (after (saveOverlay b m) c) = ∅.
Proof.
  intros Hidx. unfold after, saveOverlay. destruct m as [m|]; [|done].
  cmd_unfold. unfold SortedMap.get, JsMap.get.
  destruct (overlays c !! key m) as [ex|] eqn:Hex; simpl;
    rewrite Hidx, lookup_empty; simpl; rewrite ?Hidx; done.
Qed.

(** Saving a mutation in a cache whose index is empty raises a
    [TypeError]; when the key had no overlay the new overlay is in the
    forward map all the same. *)
Lemma saveOverlay_raises b m c :
  overlayByBatchId c = ∅ →
  (saveOverlay b (Some m) c).1 = Throw TypeError.
Proof.
  intros Hidx. unfold saveOverlay. cmd_unfold.
  unfold SortedMap.get, JsMap.get.
  destruct (overlays c !! key m) as [ex|] eqn:Hex; simpl;
    rewrite Hidx, lookup_empty; simpl; rewrite ?Hidx; done.
Qed.

Lemma forEach_cons {S A} (f : A → Cmd S unit) x l (s : S) :
  forEach f (x :: l) s
  = match f x s with
    | (Ok _, s') => forEach f l s'
    | (Throw e, s') => (Throw e, s')
    end.
Proof. reflexivity. Qed.

Lemma saveOverlays_index_empty b entries c :
  overlayByBatchId c = ∅ → overlayByBatchId (after (saveOverlays b entries) c) = ∅.
Proof.
  unfold saveOverlays, after. revert c.
  induction entries as [|e entries IH]; intros c Hidx; [done|].
  rewrite forEach_cons.
  pose proof (saveOverlay_index_empty b e.2 c Hidx) as Hstep. unfold after in Hstep.
  destruct (saveOverlay b e.2 c) as [[[]|err] c']; simpl in *; [|done].
  by apply IH.
Qed.

(** C3, at the failing input.  On the empty in-memory cache,
    [saveOverlays(5, {alice: m})] raises a [TypeError] where it adds the
    key to the bucket of batch 5, which was never created; a later
    [saveOverlays(7, {alice: m'})] raises before it replaces the overlay,
    so [getOverlay(alice)] still returns the overlay of batch 5. *)
Theorem memory_saveOverlays_raises :
  saveOverlays 5 [(alice, Some (setTo alice 31))] empty
  = (Throw TypeError, mk {[alice := Overlay.mk 5 (setTo alice 31)]} ∅)
  ∧ (saveOverlays 7 [(alice, Some (setTo alice 32))]
       (after (saveOverlays 5 [(alice, Some (setTo alice 31))]) empty)).1
    = Throw TypeError
  ∧ getOverlay
      (after (saveOverlays 7 [(alice, Some (setTo alice 32))])
         (after (saveOverlays 5 [(alice, Some (setTo alice 31))]) empty))
      alice
    = Some (Overlay.mk 5 (setTo alice 31)).
Proof. repeat split; compute_done. Qed.

(** C4, at the failing input.  After [saveOverlays(5, {alice: m})] on the
    empty in-memory cache, the forward map holds an overlay of batch 5 for
    [alice] and the index has no bucket for batch 5: the index is not
    consistent with the forward map. *)
Theorem memory_index_not_consistent :
  ¬ indexConsistent
      (after (saveOverlays 5 [(alice, Some (setTo alice 31))]) empty).
Proof.
  intros Hcons. destruct (Hcons alice 5) as [_ Hindex].
  destruct Hindex as (ks & Hks & _).
  - exists (Overlay.mk 5 (setTo alice 31)). split; compute_done.
  - assert (MemoryDocumentOverlayCache.overlayByBatchId
              (after (saveOverlays 5 [(alice, Some (setTo alice 31))]) empty)
            !! 5 = None) as Hnone by compute_done.
    congruence.
Qed.

(** C5, at the failing input.  After [saveOverlays(5, {alice: m})] on the
    empty in-memory cache, [removeOverlaysForBatchId(5)] finds no bucket
    for batch 5 and removes nothing: the overlay of [alice], whose largest
    batch id is 5, is still returned. *)
Theorem memory_removeOverlaysForBatchId_keeps :
  removeOverlaysForBatchId 5
    (after (saveOverlays 5 [(alice, Some (setTo alice 31))]) empty)
  = (Ok tt, after (saveOverlays 5 [(alice, Some (setTo alice 31))]) empty)
  ∧ getOverlay
      (after (removeOverlaysForBatchId 5)
         (after (saveOverlays 5 [(alice, Some (setTo alice 31))]) empty))
      alice
    = Some (Overlay.mk 5 (setTo alice 31)).
Proof. split; compute_done. Qed.

(** *** Absent mutations *)

Lemma memory_saveOverlays_present b entries c :
  saveOverlays b entries c = saveOverlays b (presentMutations entries) c.
Proof.
  unfold saveOverlays, presentMutations. revert c.
  induction entries as [|[k [m|]] entries IH]; intros c; [done| |].
  - rewrite filter_cons_True by (simpl; eauto). rewrite !forEach_cons.
    destruct (saveOverlay b (k, Some m).2 c) as [[[]|err] c']; [apply IH|done].
  - rewrite filter_cons_False by (simpl; by intros [? ?]).
    rewrite forEach_cons. apply IH.
Qed.

(** *** Overlays are held under the key of their mutation *)

Lemma keyedByMutation_empty : keyedByMutation ∅.
Proof. intros k o. by rewrite lookup_empty. Qed.

Lemma keyedByMutation_insert all m b :
  keyedByMutation all → keyedByMutation (<[key m := Overlay.mk b m]> all).
Proof.
  intros Hall k o. destruct (decide (k = key m)) as [->|Hne].
  - rewrite lookup_insert_eq. by intros [= <-].
  - rewrite lookup_insert_ne by done. apply Hall.
Qed.

Lemma keyedByMutation_subseteq all all' :
  all' ⊆ all → keyedByMutation all → keyedByMutation all'.
Proof.
  intros Hsub Hall k o Hk. apply Hall.
  by eapply lookup_weaken.
Qed.

Lemma saveOverlay_overlays b m c :
  overlays (after (saveOverlay b (Some m)) c) = overlays c
  ∨ overlays (after (saveOverlay b (Some m)) c)
    = <[key m := Overlay.mk b m]> (overlays c).
Proof.
  unfold after, saveOverlay. cmd_unfold. unfold SortedMap.get, JsMap.get.
  repeat (case_match; simpl in *; simplify_eq); auto.
Qed.

Lemma saveOverlay_keyed b m c :
  keyedByMutation (overlays c) →
  keyedByMutation (overlays (after (saveOverlay b m) c)).
Proof.
  intros Hall. destruct m as [m|]; [|done].
  destruct (saveOverlay_overlays b m c) as [-> | ->]; [done|].
  by apply keyedByMutation_insert.
Qed.

Lemma saveOverlays_keyed b entries c :
  keyedByMutation (overlays c) →
  keyedByMutation (overlays (after (saveOverlays b entries) c)).
Proof.
  unfold saveOverlays, after. revert c.
  induction entries as [|e entries IH]; intros c Hall; [done|].
  rewrite forEach_cons.
  pose proof (saveOverlay_keyed b e.2 c Hall) as Hstep. unfold after in Hstep.
  destruct (saveOverlay b e.2 c) as [[[]|err] c']; simpl in *; [|done].
  by apply IH.
Qed.

Lemma forEach_delete_overlays ks c :
  forEach (λ k s, (Ok tt, set_overlays (delete k) s)) ks c
  = (Ok tt, mk (foldl (λ all k, delete k all) (overlays c) ks)
               (overlayByBatchId c)).
Proof.
  revert c. induction ks as [|k ks IH]; intros c.
  - by destruct c.
  - rewrite forEach_cons. by rewrite IH.
Qed.

Lemma foldl_delete_lookup (ks : list DocumentKey)
    (all : gmap DocumentKey Overlay) k :
  foldl (λ all k, delete k all) all ks !! k
  = if decide (k ∈ ks) then None else all !! k.
Proof.
  revert all. induction ks as [|k' ks IH]; intros all; simpl.
  - destruct (decide (k ∈ [])) as [Hin|]; [by apply elem_of_nil in Hin|done].
  - rewrite IH.
    destruct (decide (k ∈ ks)) as [Hin|Hnin],
             (decide (k ∈ k' :: ks)) as [Hin'|Hnin']; try done.
    + destruct Hnin'. by right.
    + apply elem_of_cons in Hin' as [->|?]; [|done].
      by rewrite lookup_delete_eq.
    + rewrite lookup_delete_ne; [done|]. intros ->. destruct Hnin'. by left.
Qed.

(** [removeOverlaysForBatchId(b)] removes the overlays of the keys in the
    bucket of [b], and no other, in any state of the cache. *)
Lemma memory_removeOverlaysForBatchId_lookup b c k :
  (removeOverlaysForBatchId b c).1 = Ok tt
  ∧ getOverlay (after (removeOverlaysForBatchId b) c) k
    = match overlayByBatchId c !! b with
      | Some ks => if decide (k ∈ ks) then None else getOverlay c k
      | None => getOverlay c k
      end.
Proof.
  unfold after, removeOverlaysForBatchId, getOverlay, SortedMap.get.
  cmd_unfold. unfold JsMap.has, JsMap.get. simpl.
  destruct (overlayByBatchId c !! b) as [ks|] eqn:Hb; simpl;
    rewrite ?Hb; simpl.
  - rewrite forEach_delete_overlays. simpl. split; [done|].
    rewrite foldl_delete_lookup.
    destruct (decide (k ∈ elements ks)) as [Hin|Hnin].
    + rewrite decide_True; [done|]. by apply elem_of_elements.
    + rewrite decide_False; [done|]. by rewrite <- elem_of_elements.
  - done.
Qed.

Lemma removeOverlaysForBatchId_keyed b c :
  keyedByMutation (overlays c) →
  keyedByMutation (overlays (after (removeOverlaysForBatchId b) c)).
Proof.
  intros Hall k o Hk. apply Hall.
  pose proof (memory_removeOverlaysForBatchId_lookup b c k) as [_ Hlook].
  unfold getOverlay, SortedMap.get in Hlook. rewrite Hk in Hlook.
  destruct (overlayByBatchId c !! b) as [ks|].
  - destruct (decide (k ∈ ks)); [done|].
    destruct (overlays c !! k); by simplify_eq.
  - destruct (overlays c !! k); by simplify_eq.
Qed.

(** *** Overlays of a collection *)

(** Once the loop meets a key outside the collection, no later entry is in
    the collection: breaking loses nothing. *)
Lemma collectionLoop_filter collection sinceBatchId iter result :
  StronglySorted
    (λ e1 e2 : DocumentKey * Overlay,
       isPrefixOf collection (path (Overlay.getKey e1.2)) = false →
       isPrefixOf collection (path (Overlay.getKey e2.2)) = false) iter →
  collectionLoop collection sinceBatchId iter result
  = foldl (λ r e, <[Overlay.getKey e.2 := e.2]> r) result
      (filter (collected collection sinceBatchId) iter).
Proof.
  intros Hsorted. revert result.
  induction Hsorted as [|e iter Hsorted IH Hrest]; intros result; [done|].
  simpl.
  destruct (isPrefixOf collection (path (Overlay.getKey e.2))) eqn:Hprefix;
    simpl.
  - destruct (decide (length (path (Overlay.getKey e.2))
                      = S (length collection))) as [Hlen|Hlen].
    + rewrite bool_decide_eq_true_2 by done. simpl.
      destruct (decide (sinceBatchId < Overlay.largestBatchId e.2)) as [Hb|Hb].
      * rewrite bool_decide_eq_true_2 by done.
        rewrite filter_cons_True by (by repeat split). simpl. apply IH.
      * rewrite bool_decide_eq_false_2 by done.
        rewrite filter_cons_False by (by intros [_ ?]). apply IH.
    + rewrite bool_decide_eq_false_2 by done. simpl.
      rewrite filter_cons_False by (by intros [[_ ?] _]). apply IH.
  - rewrite filter_cons_False
      by (intros [[Hp _] _]; congruence).
    rewrite filter_nil_Forall; [done|].
    eapply Forall_impl; [exact Hrest|]. simpl.
    intros e' Himp [[Hp _] _]. rewrite Himp in Hp; done.
Qed.

(** [getOverlaysForCollection] on the in-memory cache returns the overlays
    held for the immediate children of the collection, past the batch id. *)
Lemma memory_getOverlaysForCollection_lookup c collection sinceBatchId k o :
  keyedByMutation (overlays c) →
  MemoryDocumentOverlayCache.getOverlaysForCollection c collection sinceBatchId
    !! k = Some o
  ↔ MemoryDocumentOverlayCache.getOverlay c k = Some o
    ∧ immediateChild collection k
    ∧ sinceBatchId < Overlay.largestBatchId o.
Proof.
  intros Hkeyed.
  unfold MemoryDocumentOverlayCache.getOverlaysForCollection,
    MemoryDocumentOverlayCache.getOverlay, SortedMap.get.
  set (prefix := mkDocumentKey (child collection "")).
  set (iter := SortedMap.getIteratorFrom keyComparator (overlays c) prefix).
  assert (Hiter : ∀ k o, (k, o) ∈ iter
            ↔ overlays c !! k = Some o ∧ cle keyComparator prefix k).
  { intros k' o'. unfold iter, SortedMap.getIteratorFrom.
    rewrite list_elem_of_filter, elem_of_getIterator by apply _. tauto. }
  assert (Hkeys : ∀ e, e ∈ iter → Overlay.getKey e.2 = e.1).
  { intros [k' o'] [Hk' _]%Hiter. by apply Hkeyed. }
  assert (Hnodup : NoDup iter.*1).
  { apply NoDup_fst_filter, NoDup_fst_getIterator. }
  rewrite collectionLoop_filter.
  - rewrite (foldl_insert_ext (λ e, Overlay.getKey e.2) fst snd).
    2:{ intros e [_ He]%list_elem_of_filter. by apply Hkeys. }
    rewrite foldl_insert_lookup by by apply NoDup_fst_filter.
    rewrite lookup_empty, list_elem_of_filter, Hiter.
    unfold collected. simpl.
    split.
    + intros [[[Hchild Hb] [Hk _]]|[_ ?]]; [|done].
      rewrite Hk. rewrite (Hkeyed _ _ Hk) in Hchild. done.
    + destruct (overlays c !! k) as [o'|] eqn:Hk; [|by intros [? _]].
      intros [[= ->] [Hchild Hb]]. left.
      rewrite (Hkeyed _ _ Hk). split; [by split|]. split; [done|].
      destruct Hchild as [Hp Hlen].
      unfold keyComparator, prefix. simpl.
      apply child_least; [done|lia].
  - apply (StronglySorted_impl (SortedMap.entry_le keyComparator) _
             (λ e, (cle keyComparator prefix e.1
                    ∧ Overlay.getKey e.2 = e.1))).
    + intros [k1 o1] [k2 o2] [Hle1 Hk1] [Hle2 Hk2] Hle Hout. simpl in *.
      rewrite Hk1 in Hout. rewrite Hk2.
      eapply past_collection; [exact Hle1|exact Hout|exact Hle].
    + apply Forall_forall. intros [k' o'] Hin. split.
      * by apply Hiter in Hin as [_ ?].
      * by apply Hkeys in Hin.
    + unfold iter, SortedMap.getIteratorFrom.
      apply StronglySorted_filter, getIterator_sorted. apply _.
Qed.

End MemoryCache.

(** *** Overlays of a collection group, in memory *)

Lemma union_lookup_within `{Countable K} {V} (m1 m2 all : gmap K V) k v :
  m1 ⊆ all → m2 ⊆ all →
  (m1 ∪ m2) !! k = Some v ↔ m1 !! k = Some v ∨ m2 !! k = Some v.
Proof.
  intros H1 H2. rewrite lookup_union_Some_raw. split; [naive_solver|].
  intros [?|Hm2]; [by left|].
  destruct (m1 !! k) as [v'|] eqn:Hm1; [|by right].
  left. f_equal.
  pose proof (lookup_weaken _ _ _ _ Hm1 H1).
  pose proof (lookup_weaken _ _ _ _ Hm2 H2). congruence.
Qed.

Lemma cle_numberComparator x y : cle numberComparator x y ↔ x ≤ y.
Proof.
  unfold cle. rewrite numberComparator_compare. symmetry.
  apply Z.compare_le_iff.
Qed.

(** The batch ids of the buckets strictly ascend along the iterator. *)
Lemma batchIter_sorted {V} (buckets : gmap Z V) :
  StronglySorted (λ e1 e2 : Z * V, e1.1 < e2.1)
    (SortedMap.getIterator numberComparator buckets).
Proof.
  pose proof (getIterator_sorted numberComparator buckets) as Hsorted.
  pose proof (NoDup_fst_getIterator numberComparator buckets) as Hnodup.
  induction Hsorted as [|e l Hsorted IH Hrest]; [constructor|].
  rewrite fmap_cons in Hnodup. apply NoDup_cons in Hnodup as [Hnin Hnodup].
  constructor; [by apply IH|].
  rewrite Forall_forall in Hrest |- *. intros e' Hin.
  specialize (Hrest e' Hin). unfold SortedMap.entry_le in Hrest.
  apply (proj1 (cle_numberComparator e.1 e'.1)) in Hrest.
  assert (e.1 ≠ e'.1); [|simpl in *; lia].
  intros Heq. apply Hnin. rewrite Heq. apply list_elem_of_fmap. by exists e'.
Qed.

Section GroupLoop.
Import MemoryDocumentOverlayCache.
Context (all : gmap DocumentKey Overlay) (g : string) (s : Z).
Context (Hkeyed : keyedByMutation all).

Lemma groupLoop_step (B : gmap Z (gmap DocumentKey Overlay)) lb k o b :
  alter <[k := o]> lb
    (if is_null (SortedMap.get B lb) then <[lb := ∅]> B else B) !! b
  = if decide (b = lb) then Some (<[k := o]> (default ∅ (B !! lb)))
    else B !! b.
Proof.
  unfold SortedMap.get.
  destruct (decide (b = lb)) as [->|Hne].
  - rewrite lookup_alter_eq.
    destruct (B !! lb) as [m|] eqn:Hlb; simpl.
    + by rewrite Hlb.
    + by rewrite lookup_insert_eq.
  - rewrite lookup_alter_ne by done.
    destruct (B !! lb) as [m|] eqn:Hlb; simpl; [done|].
    by rewrite lookup_insert_ne.
Qed.

Lemma groupLoop_lookup iter (B : gmap Z (gmap DocumentKey Overlay)) b :
  (∀ e, e ∈ iter → Overlay.getKey e.2 = e.1) →
  groupLoop g s iter B !! b
  = match filter (λ e, inGroupSince g s e ∧ Overlay.largestBatchId e.2 = b)
            iter with
    | [] => B !! b
    | es => Some (foldl (λ r e, <[e.1 := e.2]> r) (default ∅ (B !! b)) es)
    end.
Proof.
  revert B. induction iter as [|[k o] iter IH]; intros B Hkeys; [done|].
  assert (Hk : Overlay.getKey o = k) by (apply (Hkeys (k, o)); left).
  assert (Hkeys' : ∀ e, e ∈ iter → Overlay.getKey e.2 = e.1)
    by (intros e ?; apply Hkeys; by right).
  simpl. rewrite Hk.
  destruct (decide (getCollectionGroup k = Some g)) as [Hg|Hg].
  - rewrite bool_decide_eq_true_2 by done. simpl.
    destruct (decide (s < Overlay.largestBatchId o)) as [Hs|Hs].
    + rewrite bool_decide_eq_true_2 by done.
      rewrite IH by done. rewrite groupLoop_step.
      destruct (decide (b = Overlay.largestBatchId o)) as [->|Hb].
      * rewrite filter_cons_True by (by repeat split). simpl.
        by destruct (filter _ iter).
      * rewrite filter_cons_False by (intros [_ ?]; simpl in *; congruence).
        done.
    + rewrite bool_decide_eq_false_2 by done.
      rewrite filter_cons_False by (by intros [[_ ?] _]). by apply IH.
  - rewrite bool_decide_eq_false_2 by done. simpl.
    rewrite filter_cons_False by (by intros [[? _] _]). by apply IH.
Qed.

(** The buckets built by the first loop are the non-empty batch groups. *)
Lemma groupLoop_buckets b :
  groupLoop g s (SortedMap.getIterator keyComparator all) ∅ !! b
  = if decide (batchGroup all g s b = ∅) then None
    else Some (batchGroup all g s b).
Proof.
  set (iter := SortedMap.getIterator keyComparator all).
  assert (Hiter : ∀ k o, (k, o) ∈ iter ↔ all !! k = Some o).
  { intros k o. apply (elem_of_getIterator keyComparator). }
  rewrite groupLoop_lookup.
  2:{ intros [k o] Hin%Hiter. by apply Hkeyed. }
  rewrite lookup_empty. simpl.
  remember (filter (λ e : DocumentKey * Overlay,
              inGroupSince g s e ∧ Overlay.largestBatchId e.2 = b) iter)
    as es eqn:Hes.
  assert (Hlook : ∀ k o, batchGroup all g s b !! k = Some o ↔ (k, o) ∈ es).
  { intros k o. unfold batchGroup. rewrite map_lookup_filter_Some.
    rewrite Hes, list_elem_of_filter, Hiter. naive_solver. }
  assert (Hfold : foldl (λ r e, <[e.1 := e.2]> r) ∅ es = batchGroup all g s b).
  { apply map_eq. intros k. apply option_eq. intros o.
    rewrite foldl_insert_lookup
      by (rewrite Hes; apply NoDup_fst_filter, NoDup_fst_getIterator).
    rewrite lookup_empty, Hlook. naive_solver. }
  destruct es as [|[k o] es'].
  - rewrite decide_True; [done|]. by rewrite <- Hfold.
  - simpl in *. rewrite Hfold. rewrite decide_False; [done|].
    intros Hempty.
    assert (batchGroup all g s b !! k = Some o) as Hk by (apply Hlook; left).
    by rewrite Hempty, lookup_empty in Hk.
Qed.

End GroupLoop.

Section BatchLoop.
Import MemoryDocumentOverlayCache.
Context (all : gmap DocumentKey Overlay) (g : string) (s n : Z).

Lemma groupsBelow_lookup lo k o :
  groupsBelow all g s lo !! k = Some o
  ↔ all !! k = Some o ∧ inGroupSince g s (k, o)
    ∧ Overlay.largestBatchId o < lo.
Proof. unfold groupsBelow. rewrite map_lookup_filter_Some. naive_solver. Qed.

Lemma batchGroup_lookup b k o :
  batchGroup all g s b !! k = Some o
  ↔ all !! k = Some o ∧ inGroupSince g s (k, o)
    ∧ Overlay.largestBatchId o = b.
Proof. unfold batchGroup. rewrite map_lookup_filter_Some. naive_solver. Qed.

Lemma collectedBefore_mono lo1 lo2 :
  lo1 ≤ lo2 →
  (collectedBefore all g s lo1 ≤ collectedBefore all g s lo2)%nat.
Proof.
  intros Hle. apply map_subseteq_size, map_filter_subseteq_ext.
  intros k o _ [? ?]. split; [done|]. simpl in *. lia.
Qed.

(** Adding the batch group of [b] to the groups below [lo] gives the groups
    up to [b], when no overlay of the group lies between [lo] and [b]. *)
Lemma groupsBelow_add b lo :
  lo ≤ b →
  (∀ k o, all !! k = Some o → inGroupSince g s (k, o) →
          lo ≤ Overlay.largestBatchId o → b ≤ Overlay.largestBatchId o) →
  batchGroup all g s b ∪ groupsBelow all g s lo = groupsBelow all g s (b + 1).
Proof.
  intros Hlo Hgap. apply map_eq. intros k. apply option_eq. intros o.
  rewrite (union_lookup_within _ _ all)
    by apply map_filter_subseteq.
  rewrite groupsBelow_lookup, batchGroup_lookup, groupsBelow_lookup.
  split.
  - intros [(? & ? & ?)|(? & ? & ?)]; (split; [done|split; [done|lia]]).
  - intros (Hk & HG & Hb).
    destruct (decide (Overlay.largestBatchId o < lo)); [by right|].
    left. split; [done|]. split; [done|].
    specialize (Hgap k o Hk HG). lia.
Qed.

(** The second loop, started with the groups below [lo] and the buckets
    from [lo] on: the first bucket is added, and a later bucket is added
    when fewer than [n] overlays were collected from the groups before it. *)
Lemma batchLoop_groups batchIter lo result :
  StronglySorted (λ e1 e2 : Z * gmap DocumentKey Overlay, e1.1 < e2.1)
    batchIter →
  (∀ b m, (b, m) ∈ batchIter → lo ≤ b ∧ m = batchGroup all g s b) →
  (∀ k o, all !! k = Some o → inGroupSince g s (k, o) →
          lo ≤ Overlay.largestBatchId o →
          ∃ m, (Overlay.largestBatchId o, m) ∈ batchIter) →
  result = groupsBelow all g s lo →
  batchLoop n batchIter result
  = filter (λ kv, inGroupSince g s kv
                  ∧ (Overlay.largestBatchId kv.2 < lo
                     ∨ head batchIter.*1 = Some (Overlay.largestBatchId kv.2)
                     ∨ Z.of_nat (collectedBefore all g s
                                   (Overlay.largestBatchId kv.2)) < n))
      all.
Proof.
  intros Hsorted. revert lo result.
  induction Hsorted as [|[b m] batchIter Hsorted IH Hrest];
    intros lo result Hbuckets Hcomplete ->.
  - simpl. unfold groupsBelow. apply map_filter_ext. intros k o Hk. simpl.
    split; [naive_solver|]. intros [HG _]. split; [done|].
    destruct (decide (Overlay.largestBatchId o < lo)) as [|Hge]; [done|].
    destruct (Hcomplete k o Hk HG) as [m Hin]; [lia|].
    by apply elem_of_nil in Hin.
  - destruct (Hbuckets b m) as [Hlo ->]; [left|].
    rewrite Forall_forall in Hrest.
    assert (Hgap : ∀ k o, all !! k = Some o → inGroupSince g s (k, o) →
              lo ≤ Overlay.largestBatchId o → b ≤ Overlay.largestBatchId o).
    { intros k o Hk HG Hge. destruct (Hcomplete k o Hk HG Hge) as [m Hin].
      apply elem_of_cons in Hin as [[= <- _]|Hin]; [lia|].
      specialize (Hrest _ Hin). simpl in Hrest. lia. }
    assert (Hnext : ∀ k o, all !! k = Some o → inGroupSince g s (k, o) →
              b + 1 ≤ Overlay.largestBatchId o →
              ∃ m, (Overlay.largestBatchId o, m) ∈ batchIter).
    { intros k o Hk HG Hge. destruct (Hcomplete k o Hk HG) as [m Hin]; [lia|].
      apply elem_of_cons in Hin as [[= Hb _]|Hin]; [lia|]. by exists m. }
    simpl. rewrite foldl_insert_map_to_list.
    rewrite (groupsBelow_add b lo Hlo Hgap).
    fold (collectedBefore all g s (b + 1)).
    destruct (decide (n ≤ Z.of_nat (collectedBefore all g s (b + 1))))
      as [Hfull|Hmore].
    + rewrite bool_decide_eq_true_2 by done.
      unfold groupsBelow. apply map_filter_ext. intros k o Hk. simpl.
      split.
      * intros [HG Hb]. split; [done|].
        destruct (decide (Overlay.largestBatchId o < lo)); [by left|].
        right; left. f_equal. specialize (Hgap k o Hk HG). lia.
      * intros [HG [Hb|[[= Hb]|Hb]]]; split; try done; try lia.
        destruct (decide (Overlay.largestBatchId o < b + 1)); [done|].
        pose proof (collectedBefore_mono (b + 1) (Overlay.largestBatchId o)).
        lia.
    + rewrite bool_decide_eq_false_2 by done.
      rewrite (IH (b + 1)); [| |done|done].
      2:{ intros b' m' Hin. split.
          - specialize (Hrest _ Hin). simpl in Hrest. lia.
          - apply (Hbuckets b' m'). by right. }
      apply map_filter_ext. intros k o Hk. simpl.
      split.
      * intros [HG Hb]. split; [done|].
        destruct Hb as [Hb|[Hb|Hb]].
        -- destruct (decide (Overlay.largestBatchId o < lo)); [by left|].
           right; left. f_equal. specialize (Hgap k o Hk HG). lia.
        -- right; right.
           destruct batchIter as [|[b' m'] batchIter']; [done|].
           simpl in Hb. injection Hb as Hb.
           assert (collectedBefore all g s b'
                   = collectedBefore all g s (b + 1)) as Heq.
           { unfold collectedBefore, groupsBelow. f_equal.
             apply map_filter_ext. intros k1 o1 Hk1. simpl.
             split; intros [HG1 Hb1]; (split; [done|]).
             - destruct (decide (Overlay.largestBatchId o1 < b + 1))
                 as [|Hge]; [done|].
               destruct (Hnext k1 o1 Hk1 HG1) as [m1 Hin]; [lia|].
               apply elem_of_cons in Hin as [[= Hb1' _]|Hin]; [lia|].
               inversion Hsorted as [|? ? _ Hrest']; subst.
               rewrite Forall_forall in Hrest'.
               specialize (Hrest' _ Hin). simpl in Hrest'. lia.
             - assert (b < b') by (apply (Hrest (b', m')); left). lia. }
           rewrite <- Hb, Heq. lia.
        -- by right; right.
      * intros [HG [Hb|[[= Hb]|Hb]]]; split; try done.
        -- left. lia.
        -- left. lia.
        -- by right; right.
Qed.

End BatchLoop.

(** [getOverlaysForCollectionGroup] on the in-memory cache, for a count of
    at least one: the whole batch groups of the specification. *)
Lemma memory_getOverlaysForCollectionGroup_groups
    (c : MemoryDocumentOverlayCache.t) g s n :
  keyedByMutation (MemoryDocumentOverlayCache.overlays c) → 1 ≤ n →
  MemoryDocumentOverlayCache.getOverlaysForCollectionGroup c g s n
  = wholeBatchGroups (MemoryDocumentOverlayCache.overlays c) g s n.
Proof.
  intros Hkeyed Hn.
  unfold MemoryDocumentOverlayCache.getOverlaysForCollectionGroup.
  set (all := MemoryDocumentOverlayCache.overlays c).
  set (buckets := MemoryDocumentOverlayCache.groupLoop g s _ ∅).
  assert (Hbuckets : ∀ b m, (b, m) ∈ SortedMap.getIterator numberComparator buckets
            ↔ m = batchGroup all g s b ∧ m ≠ ∅).
  { intros b m. rewrite (elem_of_getIterator numberComparator).
    unfold buckets. rewrite (groupLoop_buckets all g s Hkeyed).
    destruct (decide (batchGroup all g s b = ∅)) as [Hempty|Hne].
    - split; [done|]. intros [-> ?]. done.
    - split; [by intros [= <-]|]. by intros [-> _]. }
  rewrite (batchLoop_groups all g s n _ (s + 1)).
  - unfold wholeBatchGroups. apply map_filter_ext. intros k o Hk. simpl.
    split; [|naive_solver].
    intros [HG [Hb|[Hhead|Hb]]]; split; try done.
    + destruct HG as [_ ?]. simpl in *. lia.
    + assert (collectedBefore all g s (Overlay.largestBatchId o) = 0%nat)
        as ->; [|lia].
      apply map_size_empty_iff, map_empty. intros k1.
      apply eq_None_not_Some. intros [o1 Hk1].
      apply groupsBelow_lookup in Hk1 as (Hk1 & HG1 & Hb1).
      pose proof (batchIter_sorted buckets) as Hsorted.
      destruct (SortedMap.getIterator numberComparator buckets)
        as [|[b m] rest] eqn:Hiter; [done|].
      simpl in Hhead. injection Hhead as ->.
      assert (batchGroup all g s (Overlay.largestBatchId o1) ≠ ∅) as Hne.
      { intros Hempty.
        assert (batchGroup all g s (Overlay.largestBatchId o1) !! k1 = Some o1)
          as Hin by (by apply batchGroup_lookup).
        by rewrite Hempty, lookup_empty in Hin. }
      assert ((Overlay.largestBatchId o1,
               batchGroup all g s (Overlay.largestBatchId o1))
              ∈ (Overlay.largestBatchId o, m) :: rest) as Hin
        by (by apply Hbuckets).
      apply elem_of_cons in Hin as [[= Heq _]|Hin]; [lia|].
      apply StronglySorted_inv in Hsorted as [_ Hrest].
      rewrite Forall_forall in Hrest.
      specialize (Hrest _ Hin). simpl in Hrest. lia.
  - apply batchIter_sorted.
  - intros b m [-> Hne]%Hbuckets. split; [|done].
    apply map_choose in Hne as (k & o & Hk).
    apply batchGroup_lookup in Hk as (_ & [_ Hs] & Hb). simpl in *. lia.
  - intros k o Hk HG _. exists (batchGroup all g s (Overlay.largestBatchId o)).
    apply Hbuckets. split; [done|]. intros Hempty.
    assert (batchGroup all g s (Overlay.largestBatchId o) !! k = Some o)
      as Hin by (by apply batchGroup_lookup).
    by rewrite Hempty, lookup_empty in Hin.
  - symmetry. apply map_empty. intros k. apply eq_None_not_Some.
    intros [o (_ & [_ Hs] & Hb)%groupsBelow_lookup]. simpl in *. lia.
Qed.

(** ** The IndexedDb object store *)

Lemma foldl_insert_lookup_functional `{Countable K} {V}
    (l : list (K * V)) (r : gmap K V) k v :
  (∀ k v v', (k, v) ∈ l → (k, v') ∈ l → v = v') →
  foldl (λ r e, <[e.1 := e.2]> r) r l !! k = Some v
  ↔ (k, v) ∈ l ∨ (k ∉ l.*1 ∧ r !! k = Some v).
Proof.
  revert r. induction l as [|[k' v'] l IH]; intros r Hfun; simpl.
  - rewrite elem_of_nil. set_solver.
  - rewrite IH by (intros k1 v1 v2 ? ?; apply (Hfun k1); by right).
    rewrite elem_of_cons, not_elem_of_cons.
    destruct (decide (k = k')) as [->|Hne].
    + rewrite lookup_insert_eq. split.
      * intros [Hin|[Hnin [= ->]]]; [by left; right|by left; left].
      * intros [[[= ->]|Hin]|[[? ?] ?]]; [|by left|done].
        destruct (decide (k' ∈ l.*1)) as [Hin|Hnin]; [|by right].
        left. apply list_elem_of_fmap in Hin as [[k1 v1] [-> Hin]]. simpl.
        rewrite (Hfun k1 v' v1); [done|by left|by right].
    + rewrite lookup_insert_ne by done. naive_solver.
Qed.

Lemma NoDup_omap {A B} (f : A → option B) (l : list A) :
  (∀ x y z, x ∈ l → y ∈ l → f x = Some z → f y = Some z → x = y) →
  NoDup l → NoDup (omap f l).
Proof.
  intros Hinj Hnd. induction Hnd as [|x l Hx Hnd IH]; [constructor|].
  simpl. destruct (f x) as [z|] eqn:Hfx.
  - constructor.
    + intros (y & Hy & Hfy)%list_elem_of_omap.
      destruct Hx. rewrite (Hinj x y z); [done|by left|by right|done|done].
    + apply IH. intros x1 x2 z' ? ?. apply Hinj; by right.
  - apply IH. intros x1 x2 z' ? ?. apply Hinj; by right.
Qed.

(** Index keys within a range that fixes the first component. *)
Section PairRange.
Context {A B : Type} (ca : A → A → comparison) (cb : B → B → comparison).
Context `{!Comparator ca, !Comparator cb}.

Lemma pair_compare_same a x y : pair_compare ca cb (a, x) (a, y) = cb x y.
Proof. unfold pair_compare; simpl. by rewrite cmp_refl. Qed.

Lemma pair_compare_between a a' x y z :
  pair_compare ca cb (a, x) (a', y) ≠ Gt →
  pair_compare ca cb (a', y) (a, z) ≠ Gt → a' = a.
Proof.
  unfold pair_compare; simpl. rewrite (cmp_antisym (cmp:=ca) a a').
  destruct (ca a a') eqn:Haa; simpl; try done.
  intros _ _. symmetry. by apply (cmp_eq (cmp:=ca)).
Qed.

(** [IDBKeyRange.bound([a, x], [a, z], lowerOpen, upperOpen)] *)
Lemma includes_prefix a x z lowerOpen upperOpen a' y :
  IDBKeyRange.includes (pair_compare ca cb)
    (IDBKeyRange.bound (a, x) (a, z) lowerOpen upperOpen) (a', y) = true
  ↔ a' = a
    ∧ IDBKeyRange.includes cb (IDBKeyRange.bound x z lowerOpen upperOpen) y
      = true.
Proof.
  unfold IDBKeyRange.includes.
  cbn [IDBKeyRange.lower IDBKeyRange.upper IDBKeyRange.lowerOpen
       IDBKeyRange.upperOpen].
  rewrite !andb_true_iff.
  destruct lowerOpen, upperOpen; rewrite !bool_decide_eq_true;
    (split;
     [ intros [Hlo Hhi];
       assert (a' = a) as ->
         by (eapply pair_compare_between; [by rewrite ?Hlo|by rewrite ?Hhi]);
       by rewrite !pair_compare_same in Hlo, Hhi
     | intros [-> [? ?]]; by rewrite !pair_compare_same ]).
Qed.
End PairRange.

Lemma includes_batchId (sinceBatchId : Z) (b : Z) :
  IDBKeyRange.includes numCompare
    (IDBKeyRange.bound (Finite sinceBatchId) PositiveInfinity true false)
    (Finite b) = true
  ↔ sinceBatchId < b.
Proof.
  unfold IDBKeyRange.includes; simpl.
  rewrite andb_true_iff, !bool_decide_eq_true.
  rewrite Z.compare_lt_iff. naive_solver.
Qed.

Lemma includes_exactBatchId (batchId : Z) (b : Z) :
  IDBKeyRange.includes Z.compare
    (IDBKeyRange.bound batchId (batchId + 1) false true) b = true
  ↔ b = batchId.
Proof.
  unfold IDBKeyRange.includes; simpl.
  rewrite andb_true_iff, !bool_decide_eq_true.
  rewrite Z.compare_lt_iff, Z.compare_le_iff. lia.
Qed.

Section Cursor.
Context {I : Type} (index : DbDocumentOverlay → option I).
Context (cmp : I → I → comparison) `{!Comparator cmp}.
Context (range : IDBKeyRange.t I) (store : SimpleDbStore.t).

Lemma elem_of_cursor row :
  row ∈ SimpleDbStore.cursor index cmp range store
  ↔ ∃ pk, store !! pk = Some row
          ∧ SimpleDbStore.inRange index cmp range row = true.
Proof.
  unfold SimpleDbStore.cursor. rewrite list_elem_of_fmap.
  setoid_rewrite merge_sort_Permutation.
  setoid_rewrite list_elem_of_omap.
  unfold SimpleDbStore.indexed, SimpleDbStore.inRange. split.
  - intros ([i row'] & -> & [pk row''] & Hin & Hidx). simpl in *.
    apply elem_of_map_to_list in Hin. exists pk.
    destruct (index row'') as [i'|] eqn:Hix; [|done].
    destruct (IDBKeyRange.includes cmp range i') eqn:Hinc; [|done].
    simplify_eq. by rewrite Hix.
  - intros (pk & Hpk & Hin).
    destruct (index row) as [i|] eqn:Hidx; [|done].
    exists (i, row). split; [done|]. exists (pk, row).
    rewrite elem_of_map_to_list. split; [done|]. simpl.
    by rewrite Hidx, Hin.
Qed.

Lemma NoDup_cursor :
  storeWellFormed store →
  NoDup (SimpleDbStore.cursor index cmp range store).
Proof.
  intros Hwf. unfold SimpleDbStore.cursor.
  rewrite merge_sort_Permutation.
  assert (NoDup (omap (SimpleDbStore.indexed index cmp range)
                   (map_to_list store))) as Hnd.
  { apply NoDup_omap; [|apply NoDup_map_to_list].
    intros [pk1 row1] [pk2 row2] [i row] Hin1 Hin2.
    apply elem_of_map_to_list in Hin1, Hin2.
    unfold SimpleDbStore.indexed. simpl.
    destruct (index row1) as [i1|]; [|done].
    destruct (index row2) as [i2|]; [|done].
    destruct (IDBKeyRange.includes cmp range i1); [|done].
    destruct (IDBKeyRange.includes cmp range i2); [|done].
    intros [= -> ->] [= _ ->].
    destruct (Hwf _ _ Hin1) as [-> _], (Hwf _ _ Hin2) as [-> _]. done. }
  apply NoDup_fmap_2_strong; [|done].
  intros [i1 row1] [i2 row2]
    ([pk1 r1] & Hin1 & Hidx1)%list_elem_of_omap
    ([pk2 r2] & Hin2 & Hidx2)%list_elem_of_omap. simpl. intros ->.
  unfold SimpleDbStore.indexed in *. simpl in *.
  destruct (index r1) as [j1|] eqn:E1; [|done].
  destruct (index r2) as [j2|] eqn:E2; [|done].
  destruct (IDBKeyRange.includes cmp range j1); [|done].
  destruct (IDBKeyRange.includes cmp range j2); [|done].
  simplify_eq. done.
Qed.

(** The cursor visits the records in the order of their index keys. *)
Lemma cursor_sorted :
  StronglySorted
    (λ row1 row2, ∀ i1 i2, index row1 = Some i1 → index row2 = Some i2 →
                           cle cmp i1 i2)
    (SimpleDbStore.cursor index cmp range store).
Proof.
  unfold SimpleDbStore.cursor.
  set (l := omap _ _).
  assert (Hsorted : StronglySorted (cle (SimpleDbStore.cursorCompare cmp))
                      (merge_sort (cle (SimpleDbStore.cursorCompare cmp)) l)).
  { apply (@Sorted_StronglySorted _ _
             (cle_proj_trans (pair_compare cmp DbDocumentOverlay.keyCompare)
                (λ e, (e.1, DbDocumentOverlay.keyOf e.2)))).
    apply (@Sorted_merge_sort _ _ _
             (cle_proj_total (pair_compare cmp DbDocumentOverlay.keyCompare)
                (λ e, (e.1, DbDocumentOverlay.keyOf e.2)))). }
  apply (StronglySorted_fmap snd
           (λ e1 e2 : I * DbDocumentOverlay,
              ∀ i1 i2, index e1.2 = Some i1 → index e2.2 = Some i2 →
                       cle cmp i1 i2)); [done|].
  apply (StronglySorted_impl (cle (SimpleDbStore.cursorCompare cmp)) _
           (λ e : I * DbDocumentOverlay, index e.2 = Some e.1)).
  - intros [j1 row1] [j2 row2] Hj1 Hj2 Hle i1 i2 Hi1 Hi2. simpl in *.
    simplify_eq. unfold cle, SimpleDbStore.cursorCompare, pair_compare in *.
    simpl in Hle. by destruct (cmp _ _).
  - apply Forall_forall. intros [j row].
    rewrite merge_sort_Permutation. unfold l.
    intros ([pk row'] & _ & Hidx)%list_elem_of_omap.
    unfold SimpleDbStore.indexed in Hidx. simpl in *.
    destruct (index row') as [j'|] eqn:Hix; [|done].
    destruct (IDBKeyRange.includes cmp range j'); [|done].
    by simplify_eq.
  - exact Hsorted.
Qed.
End Cursor.

(** ** The IndexedDb overlay cache *)

Section IndexedDbCache.
Import IndexedDbDocumentOverlayCache.

(** The record of an overlay of the user [uid]. *)
Lemma toDbDocumentOverlay_inv uid b m row :
  toDbDocumentOverlay uid b (Some m) = Ok row →
  DbDocumentOverlay.userId row = uid
  ∧ DbDocumentOverlay.documentPath row = path (key m)
  ∧ DbDocumentOverlay.collectionPath row = popLast (path (key m))
  ∧ DbDocumentOverlay.collectionGroup row = getCollectionGroup (key m)
  ∧ DbDocumentOverlay.largestBatchId row = b
  ∧ DbDocumentOverlay.overlayMutation row = m.
Proof. intros [= <-]. done. Qed.

Lemma storeWellFormed_row store pk row :
  storeWellFormed store → store !! pk = Some row →
  pk = (DbDocumentOverlay.userId row,
        path (key (DbDocumentOverlay.overlayMutation row)))
  ∧ DbDocumentOverlay.documentPath row
    = path (key (DbDocumentOverlay.overlayMutation row))
  ∧ DbDocumentOverlay.collectionPath row
    = popLast (path (key (DbDocumentOverlay.overlayMutation row)))
  ∧ DbDocumentOverlay.collectionGroup row
    = getCollectionGroup (key (DbDocumentOverlay.overlayMutation row))
  ∧ path (key (DbDocumentOverlay.overlayMutation row)) ≠ [].
Proof.
  intros Hwf Hrow. destruct (Hwf pk row Hrow) as (-> & Hto & Hne).
  apply toDbDocumentOverlay_inv in Hto as (_ & Hdoc & Hcoll & Hgrp & _ & _).
  unfold DbDocumentOverlay.keyOf. repeat split; try done; congruence.
Qed.

Lemma storeWellFormed_getKey store pk row :
  storeWellFormed store → store !! pk = Some row →
  pk = (DbDocumentOverlay.userId row,
        path (Overlay.getKey (fromDbDocumentOverlay row))).
Proof. intros Hwf Hrow. by apply (storeWellFormed_row store pk row). Qed.

Lemma storeWellFormed_empty : storeWellFormed ∅.
Proof. intros pk row. by rewrite lookup_empty. Qed.

Lemma storeWellFormed_put store uid b m row :
  storeWellFormed store → path (key m) ≠ [] →
  toDbDocumentOverlay uid b (Some m) = Ok row →
  storeWellFormed (SimpleDbStore.put row store).
Proof.
  intros Hwf Hne Hto pk row'. unfold SimpleDbStore.put.
  destruct (decide (pk = DbDocumentOverlay.keyOf row)) as [->|Hpk].
  - rewrite lookup_insert_eq. intros [= <-]. split; [done|].
    pose proof Hto as Hto'.
    apply toDbDocumentOverlay_inv in Hto' as (-> & -> & _ & _ & -> & ->).
    done.
  - rewrite lookup_insert_ne by done. apply Hwf.
Qed.

Lemma storeWellFormed_filter (P : (string * ResourcePath) * DbDocumentOverlay → Prop)
    `{!∀ x, Decision (P x)} store :
  storeWellFormed store → storeWellFormed (filter P store).
Proof.
  intros Hwf pk row [Hrow _]%map_lookup_filter_Some. by apply Hwf.
Qed.

(** *** Reading one overlay *)

Lemma storedOverlays_lookup c k :
  storedOverlays c !! k = getOverlay c k.
Proof.
  unfold storedOverlays, getOverlay, SimpleDbStore.get,
    toDbDocumentOverlayKey, encodeResourcePath.
  set (l := omap _ _).
  assert (Hl : ∀ k o, (k, o) ∈ l
            ↔ ∃ row, documentOverlayStore c !! (userId c, path k) = Some row
                     ∧ o = fromDbDocumentOverlay row).
  { intros k' o. unfold l. rewrite list_elem_of_omap. split.
    - intros ([[uid p] row] & Hin & Hsome). simpl in Hsome.
      apply elem_of_map_to_list in Hin.
      destruct (decide (uid = userId c)) as [->|]; [|done].
      injection Hsome as <- <-. by exists row.
    - intros (row & Hrow & ->). exists (userId c, path k', row).
      rewrite elem_of_map_to_list. split; [done|]. simpl.
      rewrite decide_True by done. by destruct k'. }
  apply option_eq. intros o. split.
  - intros Hin%elem_of_list_to_map_2. apply Hl in Hin as (row & -> & ->). done.
  - destruct (documentOverlayStore c !! (userId c, path k)) as [row|] eqn:Hrow;
      [|done].
    intros [= <-]. apply elem_of_list_to_map_1'.
    + intros o' (row' & Hrow' & ->)%Hl. congruence.
    + apply Hl. by exists row.
Qed.

(** *** Saving *)

Lemma idb_saveOverlay_run b m c :
  saveOverlay b (Some m) c
  = (Ok tt,
     mk (userId c)
        (<[(userId c, path (key m)) :=
             DbDocumentOverlay.mk (userId c) (path (key m))
               (popLast (path (key m))) (getCollectionGroup (key m)) b m]>
           (documentOverlayStore c))).
Proof. reflexivity. Qed.

Lemma idb_saveOverlay_absent b c :
  saveOverlay b None c = (Throw TypeError, c).
Proof. reflexivity. Qed.

Lemma idb_getOverlay_saveOverlay b m c k :
  getOverlay (after (saveOverlay b (Some m)) c) k
  = if decide (k = key m) then Some (Overlay.mk b m) else getOverlay c k.
Proof.
  unfold after. rewrite idb_saveOverlay_run. unfold getOverlay. simpl.
  unfold SimpleDbStore.get, toDbDocumentOverlayKey, encodeResourcePath.
  destruct (decide (k = key m)) as [->|Hne].
  - by rewrite lookup_insert_eq.
  - rewrite lookup_insert_ne; [done|].
    intros [= Hp]. destruct k, (key m). simpl in *. congruence.
Qed.

(** [saveOverlays] returns exactly when every mutation is present; each
    entry then replaces the overlay of the key of its mutation. *)
Lemma idb_saveOverlays_Ok b entries c c' :
  saveOverlays b entries c = (Ok tt, c') →
  NoDup entries.*1 →
  (∀ k m, (k, Some m) ∈ entries → key m = k) →
  userId c' = userId c
  ∧ (∀ e, e ∈ entries → is_Some e.2)
  ∧ (∀ k m, (k, Some m) ∈ entries → getOverlay c' k = Some (Overlay.mk b m))
  ∧ (∀ k, k ∉ entries.*1 → getOverlay c' k = getOverlay c k).
Proof.
  unfold saveOverlays. revert c.
  induction entries as [|[k0 [m0|]] entries IH]; intros c Hrun Hnd Hkeys.
  - injection Hrun as <-. repeat split; try done.
    + by intros e ?%elem_of_nil.
    + by intros k m ?%elem_of_nil.
  - rewrite forEach_cons in Hrun. cbn [snd] in Hrun.
    rewrite idb_saveOverlay_run in Hrun.
    rewrite fmap_cons in Hnd. apply NoDup_cons in Hnd as [Hk0 Hnd].
    assert (Hm0 : key m0 = k0) by (apply Hkeys; left).
    apply IH in Hrun as (Huid & Hpresent & Hsaved & Hother); [|done|].
    2:{ intros k m ?. apply Hkeys. by right. }
    split; [done|]. split; [|split].
    + intros e [->|?]%elem_of_cons; [by eexists|by apply Hpresent].
    + intros k m [[= -> ->]|Hin]%elem_of_cons; [|by apply Hsaved].
      rewrite Hother by done.
      pose proof (idb_getOverlay_saveOverlay b m0 c k0) as Hget.
      unfold after in Hget. rewrite idb_saveOverlay_run in Hget. simpl in Hget.
      rewrite Hget. by rewrite decide_True.
    + intros k [Hne Hnin]%not_elem_of_cons. rewrite Hother by done.
      pose proof (idb_getOverlay_saveOverlay b m0 c k) as Hget.
      unfold after in Hget. rewrite idb_saveOverlay_run in Hget. simpl in Hget.
      rewrite Hget. rewrite decide_False; [done|]. simpl in Hne. congruence.
  - rewrite forEach_cons in Hrun. cbn [snd] in Hrun.
    rewrite idb_saveOverlay_absent in Hrun. done.
Qed.

Lemma idb_saveOverlay_wellFormed b m c :
  storeWellFormed (documentOverlayStore c) →
  (∀ m', m = Some m' → path (key m') ≠ []) →
  storeWellFormed (documentOverlayStore (after (saveOverlay b m) c)).
Proof.
  intros Hwf Hne. unfold after. destruct m as [m|]; [|done].
  rewrite idb_saveOverlay_run. simpl.
  apply (storeWellFormed_put _ (userId c) b m); [done|by apply Hne|done].
Qed.

(** *** Removing a batch *)

Lemma inRange_batchId uid b row :
  SimpleDbStore.inRange DbDocumentOverlay.batchIdOverlayIndex
    DbDocumentOverlay.batchIdOverlayIndexCompare
    (IDBKeyRange.bound (uid, b) (uid, b + 1) false true) row = true
  ↔ DbDocumentOverlay.userId row = uid
    ∧ DbDocumentOverlay.largestBatchId row = b.
Proof.
  unfold SimpleDbStore.inRange, DbDocumentOverlay.batchIdOverlayIndex,
    DbDocumentOverlay.batchIdOverlayIndexCompare.
  rewrite (includes_prefix String_as_OT.compare Z.compare).
  by rewrite includes_exactBatchId.
Qed.

(** [removeOverlaysForBatchId(b)] removes the overlays of the user whose
    largest batch id is [b], and leaves the others. *)
Lemma idb_removeOverlaysForBatchId_lookup b c k :
  storeWellFormed (documentOverlayStore c) →
  (removeOverlaysForBatchId b c).1 = Ok tt
  ∧ getOverlay (after (removeOverlaysForBatchId b) c) k
    = match getOverlay c k with
      | Some o =>
          if decide (Overlay.largestBatchId o = b) then None else Some o
      | None => None
      end.
Proof.
  intros Hwf. split; [done|].
  unfold after, removeOverlaysForBatchId, getOverlay, SimpleDbStore.get,
    SimpleDbStore.deleteAll. cmd_unfold. simpl.
  set (pk := toDbDocumentOverlayKey (userId c) k).
  destruct (documentOverlayStore c !! pk) as [row|] eqn:Hrow.
  - destruct (Hwf pk row Hrow) as (Hpk & _).
    assert (DbDocumentOverlay.userId row = userId c) as Huid.
    { unfold pk, toDbDocumentOverlayKey, DbDocumentOverlay.keyOf in Hpk.
      by injection Hpk as -> _. }
    destruct (decide (Overlay.largestBatchId (fromDbDocumentOverlay row) = b))
      as [Hb|Hb].
    + rewrite map_lookup_filter_None_2; [done|]. right.
      intros row' Hrow'. simplify_eq. simpl.
      rewrite (proj2 (inRange_batchId _ _ _)); [done|]. by split.
    + rewrite (map_lookup_filter_Some_2 _ _ _ row); [done|done|]. simpl.
      apply not_true_is_false. rewrite inRange_batchId. by intros [_ ?].
  - rewrite map_lookup_filter_None_2; [done|]. by left.
Qed.

End IndexedDbCache.

(** *** The records of a cursor, as overlays *)

Section CursorEntries.
Import IndexedDbDocumentOverlayCache.
Context {I : Type} (index : DbDocumentOverlay → option I).
Context (cmp : I → I → comparison) `{!Comparator cmp}.
Context (range : IDBKeyRange.t I) (c : IndexedDbDocumentOverlayCache.t).
Context (P : DocumentKey * Overlay → Prop).
Context (Hwf : storeWellFormed (documentOverlayStore c)).
Context (Hrange : ∀ pk row, documentOverlayStore c !! pk = Some row →
           SimpleDbStore.inRange index cmp range row = true
           ↔ DbDocumentOverlay.userId row = userId c ∧ P (overlayEntry row)).

Lemma cursor_row_getOverlay row :
  row ∈ SimpleDbStore.cursor index cmp range (documentOverlayStore c) →
  getOverlay c (overlayEntry row).1 = Some (overlayEntry row).2
  ∧ P (overlayEntry row).
Proof.
  intros (pk & Hrow & Hin)%elem_of_cursor.
  apply (Hrange pk row Hrow) in Hin as [Huid HP]. split; [|done].
  pose proof (storeWellFormed_getKey _ _ _ Hwf Hrow) as Hpk.
  unfold getOverlay, SimpleDbStore.get, toDbDocumentOverlayKey,
    encodeResourcePath, overlayEntry. simpl.
  rewrite Huid in Hpk. rewrite <- Hpk. by rewrite Hrow.
Qed.

Lemma getOverlay_cursor_row k o :
  getOverlay c k = Some o → P (k, o) →
  ∃ row, row ∈ SimpleDbStore.cursor index cmp range (documentOverlayStore c)
         ∧ overlayEntry row = (k, o).
Proof.
  unfold getOverlay, SimpleDbStore.get, toDbDocumentOverlayKey,
    encodeResourcePath.
  destruct (documentOverlayStore c !! (userId c, path k)) as [row|] eqn:Hrow;
    [|done].
  intros [= <-] HP. exists row.
  pose proof (storeWellFormed_getKey _ _ _ Hwf Hrow) as Hpk.
  injection Hpk as Huid Hpath.
  assert (overlayEntry row = (k, fromDbDocumentOverlay row)) as Hentry.
  { unfold overlayEntry. f_equal.
    destruct k, (Overlay.getKey (fromDbDocumentOverlay row)).
    simpl in *. congruence. }
  split; [|done].
  apply elem_of_cursor. exists (userId c, path k). split; [done|].
  apply (Hrange _ _ Hrow). split; [done|]. by rewrite Hentry.
Qed.

Lemma elem_of_cursor_entries k o :
  (k, o) ∈ overlayEntry
             <$> SimpleDbStore.cursor index cmp range (documentOverlayStore c)
  ↔ getOverlay c k = Some o ∧ P (k, o).
Proof.
  rewrite list_elem_of_fmap. split.
  - intros (row & Hentry & Hin). apply cursor_row_getOverlay in Hin.
    by rewrite <- Hentry in Hin.
  - intros [Hget HP]. destruct (getOverlay_cursor_row k o Hget HP)
      as (row & Hin & Hentry). by exists row.
Qed.

Lemma cursor_entries_injective row1 row2 :
  row1 ∈ SimpleDbStore.cursor index cmp range (documentOverlayStore c) →
  row2 ∈ SimpleDbStore.cursor index cmp range (documentOverlayStore c) →
  overlayEntry row1 = overlayEntry row2 → row1 = row2.
Proof.
  intros (pk1 & Hrow1 & Hin1)%elem_of_cursor
         (pk2 & Hrow2 & Hin2)%elem_of_cursor Hentry; try done.
  apply (Hrange pk1 row1 Hrow1) in Hin1 as [Huid1 _].
  apply (Hrange pk2 row2 Hrow2) in Hin2 as [Huid2 _].
  pose proof (storeWellFormed_getKey _ _ _ Hwf Hrow1) as Hpk1.
  pose proof (storeWellFormed_getKey _ _ _ Hwf Hrow2) as Hpk2.
  assert (pk1 = pk2) as ->.
  { rewrite Hpk1, Hpk2, Huid1, Huid2.
    unfold overlayEntry in Hentry. by injection Hentry as -> _. }
  congruence.
Qed.

(** A map filled from the records of a cursor holds their overlays. *)
Lemma foldl_cursor_lookup (Q : DbDocumentOverlay → Prop)
    `{!∀ row, Decision (Q row)} k o :
  foldl (λ (result : gmap DocumentKey Overlay) dbOverlay,
           let overlay := fromDbDocumentOverlay dbOverlay in
           <[Overlay.getKey overlay := overlay]> result) ∅
    (filter Q (SimpleDbStore.cursor index cmp range (documentOverlayStore c)))
    !! k = Some o
  ↔ ∃ row, row ∈ SimpleDbStore.cursor index cmp range (documentOverlayStore c)
           ∧ Q row ∧ overlayEntry row = (k, o).
Proof.
  set (rows := SimpleDbStore.cursor index cmp range (documentOverlayStore c)).
  change (foldl _ ∅ (filter Q rows))
    with (foldl (λ r row, <[(overlayEntry row).1 := (overlayEntry row).2]> r)
            (∅ : gmap DocumentKey Overlay) (filter Q rows)).
  rewrite <- (foldl_fmap (λ (r : gmap DocumentKey Overlay) e, <[e.1 := e.2]> r)
                ∅ (filter Q rows) overlayEntry).
  rewrite foldl_insert_lookup_functional.
  - rewrite lookup_empty, list_elem_of_fmap.
    setoid_rewrite list_elem_of_filter. naive_solver.
  - intros k' v v'.
    intros (row1 & Hentry1 & [_ Hin1]%list_elem_of_filter)%list_elem_of_fmap.
    intros (row2 & Hentry2 & [_ Hin2]%list_elem_of_filter)%list_elem_of_fmap.
    apply cursor_row_getOverlay in Hin1 as [Hget1 _].
    apply cursor_row_getOverlay in Hin2 as [Hget2 _].
    rewrite <- Hentry1 in Hget1. rewrite <- Hentry2 in Hget2.
    simpl in *. congruence.
Qed.

End CursorEntries.

(** *** Overlays of a collection, from the store *)

Section IndexedDbQueries.
Import IndexedDbDocumentOverlayCache.

Lemma inRange_collectionPath uid collection sinceBatchId row :
  SimpleDbStore.inRange DbDocumentOverlay.collectionPathOverlayIndex
    DbDocumentOverlay.collectionPathOverlayIndexCompare
    (IDBKeyRange.bound (uid, collection, Finite sinceBatchId)
       (uid, collection, PositiveInfinity) true false) row = true
  ↔ DbDocumentOverlay.userId row = uid
    ∧ DbDocumentOverlay.collectionPath row = collection
    ∧ sinceBatchId < DbDocumentOverlay.largestBatchId row.
Proof.
  unfold SimpleDbStore.inRange, DbDocumentOverlay.collectionPathOverlayIndex,
    DbDocumentOverlay.collectionPathOverlayIndexCompare.
  rewrite (includes_prefix
             (pair_compare String_as_OT.compare pathComparator) numCompare).
  rewrite includes_batchId. naive_solver.
Qed.

Lemma inRange_collectionGroup uid collectionGroup sinceBatchId row :
  SimpleDbStore.inRange DbDocumentOverlay.collectionGroupOverlayIndex
    DbDocumentOverlay.collectionGroupOverlayIndexCompare
    (IDBKeyRange.bound (uid, collectionGroup, Finite sinceBatchId)
       (uid, collectionGroup, PositiveInfinity) true false) row = true
  ↔ DbDocumentOverlay.userId row = uid
    ∧ DbDocumentOverlay.collectionGroup row = Some collectionGroup
    ∧ sinceBatchId < DbDocumentOverlay.largestBatchId row.
Proof.
  unfold SimpleDbStore.inRange, DbDocumentOverlay.collectionGroupOverlayIndex,
    DbDocumentOverlay.collectionGroupOverlayIndexCompare.
  destruct (DbDocumentOverlay.collectionGroup row) as [g|]; [|naive_solver].
  rewrite (includes_prefix
             (pair_compare String_as_OT.compare String_as_OT.compare)
             numCompare).
  rewrite includes_batchId. naive_solver.
Qed.

(** [getOverlaysForCollection] on the IndexedDb cache returns the overlays
    held for the immediate children of the collection, past the batch id. *)
Lemma idb_getOverlaysForCollection_lookup c collection sinceBatchId k o :
  storeWellFormed (documentOverlayStore c) →
  IndexedDbDocumentOverlayCache.getOverlaysForCollection c collection
    sinceBatchId !! k = Some o
  ↔ IndexedDbDocumentOverlayCache.getOverlay c k = Some o
    ∧ immediateChild collection k
    ∧ sinceBatchId < Overlay.largestBatchId o.
Proof.
  intros Hwf.
  unfold IndexedDbDocumentOverlayCache.getOverlaysForCollection,
    SimpleDbStore.loadAll, encodeResourcePath.
  set (P := λ kv : DocumentKey * Overlay,
         immediateChild collection kv.1
         ∧ sinceBatchId < Overlay.largestBatchId kv.2).
  assert (Hrange : ∀ pk row, documentOverlayStore c !! pk = Some row →
            SimpleDbStore.inRange DbDocumentOverlay.collectionPathOverlayIndex
              DbDocumentOverlay.collectionPathOverlayIndexCompare
              (IDBKeyRange.bound (userId c, collection, Finite sinceBatchId)
                 (userId c, collection, PositiveInfinity) true false) row = true
            ↔ DbDocumentOverlay.userId row = userId c ∧ P (overlayEntry row)).
  { intros pk row Hrow. rewrite inRange_collectionPath.
    destruct (storeWellFormed_row _ _ _ Hwf Hrow)
      as (_ & _ & Hcoll & _ & Hne).
    unfold P, overlayEntry. simpl. rewrite immediateChild_popLast.
    rewrite Hcoll. unfold Overlay.getKey. simpl. naive_solver. }
  rewrite <- (filter_all_Forall (λ _, True) (SimpleDbStore.cursor _ _ _ _))
    by (by apply Forall_forall).
  rewrite (foldl_cursor_lookup _ _ _ c P Hwf Hrange).
  split.
  - intros (row & Hin & _ & Hentry).
    apply (cursor_row_getOverlay _ _ _ c P Hwf Hrange) in Hin.
    rewrite Hentry in Hin. simpl in Hin. unfold P in Hin. simpl in Hin.
    naive_solver.
  - intros (Hget & Hchild & Hb).
    destruct (getOverlay_cursor_row _ _ _ c P Hwf Hrange k o Hget)
      as (row & Hin & Hentry); [by split|].
    by exists row.
Qed.

End IndexedDbQueries.

(** *** Overlays of a collection group, from the store *)

Section Scan.
Import IndexedDbDocumentOverlayCache.
Context (n : Z) (rows : list DbDocumentOverlay).
Context (Hsorted : StronglySorted
           (λ r1 r2, DbDocumentOverlay.largestBatchId r1
                     ≤ DbDocumentOverlay.largestBatchId r2) rows).

Lemma length_filter_mono {A} (P Q : A → Prop) `{!∀ x, Decision (P x)}
    `{!∀ x, Decision (Q x)} (l : list A) :
  (∀ x, P x → Q x) → (length (filter P l) ≤ length (filter Q l))%nat.
Proof.
  intros HPQ. induction l as [|x l IH]; [done|].
  rewrite !filter_cons.
  destruct (decide (P x)), (decide (Q x)); simpl; try lia.
  destruct n0. by apply HPQ.
Qed.

Lemma recordsBelow_mono b1 b2 :
  b1 ≤ b2 → (recordsBelow rows b1 ≤ recordsBelow rows b2)%nat.
Proof. intros ?. apply length_filter_mono. intros row ?. lia. Qed.

Lemma recordsBelow_upper pre rest b :
  rows = pre ++ rest →
  (∀ row, row ∈ rest → b ≤ DbDocumentOverlay.largestBatchId row) →
  (recordsBelow rows b ≤ length pre)%nat.
Proof.
  intros -> Hrest. unfold recordsBelow. rewrite filter_app, length_app.
  rewrite (filter_nil_Forall _ rest).
  - pose proof (length_filter
      (λ row, DbDocumentOverlay.largestBatchId row < b) pre). simpl. lia.
  - apply Forall_forall. intros row Hin. specialize (Hrest row Hin). lia.
Qed.

Lemma recordsBelow_lower pre rest b :
  rows = pre ++ rest →
  (∀ row, row ∈ pre → DbDocumentOverlay.largestBatchId row < b) →
  (length pre ≤ recordsBelow rows b)%nat.
Proof.
  intros -> Hpre. unfold recordsBelow. rewrite filter_app, length_app.
  rewrite (filter_all_Forall _ pre); [lia|].
  by apply Forall_forall.
Qed.

Lemma sorted_before_last pre rest row last_row :
  rows = pre ++ rest → row ∈ pre → last pre = Some last_row →
  DbDocumentOverlay.largestBatchId row
  ≤ DbDocumentOverlay.largestBatchId last_row.
Proof.
  intros Hrows Hin [pre' ->]%last_Some.
  apply elem_of_app in Hin as [Hin|Hin].
  - rewrite Hrows, <- app_assoc in Hsorted.
    apply (StronglySorted_app_1_elem_of _ _ _ row last_row) in Hsorted;
      [done|done|left].
  - apply list_elem_of_singleton in Hin as ->. done.
Qed.

Lemma sorted_pre_rest pre rest row1 row2 :
  rows = pre ++ rest → row1 ∈ pre → row2 ∈ rest →
  DbDocumentOverlay.largestBatchId row1
  ≤ DbDocumentOverlay.largestBatchId row2.
Proof.
  intros Hrows Hin1 Hin2. rewrite Hrows in Hsorted.
  by apply (StronglySorted_app_1_elem_of _ _ _ row1 row2) in Hsorted.
Qed.

Lemma sorted_rest_head pre row rest row' :
  rows = pre ++ row :: rest → row' ∈ row :: rest →
  DbDocumentOverlay.largestBatchId row
  ≤ DbDocumentOverlay.largestBatchId row'.
Proof.
  intros Hrows [->|Hin]%elem_of_cons; [done|].
  rewrite Hrows in Hsorted. apply StronglySorted_app_1_r in Hsorted.
  apply StronglySorted_inv in Hsorted as [_ Hall].
  rewrite Forall_forall in Hall. by apply Hall.
Qed.

(** The records that the specification keeps: those with fewer than [n]
    records in the batches below theirs. *)
Definition kept (row : DbDocumentOverlay) : Prop :=
  Z.of_nat (recordsBelow rows (DbDocumentOverlay.largestBatchId row)) < n.

Global Instance kept_dec row : Decision (kept row).
Proof. unfold kept. apply _. Defined.

Lemma kept_pre pre rest :
  rows = pre ++ rest →
  (∀ row, last pre = Some row → kept row) →
  ∀ row, row ∈ pre → kept row.
Proof.
  intros Hrows Hlast row Hin.
  destruct (last pre) as [last_row|] eqn:Hl.
  - pose proof (sorted_before_last pre rest row last_row Hrows Hin Hl).
    pose proof (recordsBelow_mono _ _ H).
    specialize (Hlast last_row eq_refl). unfold kept in *. lia.
  - apply last_None in Hl as ->. by apply elem_of_nil in Hin.
Qed.

Definition insertRecord (result : gmap DocumentKey Overlay)
    (row : DbDocumentOverlay) : gmap DocumentKey Overlay :=
  <[Overlay.getKey (fromDbDocumentOverlay row) := fromDbDocumentOverlay row]>
    result.

(** The scan, after it added the records [pre] and before it reads the
    records [rest]: it adds the records kept, and stops at the first that
    is not. *)
Lemma scan_kept pre rest :
  rows = pre ++ rest →
  (∀ row, last pre = Some row → kept row) →
  result
    (SimpleDbStore.iterateLoop (groupCallback n) rest
       (mkScan (foldl insertRecord ∅ pre)
               (DbDocumentOverlay.largestBatchId <$> last pre)
               (Z.of_nat (length pre))))
  = foldl insertRecord ∅ (filter kept rows).
Proof.
  revert pre. induction rest as [|row rest IH]; intros pre Hrows Hlast.
  - simpl. rewrite app_nil_r in Hrows. subst pre.
    rewrite filter_all_Forall; [done|].
    apply Forall_forall. apply (kept_pre rows []); [by rewrite app_nil_r|done].
  - simpl. unfold groupCallback at 1. simpl.
    destruct (bool_decide (Z.of_nat (length pre) < n)
              || bool_decide
                   (Some (DbDocumentOverlay.largestBatchId row)
                    = DbDocumentOverlay.largestBatchId <$> last pre))
      eqn:Hcond.
    + specialize (IH (pre ++ [row])).
      rewrite foldl_app, last_snoc, length_app in IH. simpl in IH.
      replace (Z.of_nat (length pre + 1)) with (Z.of_nat (length pre) + 1)
        in IH by lia.
      apply IH; [by rewrite <- app_assoc|].
      intros ? [= <-]. unfold kept.
      apply orb_true_iff in Hcond as [Hcount|Hsame].
      * apply bool_decide_eq_true in Hcount.
        pose proof (recordsBelow_upper pre (row :: rest)
                      (DbDocumentOverlay.largestBatchId row) Hrows
                      (λ row' Hin, sorted_rest_head pre row rest row' Hrows Hin)).
        lia.
      * apply bool_decide_eq_true in Hsame.
        destruct (last pre) as [last_row|] eqn:Hl; [|done].
        injection Hsame as ->. by apply Hlast.
    + simpl. apply orb_false_iff in Hcond as [Hcount Hother].
      apply bool_decide_eq_false in Hcount, Hother.
      rewrite Hrows, filter_app.
      rewrite (filter_all_Forall _ pre)
        by (apply Forall_forall; by apply (kept_pre pre (row :: rest))).
      rewrite (filter_nil_Forall _ (row :: rest)); [by rewrite app_nil_r|].
      apply Forall_forall. intros row' Hin. unfold kept.
      pose proof (sorted_rest_head pre row rest row' Hrows Hin) as Hle.
      pose proof (recordsBelow_mono _ _ Hle).
      assert (length pre
              ≤ recordsBelow rows (DbDocumentOverlay.largestBatchId row))%nat;
        [|lia].
      apply (recordsBelow_lower pre (row :: rest)); [done|].
      intros row0 Hin0.
      destruct (last pre) as [last_row|] eqn:Hl.
      * pose proof (sorted_before_last pre _ row0 last_row Hrows Hin0 Hl).
        assert (last_row ∈ pre) as Hinl.
        { apply last_Some in Hl as [pre' ->]. apply elem_of_app. right. left. }
        pose proof (sorted_pre_rest pre (row :: rest) last_row row Hrows Hinl).
        assert (DbDocumentOverlay.largestBatchId last_row
                ≠ DbDocumentOverlay.largestBatchId row)
          by (intros Heq; apply Hother; simpl; by rewrite Heq).
        assert (row ∈ row :: rest) by left. naive_solver lia.
      * apply last_None in Hl as ->. by apply elem_of_nil in Hin0.
Qed.

End Scan.

Section IndexedDbGroups.
Import IndexedDbDocumentOverlayCache.
Context (c : IndexedDbDocumentOverlayCache.t) (g : string) (s : Z).
Context (Hwf : storeWellFormed (documentOverlayStore c)).

(** The records of the scan of [getOverlaysForCollectionGroup]. *)
Definition groupRecords : list DbDocumentOverlay :=
  SimpleDbStore.cursor DbDocumentOverlay.collectionGroupOverlayIndex
    DbDocumentOverlay.collectionGroupOverlayIndexCompare
    (IDBKeyRange.bound (userId c, g, Finite s)
       (userId c, g, PositiveInfinity) true false)
    (documentOverlayStore c).

Lemma groupRecords_range pk row :
  documentOverlayStore c !! pk = Some row →
  SimpleDbStore.inRange DbDocumentOverlay.collectionGroupOverlayIndex
    DbDocumentOverlay.collectionGroupOverlayIndexCompare
    (IDBKeyRange.bound (userId c, g, Finite s)
       (userId c, g, PositiveInfinity) true false) row = true
  ↔ DbDocumentOverlay.userId row = userId c
    ∧ inGroupSince g s (overlayEntry row).
Proof.
  intros Hrow. rewrite inRange_collectionGroup.
  destruct (storeWellFormed_row _ _ _ Hwf Hrow) as (_ & _ & _ & Hgrp & _).
  unfold inGroupSince, overlayEntry, Overlay.getKey. simpl.
  rewrite Hgrp. naive_solver.
Qed.

Lemma groupRecords_sorted :
  StronglySorted
    (λ r1 r2, DbDocumentOverlay.largestBatchId r1
              ≤ DbDocumentOverlay.largestBatchId r2) groupRecords.
Proof.
  unfold groupRecords.
  eapply (StronglySorted_impl _ _
            (λ row, DbDocumentOverlay.collectionGroupOverlayIndex row
                    = Some (userId c, g,
                            Finite (DbDocumentOverlay.largestBatchId row))));
    [| |apply cursor_sorted; apply _].
  - intros row1 row2 Hi1 Hi2 Hle.
    specialize (Hle _ _ Hi1 Hi2).
    unfold DbDocumentOverlay.collectionGroupOverlayIndexCompare, cle in Hle.
    rewrite pair_compare_same in Hle by apply _. simpl in Hle.
    by apply Z.compare_le_iff.
  - apply Forall_forall. intros row (pk & Hrow & Hin)%elem_of_cursor.
    apply inRange_collectionGroup in Hin as (Huid & Hgrp & _).
    unfold DbDocumentOverlay.collectionGroupOverlayIndex.
    by rewrite Hgrp, Huid.
Qed.

Lemma NoDup_groupRecords : NoDup groupRecords.
Proof. by apply NoDup_cursor. Qed.

(** The records below a batch id are the overlays of the groups below it. *)
Lemma recordsBelow_collectedBefore b :
  recordsBelow groupRecords b = collectedBefore (storedOverlays c) g s b.
Proof.
  unfold recordsBelow, collectedBefore.
  set (below := filter _ groupRecords).
  rewrite <- (length_fmap overlayEntry below).
  rewrite <- length_map_to_list. apply Permutation_length.
  apply NoDup_Permutation.
  - apply NoDup_fmap_2_strong.
    + intros row1 row2 [_ Hin1]%list_elem_of_filter [_ Hin2]%list_elem_of_filter.
      by apply (cursor_entries_injective _ _ _ c (inGroupSince g s) Hwf
                  groupRecords_range).
    + apply NoDup_filter, NoDup_groupRecords.
  - apply NoDup_map_to_list.
  - intros [k o]. rewrite elem_of_map_to_list, groupsBelow_lookup.
    rewrite storedOverlays_lookup, list_elem_of_fmap. unfold below.
    setoid_rewrite list_elem_of_filter. split.
    + intros (row & Hentry & Hb & Hin).
      apply (cursor_row_getOverlay _ _ _ c (inGroupSince g s) Hwf
               groupRecords_range) in Hin as [Hget HG].
      rewrite <- Hentry in Hget, HG. simpl in Hget.
      assert (Overlay.largestBatchId o = DbDocumentOverlay.largestBatchId row)
        as -> by (by injection Hentry as _ ->).
      done.
    + intros (Hget & HG & Hb).
      destruct (getOverlay_cursor_row _ _ _ c (inGroupSince g s) Hwf
                  groupRecords_range k o Hget HG) as (row & Hin & Hentry).
      exists row. split; [done|]. split; [|done].
      by injection Hentry as _ <-.
Qed.

(** [getOverlaysForCollectionGroup] on the IndexedDb cache, for any count:
    the whole batch groups of the specification. *)
Lemma idb_getOverlaysForCollectionGroup_groups n :
  IndexedDbDocumentOverlayCache.getOverlaysForCollectionGroup c g s n
  = wholeBatchGroups (storedOverlays c) g s n.
Proof.
  unfold IndexedDbDocumentOverlayCache.getOverlaysForCollectionGroup,
    SimpleDbStore.iterate. fold groupRecords.
  etransitivity;
    [by apply (scan_kept n groupRecords groupRecords_sorted [] groupRecords)|].
  apply map_eq. intros k. apply option_eq. intros o.
  unfold insertRecord.
  rewrite (foldl_cursor_lookup _ _ _ c (inGroupSince g s) Hwf
             groupRecords_range (kept n groupRecords)).
  unfold wholeBatchGroups. rewrite map_lookup_filter_Some.
  rewrite storedOverlays_lookup. simpl. unfold kept.
  setoid_rewrite recordsBelow_collectedBefore. split.
  - intros (row & Hin & Hkept & Hentry).
    apply (cursor_row_getOverlay _ _ _ c (inGroupSince g s) Hwf
             groupRecords_range) in Hin as [Hget HG].
    rewrite Hentry in Hget, HG. simpl in Hget.
    assert (Overlay.largestBatchId o = DbDocumentOverlay.largestBatchId row)
      as -> by (by injection Hentry as _ <-).
    done.
  - intros (Hget & HG & Hkept).
    destruct (getOverlay_cursor_row _ _ _ c (inGroupSince g s) Hwf
                groupRecords_range k o Hget HG) as (row & Hin & Hentry).
    exists row. split; [done|]. split; [|done].
    assert (Overlay.largestBatchId o = DbDocumentOverlay.largestBatchId row)
      as <- by (by injection Hentry as _ <-).
    done.
Qed.

End IndexedDbGroups.

(** ** The two overlay caches behind the interface *)

Lemma idb_saveOverlays_wellFormed b entries c :
  storeWellFormed (IndexedDbDocumentOverlayCache.documentOverlayStore c) →
  (∀ k m, (k, Some m) ∈ entries → path (key m) ≠ []) →
  storeWellFormed
    (IndexedDbDocumentOverlayCache.documentOverlayStore
       (after (IndexedDbDocumentOverlayCache.saveOverlays b entries) c)).
Proof.
  unfold IndexedDbDocumentOverlayCache.saveOverlays, after. revert c.
  induction entries as [|[k m] entries IH]; intros c Hwf Hne; [done|].
  rewrite forEach_cons. cbn [snd].
  pose proof (idb_saveOverlay_wellFormed b m c Hwf) as Hstep.
  unfold after in Hstep.
  destruct (IndexedDbDocumentOverlayCache.saveOverlay b m c)
    as [[[]|err] c'] eqn:Hrun; simpl in *.
  - apply IH.
    + apply Hstep. intros m' ->. apply (Hne k). left.
    + intros k' m' ?. apply (Hne k'). by right.
  - apply Hstep. intros m' ->. apply (Hne k). left.
Qed.

Lemma memoryMessages_keyed :
  keyedByMutation (MemoryDocumentOverlayCache.overlays memoryMessages).
Proof.
  unfold memoryMessages, messageBatches. cbn [foldl fst snd].
  do 6 apply saveOverlays_keyed. apply keyedByMutation_empty.
Qed.

Lemma memoryRooms_keyed :
  keyedByMutation (MemoryDocumentOverlayCache.overlays memoryRooms).
Proof.
  unfold memoryRooms.
  do 2 apply saveOverlays_keyed. apply keyedByMutation_empty.
Qed.

Lemma present_path_nonempty k m (entries : list (DocumentKey * option Mutation)) :
  Forall (λ e, match e.2 with
               | Some m => bool_decide (path (key m) ≠ [])
               | None => true
               end = true) entries →
  (k, Some m) ∈ entries → path (key m) ≠ [].
Proof.
  rewrite Forall_forall. intros Hall Hin.
  specialize (Hall _ Hin). simpl in Hall. by apply bool_decide_eq_true in Hall.
Qed.

Lemma indexedDbMessages_wellFormed :
  storeWellFormed
    (IndexedDbDocumentOverlayCache.documentOverlayStore indexedDbMessages).
Proof.
  unfold indexedDbMessages, messageBatches. cbn [foldl fst snd].
  do 6 (apply idb_saveOverlays_wellFormed;
        [|intros k m; apply present_path_nonempty; by repeat constructor]).
  apply storeWellFormed_empty.
Qed.

Lemma indexedDbRooms_wellFormed :
  storeWellFormed
    (IndexedDbDocumentOverlayCache.documentOverlayStore indexedDbRooms).
Proof.
  unfold indexedDbRooms.
  do 2 (apply idb_saveOverlays_wellFormed;
        [|intros k m; apply present_path_nonempty; by repeat constructor]).
  apply storeWellFormed_empty.
Qed.

(** C6. [getOverlaysForCollection(c, s)] returns exactly the overlays held
    for the keys that are immediate children of [c] (the path of the key
    extends [c] by one segment) and whose largest batch id is greater than
    [s], on the in-memory cache and on the IndexedDb cache. *)
Theorem getOverlaysForCollection_immediate_children :
  (∀ (c : MemoryDocumentOverlayCache.t) collection sinceBatchId k o,
     keyedByMutation (MemoryDocumentOverlayCache.overlays c) →
     getOverlaysForCollection c collection sinceBatchId !! k = Some o
     ↔ getOverlay c k = Some o
       ∧ immediateChild collection k
       ∧ sinceBatchId < Overlay.largestBatchId o)
  ∧ (∀ (c : IndexedDbDocumentOverlayCache.t) collection sinceBatchId k o,
       storeWellFormed (IndexedDbDocumentOverlayCache.documentOverlayStore c) →
       getOverlaysForCollection c collection sinceBatchId !! k = Some o
       ↔ getOverlay c k = Some o
         ∧ immediateChild collection k
         ∧ sinceBatchId < Overlay.largestBatchId o).
Proof.
  split.
  - intros c collection sinceBatchId k o Hkeyed.
    by apply memory_getOverlaysForCollection_lookup.
  - intros c collection sinceBatchId k o Hwf.
    by apply idb_getOverlaysForCollection_lookup.
Qed.

(** Scenario S3: of the overlays for [rooms/r1] and
    [rooms/r1/messages/m1], the collection [rooms] has the first only. *)
Lemma getOverlaysForCollection_immediate_children_witness :
  (getOverlaysForCollection memoryRooms ["rooms"] (-1) !! room1
   = Some (Overlay.mk 1 (setTo room1 0))
   ∧ getOverlaysForCollection memoryRooms ["rooms"] (-1) !! message "m1"
     = None)
  ∧ (getOverlaysForCollection indexedDbRooms ["rooms"] (-1) !! room1
     = Some (Overlay.mk 1 (setTo room1 0))
     ∧ getOverlaysForCollection indexedDbRooms ["rooms"] (-1) !! message "m1"
       = None).
Proof.
  destruct getOverlaysForCollection_immediate_children as [Hmemory Hidb].
  split; split.
  - apply (Hmemory memoryRooms ["rooms"] (-1) room1 _ memoryRooms_keyed).
    split; [compute_done|]. split; [|simpl; lia].
    split; reflexivity.
  - apply eq_None_not_Some. intros [o Ho].
    apply (Hmemory memoryRooms ["rooms"] (-1) _ _ memoryRooms_keyed) in Ho
      as (_ & [_ Hlen] & _). simpl in Hlen. lia.
  - apply (Hidb indexedDbRooms ["rooms"] (-1) room1 _ indexedDbRooms_wellFormed).
    split; [compute_done|]. split; [|simpl; lia].
    split; reflexivity.
  - apply eq_None_not_Some. intros [o Ho].
    apply (Hidb indexedDbRooms ["rooms"] (-1) _ _ indexedDbRooms_wellFormed)
      in Ho as (_ & [_ Hlen] & _). simpl in Hlen. lia.
Defined.

(** C2, as amended.  For a count of at least one,
    [getOverlaysForCollectionGroup(g, s, n)] returns exactly the overlays
    whose key is in the collection group [g] and whose largest batch id is
    greater than [s], in whole batch groups by ascending batch id: a group
    is returned when fewer than [n] overlays are in the groups before it.
    The IndexedDb cache does so for every count. *)
Theorem getOverlaysForCollectionGroup_whole_batches :
  (∀ (c : MemoryDocumentOverlayCache.t) collectionGroup sinceBatchId count,
     keyedByMutation (MemoryDocumentOverlayCache.overlays c) →
     1 ≤ count →
     getOverlaysForCollectionGroup c collectionGroup sinceBatchId count
     = wholeBatchGroups (MemoryDocumentOverlayCache.overlays c)
         collectionGroup sinceBatchId count)
  ∧ (∀ (c : IndexedDbDocumentOverlayCache.t) collectionGroup sinceBatchId count,
       storeWellFormed (IndexedDbDocumentOverlayCache.documentOverlayStore c) →
       getOverlaysForCollectionGroup c collectionGroup sinceBatchId count
       = wholeBatchGroups (storedOverlays c)
           collectionGroup sinceBatchId count).
Proof.
  split.
  - intros c g s n Hkeyed Hn.
    by apply memory_getOverlaysForCollectionGroup_groups.
  - intros c g s n Hwf.
    by apply idb_getOverlaysForCollectionGroup_groups.
Qed.

(** Scenario S4, with a count of 3: batches 3 and 4 are returned whole. *)
Lemma getOverlaysForCollectionGroup_whole_batches_witness :
  (getOverlaysForCollectionGroup memoryMessages "messages" 2 3
   = wholeBatchGroups (MemoryDocumentOverlayCache.overlays memoryMessages)
       "messages" 2 3
   ∧ dom (getOverlaysForCollectionGroup memoryMessages "messages" 2 3)
     = {[message "A"; message "B"; message "C"]})
  ∧ (getOverlaysForCollectionGroup indexedDbMessages "messages" 2 3
     = wholeBatchGroups (storedOverlays indexedDbMessages) "messages" 2 3
     ∧ dom (getOverlaysForCollectionGroup indexedDbMessages "messages" 2 3)
       = {[message "A"; message "B"; message "C"]}).
Proof.
  destruct getOverlaysForCollectionGroup_whole_batches as [Hmemory Hidb].
  split; split.
  - apply (Hmemory memoryMessages "messages" 2 3 memoryMessages_keyed). lia.
  - compute_done.
  - apply (Hidb indexedDbMessages "messages" 2 3 indexedDbMessages_wellFormed).
  - compute_done.
Defined.

(** C2 as stated fails for a count of zero: the in-memory cache returns the
    first batch group, where the specification (and the IndexedDb cache, on
    the same overlays) returns nothing. *)
Lemma getOverlaysForCollectionGroup_count_zero :
  MemoryDocumentOverlayCache.overlays memoryMessages
  = storedOverlays indexedDbMessages
  ∧ dom (getOverlaysForCollectionGroup memoryMessages "messages" 2 0)
    = {[message "A"; message "B"]}
  ∧ wholeBatchGroups (MemoryDocumentOverlayCache.overlays memoryMessages)
      "messages" 2 0 = ∅
  ∧ getOverlaysForCollectionGroup indexedDbMessages "messages" 2 0 = ∅
  ∧ getOverlaysForCollectionGroup memoryMessages "messages" 2 0
    ≠ wholeBatchGroups (MemoryDocumentOverlayCache.overlays memoryMessages)
        "messages" 2 0.
Proof.
  repeat split; compute_done.
Qed.

(** C8, as amended.  On the in-memory cache an entry of [saveOverlays]
    whose mutation is absent is skipped: saving it changes nothing, and a
    call behaves as the call on the entries that hold a mutation. *)
Theorem memory_saveOverlays_skips_absent (largestBatchId : Z)
    (overlays : list (DocumentKey * option Mutation))
    (c : MemoryDocumentOverlayCache.t) :
  MemoryDocumentOverlayCache.saveOverlay largestBatchId None c = (Ok tt, c)
  ∧ saveOverlays largestBatchId overlays c
    = saveOverlays largestBatchId (presentMutations overlays) c.
Proof.
  split; [done|]. apply memory_saveOverlays_present.
Qed.

(** C8 as stated fails on the IndexedDb cache: an absent mutation is not
    skipped, the call raises and the entries after it are not saved. *)
Lemma idb_saveOverlays_absent_raises :
  saveOverlays 5 [(alice, None); (bob, Some (setTo bob 1))]
    (IndexedDbDocumentOverlayCache.forUser "u")
  = (Throw TypeError, IndexedDbDocumentOverlayCache.forUser "u")
  ∧ getOverlay
      (after (saveOverlays 5 (presentMutations
                                [(alice, None); (bob, Some (setTo bob 1))]))
         (IndexedDbDocumentOverlayCache.forUser "u")) bob
    = Some (Overlay.mk 5 (setTo bob 1))
  ∧ saveOverlays 5 [(alice, None); (bob, Some (setTo bob 1))]
      (IndexedDbDocumentOverlayCache.forUser "u")
    ≠ saveOverlays 5
        (presentMutations [(alice, None); (bob, Some (setTo bob 1))])
        (IndexedDbDocumentOverlayCache.forUser "u").
Proof.
  repeat split; compute_done.
Qed.

(** C9, as amended.  On an in-memory cache and an IndexedDb cache that
    hold the same overlays, [getOverlaysForCollection] returns the same
    map, and so does [getOverlaysForCollectionGroup] for a count of at
    least one. *)
Theorem caches_agree_on_reads (m : MemoryDocumentOverlayCache.t)
    (i : IndexedDbDocumentOverlayCache.t) :
  keyedByMutation (MemoryDocumentOverlayCache.overlays m) →
  storeWellFormed (IndexedDbDocumentOverlayCache.documentOverlayStore i) →
  (∀ k, getOverlay m k = getOverlay i k) →
  (∀ collection sinceBatchId,
     getOverlaysForCollection m collection sinceBatchId
     = getOverlaysForCollection i collection sinceBatchId)
  ∧ (∀ collectionGroup sinceBatchId count, 1 ≤ count →
       getOverlaysForCollectionGroup m collectionGroup sinceBatchId count
       = getOverlaysForCollectionGroup i collectionGroup sinceBatchId count).
Proof.
  intros Hkeyed Hwf Hsame. split.
  - intros collection sinceBatchId. apply map_eq. intros k.
    apply option_eq. intros o. simpl.
    rewrite memory_getOverlaysForCollection_lookup by done.
    rewrite idb_getOverlaysForCollection_lookup by done.
    pose proof (Hsame k) as Hk. simpl in Hk. by rewrite Hk.
  - intros g s n Hn. simpl.
    rewrite memory_getOverlaysForCollectionGroup_groups by done.
    rewrite idb_getOverlaysForCollectionGroup_groups by done.
    f_equal. apply map_eq. intros k. rewrite storedOverlays_lookup.
    specialize (Hsame k). simpl in Hsame.
    unfold MemoryDocumentOverlayCache.getOverlay, SortedMap.get in Hsame.
    rewrite <- Hsame. by destruct (MemoryDocumentOverlayCache.overlays m !! k).
Qed.

Lemma messages_same_overlays k :
  getOverlay memoryMessages k = getOverlay indexedDbMessages k.
Proof.
  simpl. rewrite <- storedOverlays_lookup.
  unfold MemoryDocumentOverlayCache.getOverlay, SortedMap.get.
  assert (MemoryDocumentOverlayCache.overlays memoryMessages
          = storedOverlays indexedDbMessages) as ->
    by compute_done.
  by destruct (storedOverlays indexedDbMessages !! k).
Qed.

Lemma caches_agree_on_reads_witness :
  getOverlaysForCollection memoryMessages ["rooms"; "r1"; "messages"] 3
  = getOverlaysForCollection indexedDbMessages ["rooms"; "r1"; "messages"] 3
  ∧ getOverlaysForCollectionGroup memoryMessages "messages" 2 4
    = getOverlaysForCollectionGroup indexedDbMessages "messages" 2 4.
Proof.
  destruct (caches_agree_on_reads memoryMessages indexedDbMessages
              memoryMessages_keyed indexedDbMessages_wellFormed
              messages_same_overlays) as [Hcollection Hgroup].
  split; [apply Hcollection|apply Hgroup; lia].
Defined.

(** C9 as stated fails: with a count of zero the in-memory cache returns
    the first batch group and the IndexedDb cache, holding the same
    overlays, returns nothing; and a map with an absent mutation is saved
    without error by the in-memory cache and raises in the IndexedDb
    cache. *)
Lemma caches_differ :
  (∀ k, getOverlay memoryMessages k = getOverlay indexedDbMessages k)
  ∧ getOverlaysForCollectionGroup memoryMessages "messages" 2 0
    ≠ getOverlaysForCollectionGroup indexedDbMessages "messages" 2 0
  ∧ (saveOverlays 5 [(alice, None)] MemoryDocumentOverlayCache.empty).1
    = Ok tt
  ∧ (saveOverlays 5 [(alice, None)]
       (IndexedDbDocumentOverlayCache.forUser "u")).1
    = Throw TypeError.
Proof.
  split; [apply messages_same_overlays|].
  repeat split; compute_done.
Qed.

(** ** The local documents view *)

Section LocalDocumentsViewFacts.
Context {C : Type} `{!DocumentOverlayCache C} `{!MutationModel}.
Import LocalDocumentsView.

Lemma recorded_nil (w : LocalDocumentsView.t (C:=C)) : recorded [] w = w.
Proof. by destruct w. Qed.

Lemma recorded_app cs1 cs2 (w : LocalDocumentsView.t (C:=C)) :
  recorded cs1 (recorded cs2 w) = recorded (cs1 ++ cs2) w.
Proof. unfold recorded; simpl. by rewrite app_assoc. Qed.

Lemma overlayGetOverlay_run k (w : LocalDocumentsView.t (C:=C)) :
  overlayGetOverlay k w
  = (Ok (getOverlay (documentOverlayCache w) k), recorded [OverlayGetOverlay k] w).
Proof. reflexivity. Qed.

Lemma remoteGetEntry_run k (w : LocalDocumentsView.t (C:=C)) :
  remoteGetEntry k w = (Ok (remoteEntry w k), recorded [RemoteGetEntry k] w).
Proof. reflexivity. Qed.

(** C7. [getDocument(k)] reads the overlay of [k]; when there is none or it
    is a patch, the base document is the entry of the remote document cache;
    otherwise it is a fresh invalid document and the remote document cache
    is not called; an overlay that is present is applied to the base with
    the current time. *)
Theorem getDocument_base_document (w : LocalDocumentsView.t (C:=C))
    (k : DocumentKey) :
  match getOverlay (documentOverlayCache w) k with
  | None =>
      getDocument k w
      = (Ok (remoteEntry w k),
         recorded [RemoteGetEntry k; OverlayGetOverlay k] w)
  | Some overlay =>
      if isPatchMutation (Overlay.mutation overlay) then
        getDocument k w
        = (Ok (mutationApplyToLocalView (Overlay.mutation overlay)
                 (remoteEntry w k) (now w)),
           recorded [RemoteGetEntry k; OverlayGetOverlay k] w)
      else
        getDocument k w
        = (Ok (mutationApplyToLocalView (Overlay.mutation overlay)
                 (MutableDocument.newInvalidDocument k) (now w)),
           recorded [OverlayGetOverlay k] w)
  end.
Proof.
  unfold getDocument, getBaseDocument.
  destruct (getOverlay (documentOverlayCache w) k) as [overlay|] eqn:Hov.
  - destruct (isPatchMutation (Overlay.mutation overlay)) eqn:Hpatch;
      cmd_unfold; rewrite overlayGetOverlay_run, Hov; simpl; rewrite Hpatch;
      reflexivity.
  - cmd_unfold. rewrite overlayGetOverlay_run, Hov; reflexivity.
Qed.

(** *** Reading without recalculation *)

Lemma affects_empty (b : MutationBatch) : ¬ affects ∅ b.
Proof. unfold affects. intros Hne. apply Hne. set_solver. Qed.

Lemma recalculateAndSaveOverlays_empty (w : LocalDocumentsView.t (C:=C)) :
  recalculateAndSaveOverlays ∅ w
  = (Ok ∅, recorded [QueueGetAllMutationBatchesAffectingDocumentKeys ∅] w).
Proof.
  unfold recalculateAndSaveOverlays, getAllMutationBatchesAffectingDocumentKeys.
  cmd_unfold. simpl. rewrite dom_empty_L.
  assert (filter (affects ∅) (mutationQueue w) = []) as ->.
  { induction (mutationQueue w) as [|b q IH]; [done|].
    rewrite filter_cons_False; [done|apply affects_empty]. }
  simpl. unfold SortedMap.getReverseIterator, SortedMap.getIterator.
  by rewrite map_to_list_empty.
Qed.

Lemma computeViewsLoop_unchanged entries acc (w : LocalDocumentsView.t (C:=C)) :
  ∃ ds,
    computeViewsLoop ∅ ∅ entries acc w
    = (Ok (ds, acc.2), recorded (overlayReads entries) w).
Proof.
  revert acc w. induction entries as [|e entries IH]; intros acc w; simpl.
  - exists acc.1. cmd_unfold. rewrite recorded_nil. by destruct acc.
  - unfold computeViewsStep. cmd_unfold.
    assert (JsMap.has (∅ : gmap DocumentKey Overlay) (MutableDocument.key e.2)
            = false) as ->.
    { unfold JsMap.has. apply bool_decide_eq_false.
      rewrite lookup_empty. by intros [? ?]. }
    rewrite overlayGetOverlay_run.
    rewrite bool_decide_eq_false_2 by set_solver.
    simpl.
    destruct (getOverlay _ _) as [overlay|]; simpl.
    + edestruct IH as [ds ->]. exists ds. simpl.
      rewrite recorded_app. unfold overlayReads.
      by rewrite fmap_cons, reverse_cons.
    + edestruct IH as [ds ->]. exists ds.
      rewrite recorded_app. unfold overlayReads.
      by rewrite fmap_cons, reverse_cons.
Qed.

Lemma getLocalViewOfDocuments_unchanged ds (w : LocalDocumentsView.t (C:=C)) :
  ∃ views marked w1,
    markedForRecalculation ds ∅ ∅ w = (Ok (marked, ∅), w1)
    ∧ getLocalViewOfDocuments ds ∅ w
      = (Ok views,
         recorded
           (QueueGetAllMutationBatchesAffectingDocumentKeys ∅
              :: overlayReads (SortedMap.getIterator keyComparator ds)) w).
Proof.
  unfold getLocalViewOfDocuments, computeViews, markedForRecalculation.
  destruct (computeViewsLoop_unchanged
              (SortedMap.getIterator keyComparator ds) (ds, ∅) w) as [ds' Hloop].
  eexists _, ds', _. split; [exact Hloop|].
  cmd_unfold. rewrite Hloop. simpl.
  rewrite recalculateAndSaveOverlays_empty. simpl.
  by rewrite recorded_app.
Qed.

(** C10. [getDocuments], and [getLocalViewOfDocuments] with no existence
    state change, mark no document for recalculation: the map handed to
    [recalculateAndSaveOverlays] is empty, the mutation queue is asked for
    the batches of no key, [saveOverlays] is not called, and the overlay
    cache is left as it was. *)
Theorem getDocuments_leaves_overlays (w : LocalDocumentsView.t (C:=C))
    (ks : gset DocumentKey) (ds : gmap DocumentKey MutableDocument) :
  (∃ views marked w1 w',
     markedForRecalculation ds ∅ ∅ w = (Ok (marked, ∅), w1)
     ∧ getLocalViewOfDocuments ds ∅ w = (Ok views, w')
     ∧ documentOverlayCache w' = documentOverlayCache w
     ∧ (∀ b os, OverlaySaveOverlays b os ∈ calls w'
                → OverlaySaveOverlays b os ∈ calls w)
     ∧ (∀ qs, QueueGetAllMutationBatchesAffectingDocumentKeys qs ∈ calls w'
              → qs = ∅
                ∨ QueueGetAllMutationBatchesAffectingDocumentKeys qs ∈ calls w))
  ∧ (∃ views w',
       getDocuments ks w = (Ok views, w')
       ∧ documentOverlayCache w' = documentOverlayCache w
       ∧ (∀ b os, OverlaySaveOverlays b os ∈ calls w'
                  → OverlaySaveOverlays b os ∈ calls w)
       ∧ (∀ qs, QueueGetAllMutationBatchesAffectingDocumentKeys qs ∈ calls w'
                → qs = ∅
                  ∨ QueueGetAllMutationBatchesAffectingDocumentKeys qs ∈ calls w)).
Proof.
  assert (Hreads : ∀ entries c, c ∈ overlayReads entries →
            ∃ k, c = OverlayGetOverlay k).
  { intros entries c. unfold overlayReads.
    rewrite elem_of_reverse, list_elem_of_fmap. naive_solver. }
  split.
  - destruct (getLocalViewOfDocuments_unchanged ds w)
      as (views & marked & w1 & Hmarked & Hrun).
    eexists views, marked, w1, _. split; [exact Hmarked|].
    split; [exact Hrun|]. simpl. split; [done|]. split.
    + intros b os. rewrite elem_of_cons, elem_of_app.
      intros [?|[Hin|?]]; [done| |done].
      apply Hreads in Hin as [k ?]. done.
    + intros qs. rewrite elem_of_cons, elem_of_app.
      intros [[= ->]|[Hin|?]]; [by left| |by right].
      apply Hreads in Hin as [k ?]. done.
  - unfold getDocuments, remoteGetEntries. cmd_unfold. simpl.
    match goal with
    | |- context [getLocalViewOfDocuments ?d ∅ ?w0] =>
        destruct (getLocalViewOfDocuments_unchanged d w0)
          as (views & marked & w1 & Hmarked & Hrun); rewrite Hrun
    end.
    eexists views, _. split; [done|]. simpl. split; [done|]. split.
    + intros b os. rewrite elem_of_cons, elem_of_app, elem_of_cons.
      intros [?|[Hin|[?|?]]]; [done| |done|done].
      apply Hreads in Hin as [k ?]. done.
    + intros qs. rewrite elem_of_cons, elem_of_app, elem_of_cons.
      intros [[= ->]|[Hin|[?|?]]]; [by left| |done|by right].
      apply Hreads in Hin as [k ?]. done.
Qed.

End LocalDocumentsViewFacts.

(** ** Recalculating overlays *)

Section Recalculation.
Import LocalDocumentsView.
Context `{!MutationModel}.

Lemma stageOverlays_spec r ks :
  NoDup ks →
  NoDup (stageOverlays r ks).1.*1
  ∧ (stageOverlays r ks).2 = processed r ∪ list_to_set ks
  ∧ (∀ k m, (k, m) ∈ (stageOverlays r ks).1
            ↔ k ∈ ks ∧ k ∉ processed r ∧ m = stagedMutation r k).
Proof.
  intros Hnd. revert r.
  induction Hnd as [|k ks Hk Hnd IH]; intros r; simpl.
  - split; [constructor|]. split; [set_solver|].
    intros k m. rewrite elem_of_nil. set_solver.
  - destruct (decide (k ∈ processed r)) as [Hin|Hnin].
    + rewrite bool_decide_eq_true_2 by done.
      destruct (IH r) as (Hnd' & Hdone & Hstaged).
      split; [done|]. split; [set_solver|].
      intros k' m. rewrite Hstaged, elem_of_cons. split; [naive_solver|].
      intros [[->|?] [? ?]]; [done|by repeat split].
    + rewrite bool_decide_eq_false_2 by done.
      set (r' := mkRecalculation (docs r) (masks r) (documentsByBatchId r)
                   (processed r ∪ {[k]})).
      destruct (IH r') as (Hnd' & Hdone & Hstaged).
      destruct (stageOverlays r' ks) as [overlays done] eqn:Hstage.
      simpl in *. split; [|split].
      * constructor; [|done].
        intros ([k' m'] & -> & Hin')%list_elem_of_fmap.
        apply Hstaged in Hin' as (? & ? & _). simpl in *. set_solver.
      * rewrite Hdone. set_solver.
      * intros k' m. rewrite elem_of_cons, Hstaged, elem_of_cons.
        unfold stagedMutation. simpl. split.
        -- intros [[= -> ->]|(? & Hnin' & ->)].
           ++ split; [by left|done].
           ++ split; [by right|]. split; [set_solver|done].
        -- intros [[->|Hin] [? ->]]; [by left|].
           right. split; [done|]. split; [|done].
           assert (k' ≠ k) by (intros ->; done). set_solver.
Qed.

(** *** The first pass: the keys of each batch, by batch id *)

Lemma applyBatchToKey_Ok batch k r r' :
  applyBatchToKey batch k r = (Ok tt, r') →
  ∃ d, docs r !! k = Some d
       ∧ docs r' = <[k := (applyToLocalViewWithFieldMask batch d
                             (default (Some []) (masks r !! k))).1]> (docs r)
       ∧ processed r' = processed r
       ∧ (∀ b k', recordedFor r' b k'
                  ↔ recordedFor r b k'
                    ∨ (b = MutationBatch.batchId batch ∧ k' = k)).
Proof.
  unfold applyBatchToKey.
  destruct (docs r !! k) as [d|] eqn:Hd; [|done].
  replace (match masks r !! k with Some mask => mask | None => Some [] end)
    with (default (Some []) (masks r !! k)) by (by destruct (masks r !! k)).
  destruct (applyToLocalViewWithFieldMask batch d _) as [d' mask'] eqn:Happly.
  intros [= <-]. exists d. split; [done|]. simpl.
  split; [by rewrite Happly|]. split; [done|].
  intros b k'. unfold recordedFor. simpl.
  unfold SortedMap.get.
  destruct (decide (b = MutationBatch.batchId batch)) as [->|Hb].
  - rewrite lookup_alter_eq.
    destruct (documentsByBatchId r !! MutationBatch.batchId batch)
      as [ks|] eqn:Hks; simpl.
    + rewrite Hks. simpl. split.
      * intros (ks' & [= <-] & [?|Hk%elem_of_singleton]%elem_of_union);
          [left; eauto|right; by subst].
      * intros [(ks' & [= <-] & ?)|[_ ->]]; eexists; split; try done;
          set_solver.
    + rewrite lookup_insert_eq. simpl. split.
      * intros (ks' & [= <-] & ?). right. set_solver.
      * intros [(ks' & ? & _)|[_ ->]]; [done|].
        eexists; split; [done|]. set_solver.
  - rewrite lookup_alter_ne by done.
    destruct (documentsByBatchId r !! MutationBatch.batchId batch); simpl.
    + naive_solver.
    + rewrite lookup_insert_ne by done. naive_solver.
Qed.

Context (Hkeeps : keepsKeys).

Lemma forEach_applyBatchToKey batch ks r r' :
  forEach (applyBatchToKey batch) ks r = (Ok tt, r') →
  keyedDocuments (docs r) →
  keyedDocuments (docs r')
  ∧ processed r' = processed r
  ∧ dom (docs r') = dom (docs r)
  ∧ (∀ k, k ∈ ks → k ∈ dom (docs r))
  ∧ (∀ b k, recordedFor r' b k
            ↔ recordedFor r b k ∨ (b = MutationBatch.batchId batch ∧ k ∈ ks)).
Proof.
  revert r. induction ks as [|k ks IH]; intros r Hrun Hkeyed.
  - injection Hrun as <-. split; [done|]. split; [done|]. split; [done|].
    split; [by intros k ?%elem_of_nil|].
    intros b k. rewrite elem_of_nil. naive_solver.
  - rewrite forEach_cons in Hrun.
    destruct (applyBatchToKey batch k r) as [[[]|e] r1] eqn:Hstep; [|done].
    apply applyBatchToKey_Ok in Hstep as (d & Hd & Hdocs & Hproc & Hrec).
    assert (keyedDocuments (docs r1)) as Hkeyed1.
    { intros k' d'. rewrite Hdocs.
      destruct (decide (k' = k)) as [->|Hne].
      - rewrite lookup_insert_eq. intros [= <-].
        rewrite (proj1 Hkeeps). by apply Hkeyed.
      - rewrite lookup_insert_ne by done. apply Hkeyed. }
    assert (dom (docs r1) = dom (docs r)) as Hdom1.
    { rewrite Hdocs, dom_insert_L.
      assert (k ∈ dom (docs r)) by (apply elem_of_dom; by eexists).
      set_solver. }
    destruct (IH r1 Hrun Hkeyed1) as (Hkeyed' & Hproc' & Hdom' & Hin' & Hrec').
    split; [done|]. split; [congruence|]. split; [congruence|]. split.
    + intros k' [->|Hin]%elem_of_cons.
      * apply elem_of_dom; by eexists.
      * rewrite <- Hdom1. by apply Hin'.
    + intros b k'. rewrite Hrec', Hrec, elem_of_cons. naive_solver.
Qed.

Lemma applyBatches_Ok batches r r' :
  applyBatches batches r = (Ok tt, r') →
  keyedDocuments (docs r) →
  keyedDocuments (docs r')
  ∧ processed r' = processed r
  ∧ dom (docs r') = dom (docs r)
  ∧ (∀ batch, batch ∈ batches → MutationBatch.keys batch ⊆ dom (docs r))
  ∧ (∀ b k, recordedFor r' b k
            ↔ recordedFor r b k
              ∨ ∃ batch, batch ∈ batches ∧ b = MutationBatch.batchId batch
                         ∧ k ∈ MutationBatch.keys batch).
Proof.
  unfold applyBatches. revert r.
  induction batches as [|batch batches IH]; intros r Hrun Hkeyed.
  - injection Hrun as <-. split; [done|]. split; [done|]. split; [done|].
    split; [by intros batch ?%elem_of_nil|].
    intros b k. setoid_rewrite elem_of_nil. naive_solver.
  - rewrite forEach_cons in Hrun.
    destruct (forEach (applyBatchToKey batch)
                (elements (MutationBatch.keys batch)) r)
      as [[[]|e] r1] eqn:Hstep; [|done].
    apply forEach_applyBatchToKey in Hstep
      as (Hkeyed1 & Hproc1 & Hdom1 & Hin1 & Hrec1); [|done].
    destruct (IH r1 Hrun Hkeyed1) as (Hkeyed' & Hproc' & Hdom' & Hin' & Hrec').
    split; [done|]. split; [congruence|]. split; [congruence|]. split.
    + intros batch' [->|Hin]%elem_of_cons.
      * intros k Hk. apply Hin1. by apply elem_of_elements.
      * rewrite <- Hdom1. by apply Hin'.
    + intros b k. rewrite Hrec', Hrec1. setoid_rewrite elem_of_cons.
      setoid_rewrite elem_of_elements. naive_solver.
Qed.

(** *** The second pass: saving by descending batch id *)

Notation view := (LocalDocumentsView.t (C := IndexedDbDocumentOverlayCache.t)).

Lemma overlaySaveOverlays_run b overlays (w : view) :
  overlaySaveOverlays b overlays w
  = ((IndexedDbDocumentOverlayCache.saveOverlays b overlays
        (documentOverlayCache w)).1,
     mk (remoteDocumentCache w) (mutationQueue w)
        (IndexedDbDocumentOverlayCache.saveOverlays b overlays
           (documentOverlayCache w)).2
        (now w) (OverlaySaveOverlays b overlays :: calls w)).
Proof.
  unfold overlaySaveOverlays, record, onOverlayCache. cmd_unfold. simpl.
  by destruct (IndexedDbDocumentOverlayCache.saveOverlays b overlays
                 (documentOverlayCache w)).
Qed.

(** What the loop leaves for a key: the overlay of the first entry that holds
    the key, unless the key was saved before the loop. *)
Lemma saveLoop_Ok r iter (w w' : view) :
  saveLoop r iter w = (Ok tt, w') →
  keyedDocuments (docs r) →
  (∀ e k, e ∈ iter → k ∈ e.2 → k ∈ dom (docs r)) →
  mutationQueue w' = mutationQueue w
  ∧ (∀ k, k ∈ processed r ∨ (∀ e, e ∈ iter → k ∉ e.2) →
          IndexedDbDocumentOverlayCache.getOverlay (documentOverlayCache w') k
          = IndexedDbDocumentOverlayCache.getOverlay (documentOverlayCache w) k)
  ∧ (∀ k before e later,
       k ∉ processed r → iter = before ++ e :: later →
       (∀ e', e' ∈ before → k ∉ e'.2) → k ∈ e.2 →
       ∃ m, IndexedDbDocumentOverlayCache.getOverlay (documentOverlayCache w') k
            = Some (Overlay.mk e.1 m)).
Proof.
  revert r w. induction iter as [|entry iter IH]; intros r w Hrun Hkeyed Hdom.
  - injection Hrun as <-. split; [done|]. split; [done|].
    intros k before e later _ Hiter. by destruct before.
  - simpl in Hrun.
    destruct (stageOverlays_spec r (elements entry.2) (NoDup_elements _))
      as (Hnd & Hdone & Hstaged).
    destruct (stageOverlays r (elements entry.2)) as [overlays done] eqn:Hst.
    simpl in Hnd, Hdone, Hstaged.
    cmd_unfold. rewrite overlaySaveOverlays_run in Hrun.
    destruct (IndexedDbDocumentOverlayCache.saveOverlays entry.1 overlays
                (documentOverlayCache w)) as [[[]|err] c1] eqn:Hsave;
      [|done].
    simpl in Hrun.
    assert (∀ k m, (k, Some m) ∈ overlays → key m = k) as Hcarried.
    { intros k m (Hin & _ & Hm)%Hstaged. unfold stagedMutation in Hm.
      destruct (docs r !! k) as [d|] eqn:Hd; [|done].
      symmetry in Hm. apply (proj2 Hkeeps) in Hm. rewrite Hm.
      by apply Hkeyed. }
    destruct (idb_saveOverlays_Ok _ _ _ _ Hsave Hnd Hcarried)
      as (_ & Hpresent & Hsaved & Hother).
    apply IH in Hrun as (Hqueue & Hframe & Hfirst); simpl; [|done|].
    2:{ intros e k ? ?. apply (Hdom e k); [by right|done]. }
    simpl in *.
    assert (∀ k, k ∈ processed r ∨ k ∉ entry.2 →
              IndexedDbDocumentOverlayCache.getOverlay c1 k
              = IndexedDbDocumentOverlayCache.getOverlay
                  (documentOverlayCache w) k) as Hskip.
    { intros k Hk. apply Hother.
      intros ([k' m] & -> & (Hin & Hnin & _)%Hstaged)%list_elem_of_fmap.
      simpl in *. apply elem_of_elements in Hin. naive_solver. }
    split; [done|]. split.
    + intros k [Hk|Hk].
      * rewrite Hframe by (left; set_solver). apply Hskip. by left.
      * rewrite Hframe.
        -- apply Hskip. right. apply Hk. by left.
        -- destruct (decide (k ∈ done)); [by left|right].
           intros e ?. apply Hk. by right.
    + intros k before e later Hk Hiter Hbefore He.
      destruct before as [|e0 before]; simpl in Hiter.
      * injection Hiter as <- <-.
        rewrite Hframe by (left; set_solver).
        assert ((k, stagedMutation r k) ∈ overlays) as Hin.
        { apply Hstaged. by rewrite elem_of_elements. }
        destruct (Hpresent _ Hin) as [m Hm]. simpl in Hm.
        rewrite Hm in Hin. exists m. by apply Hsaved.
      * injection Hiter as <- ->.
        apply (Hfirst k before e later); [|done| |done].
        -- rewrite Hdone. intros [?|Hin]%elem_of_union; [done|].
           apply elem_of_list_to_set, elem_of_elements in Hin.
           apply (Hbefore entry); [by left|done].
        -- intros e' ?. apply Hbefore. by right.
Qed.


Lemma elem_of_getReverseIterator (m : gmap Z (gset DocumentKey)) e :
  e ∈ SortedMap.getReverseIterator numberComparator m ↔ m !! e.1 = Some e.2.
Proof.
  unfold SortedMap.getReverseIterator. rewrite elem_of_reverse.
  destruct e as [b ks]. apply (elem_of_getIterator numberComparator).
Qed.



End Recalculation.

Lemma sampleApply_key m d time :
  MutableDocument.key (sampleApply m d time) = MutableDocument.key d.
Proof.
  unfold sampleApply. destruct (mutationType m); try done.
  by destruct (MutableDocument.isFoundDocument d).
Qed.

Lemma sampleMutationModel_keepsKeys : keepsKeys (H := sampleMutationModel).
Proof.
  split.
  - intros batch d mask. simpl. unfold sampleApplyBatch.
    generalize (MutationBatch.mutations batch). intros ms.
    assert (∀ acc : MutableDocument * option FieldMask,
              MutableDocument.key
                (foldl (λ acc m,
                          if decide (key m = MutableDocument.key d)
                          then (sampleApply m acc.1 0,
                                match mutationType m, acc.2 with
                                | PatchMutation, Some fs =>
                                    Some (fs ++ ((λ f, [f.1]) <$> fields m))
                                | _, _ => None
                                end)
                          else acc) acc ms).1
              = MutableDocument.key acc.1) as Hfold.
    { induction ms as [|m ms IH]; intros acc; [done|]. simpl.
      rewrite IH. destruct (decide (key m = MutableDocument.key d)); [|done].
      apply sampleApply_key. }
    apply Hfold.
  - intros d mask m. simpl. unfold sampleOverlayMutation.
    destruct mask as [[|f fs]|]; [done| |]; intros [= <-]; [done|].
    by destruct (MutableDocument.isFoundDocument d).
Qed.



(** ** The states of the in-memory cache *)

Section MemoryCacheStates.
Import MemoryDocumentOverlayCache.

Lemma removeOverlaysForBatchId_no_bucket b c :
  overlayByBatchId c !! b = None → removeOverlaysForBatchId b c = (Ok tt, c).
Proof.
  intros Hb. unfold removeOverlaysForBatchId. cmd_unfold. unfold JsMap.has.
  simpl. rewrite Hb. by rewrite bool_decide_eq_false_2 by (by intros [? ?]).
Qed.

Lemma memoryReachable_invariant c :
  memoryReachable c → overlayByBatchId c = ∅ ∧ keyedByMutation (overlays c).
Proof.
  induction 1 as [|b entries c _ [Hidx Hkeyed]|b c _ [Hidx Hkeyed]].
  - split; [done|apply keyedByMutation_empty].
  - split; [by apply saveOverlays_index_empty|by apply saveOverlays_keyed].
  - unfold after. rewrite removeOverlaysForBatchId_no_bucket; [done|].
    by rewrite Hidx, lookup_empty.
Qed.

Lemma saveOverlay_outcome b m c :
  overlayByBatchId c = ∅ →
  saveOverlay b (Some m) c
  = (Throw TypeError,
     match overlays c !! key m with
     | Some _ => c
     | None => mk (<[key m := Overlay.mk b m]> (overlays c)) (overlayByBatchId c)
     end).
Proof.
  intros Hidx. unfold saveOverlay. cmd_unfold.
  unfold SortedMap.get, JsMap.get.
  destruct (overlays c !! key m) as [ex|] eqn:Hex; simpl;
    rewrite Hidx, lookup_empty; simpl; rewrite ?Hidx, ?lookup_empty;
    [done|].
  unfold set_overlays. simpl. by rewrite Hidx.
Qed.

(** In every state that the in-memory cache reaches from the empty cache,
    the inverted index has no bucket; so [removeOverlaysForBatchId] removes
    nothing, whatever the batch id, and each overlay read back is held under
    the key of its mutation. *)
Theorem memory_index_never_built c :
  memoryReachable c →
  overlayByBatchId c = ∅
  ∧ (∀ b, removeOverlaysForBatchId b c = (Ok tt, c))
  ∧ (∀ k o, getOverlay c k = Some o → Overlay.getKey o = k).
Proof.
  intros [Hidx Hkeyed]%memoryReachable_invariant. split; [done|]. split.
  - intros b. apply removeOverlaysForBatchId_no_bucket.
    by rewrite Hidx, lookup_empty.
  - intros k o. unfold getOverlay, SortedMap.get.
    destruct (overlays c !! k) as [o'|] eqn:Hk; [|done].
    intros [= <-]. by apply Hkeyed.
Qed.

Lemma memory_index_never_built_witness :
  overlayByBatchId (after (saveOverlays 5 [(alice, Some (setTo alice 31))]) empty)
  = ∅
  ∧ (∀ b, removeOverlaysForBatchId b
            (after (saveOverlays 5 [(alice, Some (setTo alice 31))]) empty)
          = (Ok tt, after (saveOverlays 5 [(alice, Some (setTo alice 31))]) empty))
  ∧ (∀ k o, getOverlay
              (after (saveOverlays 5 [(alice, Some (setTo alice 31))]) empty) k
            = Some o → Overlay.getKey o = k).
Proof.
  apply memory_index_never_built.
  apply memoryReachable_saveOverlays, memoryReachable_empty.
Defined.

(** On every state that the in-memory cache reaches, [saveOverlays] returns
    only when every mutation is null, and then changes nothing; otherwise it
    raises a [TypeError] at the first mutation that is not null, whose overlay
    is by then in the forward map if its key had none, and no later entry is
    saved. *)
Theorem memory_saveOverlays_outcome b entries c :
  memoryReachable c →
  saveOverlays b entries c
  = match omap snd entries with
    | [] => (Ok tt, c)
    | m :: _ =>
        (Throw TypeError,
         match getOverlay c (key m) with
         | Some _ => c
         | None => mk (<[key m := Overlay.mk b m]> (overlays c)) ∅
         end)
    end.
Proof.
  intros [Hidx _]%memoryReachable_invariant. unfold saveOverlays.
  induction entries as [|[k [m|]] entries IH]; [done| |].
  - rewrite forEach_cons. cbn [snd]. rewrite saveOverlay_outcome by done.
    simpl. unfold getOverlay, SortedMap.get. rewrite Hidx.
    by destruct (overlays c !! key m).
  - rewrite forEach_cons. simpl. apply IH.
Qed.

Lemma memory_saveOverlays_outcome_witness :
  saveOverlays 7 [(bob, None); (alice, Some (setTo alice 32)); (bob, Some (setTo bob 1))]
    (after (saveOverlays 5 [(alice, Some (setTo alice 31))]) empty)
  = (Throw TypeError, after (saveOverlays 5 [(alice, Some (setTo alice 31))]) empty).
Proof.
  rewrite memory_saveOverlays_outcome.
  - reflexivity.
  - apply memoryReachable_saveOverlays, memoryReachable_empty.
Defined.

(** [removeOverlaysForBatchId(b)] always returns.  With no bucket for [b] it
    changes nothing; otherwise it drops the bucket and removes the overlays of
    exactly the keys the bucket lists, whatever their largest batch id. *)
Theorem memory_removeOverlaysForBatchId_exact b c :
  (removeOverlaysForBatchId b c).1 = Ok tt
  ∧ overlayByBatchId (after (removeOverlaysForBatchId b) c)
    = delete b (overlayByBatchId c)
  ∧ (∀ k, getOverlay (after (removeOverlaysForBatchId b) c) k
          = match overlayByBatchId c !! b with
            | Some ks => if decide (k ∈ ks) then None else getOverlay c k
            | None => getOverlay c k
            end)
  ∧ (overlayByBatchId c !! b = None →
     after (removeOverlaysForBatchId b) c = c).
Proof.
  split; [|split; [|split]].
  - apply (memory_removeOverlaysForBatchId_lookup b c alice).
  - unfold after, removeOverlaysForBatchId. cmd_unfold.
    unfold JsMap.has, JsMap.get. simpl.
    destruct (overlayByBatchId c !! b) as [ks|] eqn:Hb; simpl;
      rewrite ?Hb; simpl.
    + by rewrite forEach_delete_overlays.
    + by rewrite delete_id.
  - intros k. apply memory_removeOverlaysForBatchId_lookup.
  - intros Hb. unfold after.
    by rewrite removeOverlaysForBatchId_no_bucket.
Qed.

End MemoryCacheStates.

(** ** Whole batch groups and the count *)

Section WholeBatchGroups.
Context (all : gmap DocumentKey Overlay) (g : string) (s : Z).

Lemma wholeBatchGroups_lookup n k o :
  wholeBatchGroups all g s n !! k = Some o
  ↔ all !! k = Some o ∧ inGroupSince g s (k, o)
    ∧ Z.of_nat (collectedBefore all g s (Overlay.largestBatchId o)) < n.
Proof. unfold wholeBatchGroups. rewrite map_lookup_filter_Some. naive_solver. Qed.

Lemma wholeBatchGroups_mono n n' :
  n ≤ n' → wholeBatchGroups all g s n ⊆ wholeBatchGroups all g s n'.
Proof.
  intros Hle. apply map_subseteq_spec. intros k o.
  rewrite !wholeBatchGroups_lookup. intros (? & ? & ?).
  split; [done|]. split; [done|lia].
Qed.

Lemma collectedBefore_first b :
  collectedBefore all g s b = 0%nat
  ↔ ∀ k o, all !! k = Some o → inGroupSince g s (k, o) →
           b ≤ Overlay.largestBatchId o.
Proof.
  unfold collectedBefore. rewrite map_size_empty_iff. split.
  - intros Hempty k o Hk HG.
    destruct (decide (Overlay.largestBatchId o < b)) as [Hlt|]; [|lia].
    assert (groupsBelow all g s b !! k = Some o) as Hin
      by (by apply groupsBelow_lookup).
    by rewrite Hempty, lookup_empty in Hin.
  - intros Hmin. apply map_empty. intros k. apply eq_None_not_Some.
    intros [o (Hk & HG & Hb)%groupsBelow_lookup].
    specialize (Hmin k o Hk HG). lia.
Qed.

Lemma groupsBelow_enough n b :
  n ≤ Z.of_nat (collectedBefore all g s b) →
  n ≤ Z.of_nat (size (wholeBatchGroups all g s n)).
Proof.
  remember (collectedBefore all g s b) as m eqn:Hm. revert b Hm.
  induction (lt_wf m) as [m _ IH]. intros b -> Hn.
  destruct (decide (map_Forall
              (λ _ o, Z.of_nat (collectedBefore all g s
                                  (Overlay.largestBatchId o)) < n)
              (groupsBelow all g s b))) as [Hall|Hsome].
  - assert (groupsBelow all g s b ⊆ wholeBatchGroups all g s n) as Hsub.
    { apply map_subseteq_spec. intros k o Hk.
      pose proof (Hall k o Hk) as Hlt. simpl in Hlt.
      apply groupsBelow_lookup in Hk as (Hk & HG & _).
      by apply wholeBatchGroups_lookup. }
    apply map_subseteq_size in Hsub. unfold collectedBefore in Hn. lia.
  - apply map_not_Forall in Hsome as (k & o & Hk & Hge); [|apply _].
    apply groupsBelow_lookup in Hk as (Hk & HG & Hb).
    eapply (IH (collectedBefore all g s (Overlay.largestBatchId o)));
      [|reflexivity|lia].
    unfold collectedBefore. apply map_subset_size. split.
    + apply map_subseteq_spec. intros k1 o1.
      rewrite !groupsBelow_lookup. intros (? & ? & ?).
      split; [done|]. split; [done|lia].
    + intros Hsub.
      assert (groupsBelow all g s b !! k = Some o) as Hin
        by (by apply groupsBelow_lookup).
      eapply lookup_weaken in Hin; [|exact Hsub].
      apply groupsBelow_lookup in Hin as (_ & _ & ?). lia.
Qed.

Lemma wholeBatchGroups_enough n :
  n ≤ Z.of_nat (size (wholeBatchGroups all g s n))
  ∨ (∀ k o, all !! k = Some o → inGroupSince g s (k, o) →
            wholeBatchGroups all g s n !! k = Some o).
Proof.
  destruct (decide (map_Forall
              (λ k o, inGroupSince g s (k, o) →
                      Z.of_nat (collectedBefore all g s
                                  (Overlay.largestBatchId o)) < n)
              all)) as [Hall|Hsome].
  - right. intros k o Hk HG. apply wholeBatchGroups_lookup.
    split; [done|]. split; [done|]. by apply (Hall k o).
  - left. apply map_not_Forall in Hsome as (k & o & Hk & Hge); [|apply _].
    apply (groupsBelow_enough n (Overlay.largestBatchId o)).
    destruct (decide (inGroupSince g s (k, o))) as [HG|HG]; [|tauto].
    destruct (decide (Z.of_nat (collectedBefore all g s
                                  (Overlay.largestBatchId o)) < n));
      [tauto|lia].
Qed.

End WholeBatchGroups.

Section MemoryGroups.
Import MemoryDocumentOverlayCache.

Lemma batchLoop_small_count n (iter : list (Z * gmap DocumentKey Overlay)) :
  n ≤ 1 → (∀ e, e ∈ iter → e.2 ≠ ∅) →
  batchLoop n iter ∅ = batchLoop 1 iter ∅.
Proof.
  intros Hn Hne. destruct iter as [|e iter]; [done|]. simpl.
  rewrite foldl_insert_map_to_list, (right_id_L ∅ (∪)).
  assert (size e.2 ≠ 0%nat) as Hsize.
  { rewrite map_size_empty_iff. apply Hne. by left. }
  rewrite !bool_decide_eq_true_2 by lia. done.
Qed.

(** For any count, the in-memory cache returns the whole batch groups of a
    count of at least one. *)
Lemma memory_getOverlaysForCollectionGroup_any_count c g s n :
  keyedByMutation (overlays c) →
  getOverlaysForCollectionGroup c g s n
  = wholeBatchGroups (overlays c) g s (Z.max n 1).
Proof.
  intros Hkeyed. destruct (decide (1 ≤ n)) as [Hn|Hn].
  - rewrite Z.max_l by done.
    by apply memory_getOverlaysForCollectionGroup_groups.
  - rewrite Z.max_r by lia.
    rewrite <- (memory_getOverlaysForCollectionGroup_groups c g s 1)
      by done.
    unfold getOverlaysForCollectionGroup.
    apply batchLoop_small_count; [lia|].
    intros [b m] Hin%(elem_of_getIterator numberComparator). simpl.
    rewrite (groupLoop_buckets (overlays c) g s Hkeyed) in Hin.
    by destruct (decide (batchGroup (overlays c) g s b = ∅));
      simplify_eq.
Qed.

(** With a count of one or less, zero and negative counts included, the
    in-memory cache returns the first batch group: the overlays of the
    group past [s] whose largest batch id is the least there is. *)
Theorem memory_getOverlaysForCollectionGroup_small_count c g s n k o :
  keyedByMutation (overlays c) → n ≤ 1 →
  getOverlaysForCollectionGroup c g s n !! k = Some o
  ↔ getOverlay c k = Some o
    ∧ getCollectionGroup k = Some g ∧ s < Overlay.largestBatchId o
    ∧ (∀ k' o', getOverlay c k' = Some o' →
                getCollectionGroup k' = Some g → s < Overlay.largestBatchId o' →
                Overlay.largestBatchId o ≤ Overlay.largestBatchId o').
Proof.
  intros Hkeyed Hn.
  rewrite memory_getOverlaysForCollectionGroup_any_count by done.
  rewrite Z.max_r by lia. rewrite wholeBatchGroups_lookup.
  assert (∀ k1 o1, getOverlay c k1 = Some o1 ↔ overlays c !! k1 = Some o1)
    as Hget.
  { intros k1 o1. unfold getOverlay, SortedMap.get.
    destruct (overlays c !! k1); naive_solver. }
  assert (Z.of_nat (collectedBefore (overlays c) g s (Overlay.largestBatchId o))
          < 1
          ↔ collectedBefore (overlays c) g s (Overlay.largestBatchId o) = 0%nat)
    as -> by lia.
  rewrite collectedBefore_first. unfold inGroupSince. simpl.
  setoid_rewrite Hget. naive_solver.
Qed.

Lemma memory_getOverlaysForCollectionGroup_small_count_witness :
  getOverlay memoryMessages (message "A")
  = Some (Overlay.mk 3 (setTo (message "A") 0))
  ∧ getCollectionGroup (message "A") = Some "messages"
  ∧ 2 < 3
  ∧ (∀ k' o', getOverlay memoryMessages k' = Some o' →
              getCollectionGroup k' = Some "messages" →
              2 < Overlay.largestBatchId o' →
              3 ≤ Overlay.largestBatchId o').
Proof.
  apply (proj1 (memory_getOverlaysForCollectionGroup_small_count
                  memoryMessages "messages" 2 0 (message "A")
                  (Overlay.mk 3 (setTo (message "A") 0))
                  memoryMessages_keyed ltac:(lia))).
  compute_done.
Defined.

End MemoryGroups.

Section GroupCounts.

Lemma memory_getOverlay_lookup (c : MemoryDocumentOverlayCache.t) k :
  MemoryDocumentOverlayCache.getOverlay c k
  = MemoryDocumentOverlayCache.overlays c !! k.
Proof.
  unfold MemoryDocumentOverlayCache.getOverlay, SortedMap.get.
  by destruct (MemoryDocumentOverlayCache.overlays c !! k).
Qed.

(** [getOverlaysForCollectionGroup(g, s, n)] returns at least [n] overlays,
    unless the group has fewer past [s], in which case it returns them all;
    on the in-memory cache and on the IndexedDb cache, for every count. *)
Theorem getOverlaysForCollectionGroup_at_least_count :
  (∀ (c : MemoryDocumentOverlayCache.t) g s n,
     keyedByMutation (MemoryDocumentOverlayCache.overlays c) →
     n ≤ Z.of_nat (size (getOverlaysForCollectionGroup c g s n))
     ∨ (∀ k o, getOverlay c k = Some o → getCollectionGroup k = Some g →
               s < Overlay.largestBatchId o →
               getOverlaysForCollectionGroup c g s n !! k = Some o))
  ∧ (∀ (c : IndexedDbDocumentOverlayCache.t) g s n,
       storeWellFormed (IndexedDbDocumentOverlayCache.documentOverlayStore c) →
       n ≤ Z.of_nat (size (getOverlaysForCollectionGroup c g s n))
       ∨ (∀ k o, getOverlay c k = Some o → getCollectionGroup k = Some g →
                 s < Overlay.largestBatchId o →
                 getOverlaysForCollectionGroup c g s n !! k = Some o)).
Proof.
  split.
  - intros c g s n Hkeyed. simpl.
    rewrite memory_getOverlaysForCollectionGroup_any_count by done.
    destruct (wholeBatchGroups_enough
                (MemoryDocumentOverlayCache.overlays c) g s (Z.max n 1))
      as [Hsize|Hall]; [left; lia|right].
    intros k o Hk Hg Hs. apply Hall; [|done].
    by rewrite <- memory_getOverlay_lookup.
  - intros c g s n Hwf. simpl.
    rewrite idb_getOverlaysForCollectionGroup_groups by done.
    destruct (wholeBatchGroups_enough (storedOverlays c) g s n)
      as [Hsize|Hall]; [by left|right].
    intros k o Hk Hg Hs. apply Hall; [|done].
    by rewrite storedOverlays_lookup.
Qed.

Lemma getOverlaysForCollectionGroup_at_least_count_witness :
  (2 ≤ Z.of_nat (size (getOverlaysForCollectionGroup memoryMessages
                         "messages" 2 2))
   ∨ (∀ k o, getOverlay memoryMessages k = Some o →
             getCollectionGroup k = Some "messages" →
             2 < Overlay.largestBatchId o →
             getOverlaysForCollectionGroup memoryMessages "messages" 2 2 !! k
             = Some o))
  ∧ (2 ≤ Z.of_nat (size (getOverlaysForCollectionGroup indexedDbMessages
                           "messages" 2 2))
     ∨ (∀ k o, getOverlay indexedDbMessages k = Some o →
               getCollectionGroup k = Some "messages" →
               2 < Overlay.largestBatchId o →
               getOverlaysForCollectionGroup indexedDbMessages "messages" 2 2
               !! k = Some o)).
Proof.
  split.
  - apply (proj1 getOverlaysForCollectionGroup_at_least_count
             memoryMessages "messages" 2 2 memoryMessages_keyed).
  - apply (proj2 getOverlaysForCollectionGroup_at_least_count
             indexedDbMessages "messages" 2 2 indexedDbMessages_wellFormed).
Defined.

(** A larger count never returns less: the result for [n] is contained in
    the result for any [n'] from [n] up, on both caches. *)
Theorem getOverlaysForCollectionGroup_monotone :
  (∀ (c : MemoryDocumentOverlayCache.t) g s n n',
     keyedByMutation (MemoryDocumentOverlayCache.overlays c) → n ≤ n' →
     getOverlaysForCollectionGroup c g s n
     ⊆ getOverlaysForCollectionGroup c g s n')
  ∧ (∀ (c : IndexedDbDocumentOverlayCache.t) g s n n',
       storeWellFormed (IndexedDbDocumentOverlayCache.documentOverlayStore c) →
       n ≤ n' →
       getOverlaysForCollectionGroup c g s n
       ⊆ getOverlaysForCollectionGroup c g s n').
Proof.
  split.
  - intros c g s n n' Hkeyed Hn. simpl.
    rewrite !memory_getOverlaysForCollectionGroup_any_count by done.
    apply wholeBatchGroups_mono. lia.
  - intros c g s n n' Hwf Hn. simpl.
    rewrite !idb_getOverlaysForCollectionGroup_groups by done.
    by apply wholeBatchGroups_mono.
Qed.

Lemma getOverlaysForCollectionGroup_monotone_witness :
  getOverlaysForCollectionGroup memoryMessages "messages" 2 1
  ⊆ getOverlaysForCollectionGroup memoryMessages "messages" 2 4
  ∧ getOverlaysForCollectionGroup indexedDbMessages "messages" 2 1
    ⊆ getOverlaysForCollectionGroup indexedDbMessages "messages" 2 4.
Proof.
  split.
  - apply (proj1 getOverlaysForCollectionGroup_monotone
             memoryMessages "messages" 2 1 4 memoryMessages_keyed).
    lia.
  - apply (proj2 getOverlaysForCollectionGroup_monotone
             indexedDbMessages "messages" 2 1 4 indexedDbMessages_wellFormed).
    lia.
Defined.

(** With a count of zero or less the IndexedDb cache returns no overlay,
    whatever the store holds: the scan stops at its first record. *)
Theorem idb_getOverlaysForCollectionGroup_no_count
    (c : IndexedDbDocumentOverlayCache.t) g s n :
  n ≤ 0 →
  IndexedDbDocumentOverlayCache.getOverlaysForCollectionGroup c g s n = ∅.
Proof.
  intros Hn.
  unfold IndexedDbDocumentOverlayCache.getOverlaysForCollectionGroup,
    SimpleDbStore.iterate.
  destruct (SimpleDbStore.cursor _ _ _ _) as [|row rows]; [done|].
  cbn [SimpleDbStore.iterateLoop].
  unfold IndexedDbDocumentOverlayCache.groupCallback.
  cbn [IndexedDbDocumentOverlayCache.currentCount
       IndexedDbDocumentOverlayCache.currentBatchId].
  rewrite (bool_decide_eq_false_2 (0 < n)) by lia.
  by rewrite bool_decide_eq_false_2 by done.
Qed.

Lemma idb_getOverlaysForCollectionGroup_no_count_witness :
  IndexedDbDocumentOverlayCache.getOverlaysForCollectionGroup
    indexedDbMessages "messages" 2 0 = ∅.
Proof.
  apply idb_getOverlaysForCollectionGroup_no_count. lia.
Defined.

End GroupCounts.

(** ** The states of the IndexedDb cache *)

Section IndexedDbCacheStates.
Import IndexedDbDocumentOverlayCache.

Lemma idb_saveOverlays_cons_present b k m entries c :
  saveOverlays b ((k, Some m) :: entries) c
  = saveOverlays b entries (after (saveOverlay b (Some m)) c).
Proof.
  unfold saveOverlays, after. rewrite forEach_cons. cbn [snd].
  by rewrite idb_saveOverlay_run.
Qed.

Lemma idb_saveOverlays_userId b entries c :
  userId (after (saveOverlays b entries) c) = userId c.
Proof.
  revert c. induction entries as [|[k [m|]] entries IH]; intros c; [done| |].
  - unfold after in *. rewrite idb_saveOverlays_cons_present, IH.
    unfold after. by rewrite idb_saveOverlay_run.
  - done.
Qed.

Lemma indexedDbReachable_invariant uid c :
  indexedDbReachable uid c →
  userId c = uid ∧ storeWellFormed (documentOverlayStore c).
Proof.
  induction 1 as [|b entries c _ [Huid Hwf] Hpaths|b c _ [Huid Hwf]].
  - split; [done|apply storeWellFormed_empty].
  - split; [by rewrite idb_saveOverlays_userId|].
    by apply idb_saveOverlays_wellFormed.
  - split; [done|]. by apply storeWellFormed_filter.
Qed.


(** The overlay read back after [saveOverlays] is the last entry whose
    mutation has the key, under the batch id of the call; the key an entry is
    listed under plays no part, and keys of no mutation keep their overlay. *)
Theorem idb_saveOverlays_last_wins b (ms : list (DocumentKey * Mutation)) c k :
  getOverlay (after (saveOverlays b (prod_map id Some <$> ms)) c) k
  = match last (filter (λ e, key e.2 = k) ms) with
    | Some e => Some (Overlay.mk b e.2)
    | None => getOverlay c k
    end.
Proof.
  revert c. induction ms as [|[k0 m0] ms IH]; intros c; [done|].
  rewrite fmap_cons. cbn [prod_map fst snd id].
  unfold after in *. rewrite idb_saveOverlays_cons_present, IH.
  rewrite (idb_getOverlay_saveOverlay b m0 c k).
  destruct (decide (key m0 = k)) as [Hk|Hk].
  - rewrite filter_cons_True by done. rewrite last_cons.
    rewrite decide_True by done.
    by destruct (last (filter (λ e, key e.2 = k) ms)).
  - rewrite filter_cons_False by done.
    by rewrite decide_False by done.
Qed.

(** On every state the IndexedDb cache of a user reaches,
    [removeOverlaysForBatchId(b)] returns, removes the overlays whose largest
    batch id is [b] and leaves every other overlay as it was; afterwards no
    overlay of batch [b] is read back. *)
Theorem idb_removeOverlaysForBatchId_exact uid b c :
  indexedDbReachable uid c →
  (removeOverlaysForBatchId b c).1 = Ok tt
  ∧ (∀ k, getOverlay (after (removeOverlaysForBatchId b) c) k
          = match getOverlay c k with
            | Some o =>
                if decide (Overlay.largestBatchId o = b) then None else Some o
            | None => None
            end)
  ∧ (∀ k o, getOverlay (after (removeOverlaysForBatchId b) c) k = Some o →
            Overlay.largestBatchId o ≠ b).
Proof.
  intros [_ Hwf]%indexedDbReachable_invariant. split; [done|].
  assert (∀ k, getOverlay (after (removeOverlaysForBatchId b) c) k
               = match getOverlay c k with
                 | Some o =>
                     if decide (Overlay.largestBatchId o = b) then None
                     else Some o
                 | None => None
                 end) as Hlook.
  { intros k. by apply idb_removeOverlaysForBatchId_lookup. }
  split; [done|]. intros k o. rewrite Hlook.
  destruct (getOverlay c k) as [o'|]; [|done].
  destruct (decide (Overlay.largestBatchId o' = b)); [done|].
  by intros [= <-].
Qed.

Lemma idb_removeOverlaysForBatchId_exact_witness :
  (removeOverlaysForBatchId 3 indexedDbMessages).1 = Ok tt
  ∧ (∀ k, getOverlay (after (removeOverlaysForBatchId 3) indexedDbMessages) k
          = match getOverlay indexedDbMessages k with
            | Some o =>
                if decide (Overlay.largestBatchId o = 3) then None else Some o
            | None => None
            end)
  ∧ (∀ k o, getOverlay (after (removeOverlaysForBatchId 3) indexedDbMessages) k
            = Some o → Overlay.largestBatchId o ≠ 3).
Proof.
  apply (idb_removeOverlaysForBatchId_exact "u").
  unfold indexedDbMessages, messageBatches. cbn [foldl fst snd].
  do 6 (apply indexedDbReachable_saveOverlays;
        [|intros k m [[= -> ->]|?%elem_of_nil]%elem_of_cons; done]).
  apply indexedDbReachable_forUser.
Defined.




(** The caches of two users over one store do not see each other: what a
    user saves or removes leaves every overlay of another user as it was. *)
Theorem idb_users_isolated uid b entries c k :
  storeWellFormed (documentOverlayStore c) →
  uid ≠ userId c →
  getOverlay (asUser uid (after (saveOverlays b entries) c)) k
  = getOverlay (asUser uid c) k
  ∧ getOverlay (asUser uid (after (removeOverlaysForBatchId b) c)) k
    = getOverlay (asUser uid c) k.
Proof.
  intros Hwf Huid. split.
  - clear Hwf. revert c Huid.
    induction entries as [|[k0 [m|]] entries IH]; intros c Huid; [done| |done].
    unfold after in *. rewrite idb_saveOverlays_cons_present.
    rewrite IH by (unfold after; by rewrite idb_saveOverlay_run).
    unfold after. rewrite idb_saveOverlay_run. unfold asUser, getOverlay, SimpleDbStore.get,
      toDbDocumentOverlayKey. simpl.
    rewrite lookup_insert_ne; [done|]. by intros [= ? _].
  - unfold asUser, after, removeOverlaysForBatchId, getOverlay,
      SimpleDbStore.get, SimpleDbStore.deleteAll. cmd_unfold. simpl.
    set (pk := toDbDocumentOverlayKey uid k).
    destruct (documentOverlayStore c !! pk) as [row|] eqn:Hrow.
    + rewrite (map_lookup_filter_Some_2 _ _ _ row); [done|done|]. simpl.
      apply not_true_is_false. rewrite inRange_batchId. intros [Hu _].
      destruct (Hwf pk row Hrow) as (Hpk & _).
      unfold pk, toDbDocumentOverlayKey, DbDocumentOverlay.keyOf in Hpk.
      injection Hpk as Hpk _. congruence.
    + rewrite map_lookup_filter_None_2; [done|]. by left.
Qed.

Lemma idb_users_isolated_witness :
  getOverlay
    (asUser "v" (after (saveOverlays 9 [(message "A", Some (setTo (message "A") 1))])
                   indexedDbMessages)) (message "A")
  = getOverlay (asUser "v" indexedDbMessages) (message "A")
  ∧ getOverlay
      (asUser "v" (after (removeOverlaysForBatchId 9) indexedDbMessages))
      (message "A")
    = getOverlay (asUser "v" indexedDbMessages) (message "A").
Proof.
  apply idb_users_isolated; [apply indexedDbMessages_wellFormed|done].
Defined.

(** A saved overlay is found by the read of its collection: after
    [saveOverlays(b, ...)] of a single mutation, [getOverlaysForCollection]
    on the parent path of the key of the mutation returns the new overlay for
    that key when [b] is past the batch id asked for, and no overlay for it
    otherwise. *)
Theorem idb_saveOverlays_then_collection uid b k0 m c s :
  indexedDbReachable uid c → path (key m) ≠ [] →
  getOverlaysForCollection (after (saveOverlays b [(k0, Some m)]) c)
    (popLast (path (key m))) s !! key m
  = if decide (s < b) then Some (Overlay.mk b m) else None.
Proof.
  intros Hreach Hpath.
  assert (storeWellFormed
            (documentOverlayStore (after (saveOverlays b [(k0, Some m)]) c)))
    as Hwf.
  { apply (indexedDbReachable_invariant uid).
    apply indexedDbReachable_saveOverlays; [done|].
    by intros k m' [[= _ ->]|?%elem_of_nil]%elem_of_cons. }
  assert (getOverlay (after (saveOverlays b [(k0, Some m)]) c) (key m)
          = Some (Overlay.mk b m)) as Hget.
  { unfold after. rewrite idb_saveOverlays_cons_present. simpl.
    rewrite (idb_getOverlay_saveOverlay b m c (key m)).
    by rewrite decide_True. }
  destruct (decide (s < b)) as [Hs|Hs].
  - apply idb_getOverlaysForCollection_lookup; [done|].
    split; [done|]. split; [|done]. by apply immediateChild_popLast.
  - apply eq_None_not_Some. intros [o Ho].
    apply idb_getOverlaysForCollection_lookup in Ho as (Ho & _ & Hlt);
      [|done].
    rewrite Hget in Ho. injection Ho as <-. simpl in Hlt. lia.
Qed.

Lemma idb_saveOverlays_then_collection_witness :
  getOverlaysForCollection
    (after (saveOverlays 4 [(room1, Some (setTo room1 7))]) (forUser "u"))
    (popLast (path (key (setTo room1 7)))) 3 !! key (setTo room1 7)
  = if decide (3 < 4) then Some (Overlay.mk 4 (setTo room1 7)) else None.
Proof.
  apply (idb_saveOverlays_then_collection "u");
    [apply indexedDbReachable_forUser|done].
Defined.

(** Removing a batch twice is removing it once, and batches may be removed
    in either order: the cache left is the same. *)
Theorem idb_removeOverlaysForBatchId_compose b b' c :
  after (removeOverlaysForBatchId b) (after (removeOverlaysForBatchId b) c)
  = after (removeOverlaysForBatchId b) c
  ∧ after (removeOverlaysForBatchId b) (after (removeOverlaysForBatchId b') c)
    = after (removeOverlaysForBatchId b') (after (removeOverlaysForBatchId b) c).
Proof.
  unfold after, removeOverlaysForBatchId, set_store, SimpleDbStore.deleteAll.
  cmd_unfold. simpl. split; f_equal.
  - rewrite map_filter_filter. apply map_filter_ext. naive_solver.
  - apply map_filter_comm.
Qed.

End IndexedDbCacheStates.

(** ** What recalculation saves, and what it leaves *)

Section RecalculationFrame.
Import LocalDocumentsView.
Context `{!MutationModel} (Hkeeps : keepsKeys).

(** On the IndexedDb cache, when [recalculateAndSaveOverlays] returns, a
    key that no batch among the batches of the mutation queue for the
    documents touches keeps the overlay it had, or stays without one; the
    mutation queue and the remote document cache are as before. *)
Theorem recalculateAndSaveOverlays_leaves_untouched
    (w w' : LocalDocumentsView.t (C := IndexedDbDocumentOverlayCache.t))
    (ds ds' : gmap DocumentKey MutableDocument) (k : DocumentKey) :
  keyedDocuments ds →
  recalculateAndSaveOverlays ds w = (Ok ds', w') →
  (∀ batch, batch ∈ mutationQueue w → affects (dom ds) batch →
            k ∉ MutationBatch.keys batch) →
  IndexedDbDocumentOverlayCache.getOverlay (documentOverlayCache w') k
  = IndexedDbDocumentOverlayCache.getOverlay (documentOverlayCache w) k
  ∧ mutationQueue w' = mutationQueue w.
Proof.
  intros Hkeyed Hrun Hk.
  unfold recalculateAndSaveOverlays, getAllMutationBatchesAffectingDocumentKeys
    in Hrun.
  cmd_unfold. simpl in Hrun.
  set (batches := filter (affects (dom ds)) (mutationQueue w)) in Hrun.
  destruct (applyBatches batches (mkRecalculation ds ∅ ∅ ∅))
    as [[[]|err] r] eqn:Hfirst; [|done].
  apply (applyBatches_Ok Hkeeps) in Hfirst
    as (Hkeyed' & Hproc & Hdom & Hin & Hrec); [|done].
  simpl in Hproc, Hdom, Hin, Hrec.
  match type of Hrun with
  | context [saveLoop r ?iter ?w0] =>
      destruct (saveLoop r iter w0) as [[[]|err] w1] eqn:Hloop; [|done]
  end.
  injection Hrun as _ <-.
  apply (saveLoop_Ok Hkeeps) in Hloop as (Hqueue & Hframe & _); [|done|].
  2:{ intros [b ks] k' Hb%elem_of_getReverseIterator Hk'. rewrite Hdom.
      assert (recordedFor r b k') as Hr by (by exists ks).
      apply Hrec in Hr as [(? & ? & _)|(batch & ? & _ & ?)]; [done|].
      by apply (Hin batch). }
  split; [|done]. rewrite Hframe; [done|]. right.
  intros [b ks] Hb%elem_of_getReverseIterator Hkin. simpl in *.
  assert (recordedFor r b k) as Hr by (by exists ks).
  apply Hrec in Hr as [(? & ? & _)|(batch & Hbatch & _ & Hkb)]; [done|].
  unfold batches in Hbatch. apply list_elem_of_filter in Hbatch as [? ?].
  by apply (Hk batch).
Qed.

End RecalculationFrame.

Lemma recalculateAndSaveOverlays_leaves_untouched_witness :
  IndexedDbDocumentOverlayCache.getOverlay
    (LocalDocumentsView.documentOverlayCache
       (after (LocalDocumentsView.recalculateAndSaveOverlays
                 (H := sampleMutationModel) {[alice := aliceDocument]})
          (sampleView sampleQueue))) bob
  = IndexedDbDocumentOverlayCache.getOverlay
      (LocalDocumentsView.documentOverlayCache (sampleView sampleQueue)) bob
  ∧ LocalDocumentsView.mutationQueue
      (after (LocalDocumentsView.recalculateAndSaveOverlays
                (H := sampleMutationModel) {[alice := aliceDocument]})
         (sampleView sampleQueue))
    = LocalDocumentsView.mutationQueue (sampleView sampleQueue).
Proof.
  eapply (recalculateAndSaveOverlays_leaves_untouched
            (H := sampleMutationModel)
            sampleMutationModel_keepsKeys (sampleView sampleQueue) _
            {[alice := aliceDocument]}
            (default ∅
               match (LocalDocumentsView.recalculateAndSaveOverlays
                        (H := sampleMutationModel) {[alice := aliceDocument]}
                        (sampleView sampleQueue)).1 with
               | Ok ds' => Some ds'
               | Throw _ => None
               end)
            bob).
  - intros k d [<- <-]%lookup_singleton_Some. reflexivity.
  - unfold after.
    destruct (LocalDocumentsView.recalculateAndSaveOverlays
                (H := sampleMutationModel) {[alice := aliceDocument]}
                (sampleView sampleQueue)) as [[ds'|err] w'] eqn:Hrun.
    + reflexivity.
    + exfalso. revert Hrun. vm_compute. discriminate.
  - intros batch Hin Haff. simpl in Hin. unfold sampleQueue in Hin.
    rewrite !elem_of_cons, elem_of_nil in Hin.
    destruct Hin as [->|[->|[->|[]]]];
      first [ compute_done | exfalso; apply Haff; compute_done ].
Defined.

Section RecalculationCalls.
Import LocalDocumentsView.
Context {C : Type} `{!DocumentOverlayCache C} `{!MutationModel}.
Context (Hkeeps : keepsKeys).






End RecalculationCalls.


(** ** The local view of documents *)

Section LocalViews.
Import LocalDocumentsView.
Context {C : Type} `{!DocumentOverlayCache C} `{!MutationModel}.

Lemma computeViewsLoop_views entries acc (w : LocalDocumentsView.t (C:=C)) :
  NoDup entries.*1 →
  ∃ views,
    computeViewsLoop ∅ ∅ entries acc w
    = (Ok (views, acc.2), recorded (overlayReads entries) w)
    ∧ ∀ k,
        (k ∉ entries.*1 → views !! k = acc.1 !! k)
        ∧ (∀ d, (k, d) ∈ entries →
             views !! k
             = match getOverlay (documentOverlayCache w)
                       (MutableDocument.key d) with
               | Some overlay =>
                   Some (mutationApplyToLocalView (Overlay.mutation overlay)
                           d (now w))
               | None => acc.1 !! k
               end).
Proof.
  revert acc w. induction entries as [|e entries IH]; intros acc w Hnd.
  - exists acc.1. simpl. cmd_unfold. rewrite recorded_nil.
    split; [by destruct acc|]. intros k. split; [done|].
    by intros d ?%elem_of_nil.
  - rewrite fmap_cons in Hnd. apply NoDup_cons in Hnd as [He Hnd].
    simpl. unfold computeViewsStep. cmd_unfold.
    assert (JsMap.has (∅ : gmap DocumentKey Overlay) (MutableDocument.key e.2)
            = false) as ->.
    { unfold JsMap.has. apply bool_decide_eq_false.
      rewrite lookup_empty. by intros [? ?]. }
    rewrite overlayGetOverlay_run.
    rewrite bool_decide_eq_false_2 by set_solver.
    simpl.
    destruct (getOverlay (documentOverlayCache w) (MutableDocument.key e.2))
      as [overlay|] eqn:Hov; simpl.
    + edestruct (IH (<[e.1 := mutationApplyToLocalView
                               (Overlay.mutation overlay) e.2 (now w)]> acc.1,
                     acc.2)
                    (recorded [OverlayGetOverlay (MutableDocument.key e.2)] w)
                    Hnd) as (views & -> & Hviews).
      exists views. split.
      { simpl. rewrite recorded_app. unfold overlayReads.
        by rewrite fmap_cons, reverse_cons. }
      intros k. destruct (Hviews k) as [Hout Hin]. simpl in *. split.
      * intros [Hne Hnin]%not_elem_of_cons.
        rewrite Hout by done. by rewrite lookup_insert_ne.
      * intros d [<-|Hd]%elem_of_cons.
        -- simpl in *. rewrite Hout by done. rewrite lookup_insert_eq.
           by rewrite Hov.
        -- rewrite (Hin d Hd).
           destruct (getOverlay (documentOverlayCache w)
                       (MutableDocument.key d)); [done|].
           rewrite lookup_insert_ne; [done|]. intros <-.
           apply He, list_elem_of_fmap. by exists (e.1, d).
    + edestruct (IH acc
                    (recorded [OverlayGetOverlay (MutableDocument.key e.2)] w)
                    Hnd) as (views & Hrun & Hviews).
      destruct acc as [acc1 acc2]. simpl in *. rewrite Hrun.
      exists views. split.
      { rewrite recorded_app. unfold overlayReads.
        by rewrite fmap_cons, reverse_cons. }
      intros k. destruct (Hviews k) as [Hout Hin]. split.
      * intros [Hne Hnin]%not_elem_of_cons. by apply Hout.
      * intros d [<-|Hd]%elem_of_cons.
        -- simpl in *. rewrite Hov. by apply Hout.
        -- by apply Hin.
Qed.

(** [getLocalViewOfDocuments] with no existence state change returns, for
    each key of the documents, its document with the overlay held for the key
    of the document applied at the current time, or the document itself when
    the cache holds no overlay for it; [getDocuments] does so for the entries
    of the remote document cache, invalid documents standing for the keys it
    does not hold. *)
Theorem getDocuments_views (w : LocalDocumentsView.t (C:=C))
    (ks : gset DocumentKey) (ds : gmap DocumentKey MutableDocument) :
  (∃ views w',
     getLocalViewOfDocuments ds ∅ w = (Ok views, w')
     ∧ ∀ k, views !! k
            = (λ d, match getOverlay (documentOverlayCache w)
                            (MutableDocument.key d) with
                    | Some overlay =>
                        mutationApplyToLocalView (Overlay.mutation overlay)
                          d (now w)
                    | None => d
                    end) <$> ds !! k)
  ∧ (∃ views w',
       getDocuments ks w = (Ok views, w')
       ∧ ∀ k, views !! k
              = if decide (k ∈ ks)
                then Some
                       match getOverlay (documentOverlayCache w)
                               (MutableDocument.key (remoteEntry w k)) with
                       | Some overlay =>
                           mutationApplyToLocalView (Overlay.mutation overlay)
                             (remoteEntry w k) (now w)
                       | None => remoteEntry w k
                       end
                else None).
Proof.
  assert (∀ ds (w : LocalDocumentsView.t (C:=C)),
            ∃ views w',
              getLocalViewOfDocuments ds ∅ w = (Ok views, w')
              ∧ ∀ k, views !! k
                     = (λ d, match getOverlay (documentOverlayCache w)
                                     (MutableDocument.key d) with
                             | Some overlay =>
                                 mutationApplyToLocalView
                                   (Overlay.mutation overlay) d (now w)
                             | None => d
                             end) <$> ds !! k) as Hlocal.
  { clear ds w. intros ds w.
    unfold getLocalViewOfDocuments, computeViews, markedForRecalculation.
    destruct (computeViewsLoop_views
                (SortedMap.getIterator keyComparator ds) (ds, ∅) w
                (NoDup_fst_getIterator keyComparator ds))
      as (views & Hloop & Hviews).
    exists (∅ ∪ views). eexists. cmd_unfold. rewrite Hloop. simpl.
    rewrite recalculateAndSaveOverlays_empty. simpl. split; [done|].
    intros k. rewrite (left_id_L ∅ (∪)).
    destruct (Hviews k) as [Hout Hin]. simpl in *.
    destruct (ds !! k) as [d|] eqn:Hd; simpl.
    - rewrite (Hin d) by (by apply (elem_of_getIterator keyComparator)).
      by destruct (getOverlay (documentOverlayCache w) (MutableDocument.key d)).
    - rewrite Hout; [done|].
      intros ([k' d] & -> & Hin')%list_elem_of_fmap.
      apply (elem_of_getIterator keyComparator) in Hin'. simpl in *.
      congruence. }
  split; [apply Hlocal|].
  unfold getDocuments, remoteGetEntries. cmd_unfold. simpl.
  match goal with
  | |- context [getLocalViewOfDocuments ?docs ∅ ?w0] =>
      destruct (Hlocal docs w0) as (views & w' & Hrun & Hviews)
  end.
  assert (∀ k,
            (set_to_map
               (λ k : DocumentKey,
                  (k, default (MutableDocument.newInvalidDocument k)
                        (remoteDocumentCache w !! k))) ks
               : gmap DocumentKey MutableDocument) !! k
            = if decide (k ∈ ks) then Some (remoteEntry w k) else None)
    as Hlook.
  { intros k. destruct (decide (k ∈ ks)) as [Hk|Hk].
    - apply lookup_set_to_map; [by intros y y' _ _ ?|]. by exists k.
    - apply eq_None_not_Some. intros [d Hd].
      apply lookup_set_to_map in Hd as (j & Hj & [= <- _]);
        [done|by intros y y' _ _ ?]. }
  exists views, w'. split; [done|]. intros k. rewrite Hviews, Hlook.
  by destruct (decide (k ∈ ks)).
Qed.

End LocalViews.

(** ** Queries *)

Section Queries.
Import LocalDocumentsView.
Context {C : Type} `{!DocumentOverlayCache C} `{!MutationModel}.
Context `{!QueryModel}.




(** A document query for a key that has no overlay returns the entry of the
    remote document cache alone when it is a found document, and the empty
    map otherwise -- so for a key the remote cache does not hold -- after one
    read of the overlay cache and one of the remote document cache. *)
Theorem getDocumentsMatchingDocumentQuery_no_overlay
    (w : LocalDocumentsView.t (C:=C)) (docPath : ResourcePath) :
  getOverlay (documentOverlayCache w) (mkDocumentKey docPath) = None →
  getDocumentsMatchingDocumentQuery docPath w
  = (Ok (if MutableDocument.isFoundDocument
              (remoteEntry w (mkDocumentKey docPath))
         then {[MutableDocument.key (remoteEntry w (mkDocumentKey docPath))
                := remoteEntry w (mkDocumentKey docPath)]}
         else ∅),
     recorded [RemoteGetEntry (mkDocumentKey docPath);
               OverlayGetOverlay (mkDocumentKey docPath)] w)
  ∧ (remoteDocumentCache w !! mkDocumentKey docPath = None →
     (getDocumentsMatchingDocumentQuery docPath w).1 = Ok ∅).
Proof.
  intros Hov.
  assert (getDocument (mkDocumentKey docPath) w
          = (Ok (remoteEntry w (mkDocumentKey docPath)),
             recorded [RemoteGetEntry (mkDocumentKey docPath);
                       OverlayGetOverlay (mkDocumentKey docPath)] w)) as Hdoc.
  { unfold getDocument, getBaseDocument. cmd_unfold.
    rewrite overlayGetOverlay_run, Hov. reflexivity. }
  unfold getDocumentsMatchingDocumentQuery. cmd_unfold. rewrite Hdoc. simpl.
  split.
  - by destruct (MutableDocument.isFoundDocument _).
  - intros Hremote. unfold remoteEntry. by rewrite Hremote.
Qed.

End Queries.



Lemma getDocumentsMatchingDocumentQuery_no_overlay_witness :
  (LocalDocumentsView.getDocumentsMatchingDocumentQuery
     (H := sampleMutationModel) ["users"; "alice"] (sampleView [])).1
  = Ok {[alice := aliceDocument]}.
Proof.
  assert (getOverlay
            (LocalDocumentsView.documentOverlayCache (sampleView []))
            (mkDocumentKey ["users"; "alice"]) = None) as Hov
    by (vm_compute; reflexivity).
  rewrite (proj1 (getDocumentsMatchingDocumentQuery_no_overlay
                    (H := sampleMutationModel) (sampleView [])
                    ["users"; "alice"] Hov)).
  vm_compute. reflexivity.
Defined.

(** ** Nothing pending, and what is marked for recalculation *)

Section NothingPending.
Import LocalDocumentsView.
Context {C : Type} `{!DocumentOverlayCache C} `{!MutationModel}.

Lemma dom_remote_entries (w : LocalDocumentsView.t (C:=C)) (ks : gset DocumentKey) :
  dom (set_to_map
         (λ k : DocumentKey,
            (k, default (MutableDocument.newInvalidDocument k)
                  (remoteDocumentCache w !! k))) ks
         : gmap DocumentKey MutableDocument) = ks.
Proof.
  apply set_eq. intros k. rewrite elem_of_dom. split.
  - intros [d Hd].
    apply lookup_set_to_map in Hd as (j & Hj & [= <- _]);
      [done|by intros y y' _ _ ?].
  - intros Hk. eexists. apply lookup_set_to_map; [by intros y y' _ _ ?|].
    by exists k.
Qed.

Lemma recalculateAndSaveOverlays_nothing_pending
    (w : LocalDocumentsView.t (C:=C)) ds :
  (∀ batch, batch ∈ mutationQueue w → MutationBatch.keys batch ∩ dom ds = ∅) →
  recalculateAndSaveOverlays ds w
  = (Ok ds, recorded [QueueGetAllMutationBatchesAffectingDocumentKeys (dom ds)] w).
Proof.
  intros Hnone.
  unfold recalculateAndSaveOverlays, getAllMutationBatchesAffectingDocumentKeys.
  cmd_unfold. simpl.
  assert (filter (affects (dom ds)) (mutationQueue w) = []) as ->.
  { revert Hnone. induction (mutationQueue w) as [|b q IH]; intros Hnone;
      [done|].
    rewrite filter_cons_False.
    - apply IH. intros batch ?. apply Hnone. by right.
    - intros Haff. apply Haff, Hnone. by left. }
  simpl. unfold SortedMap.getReverseIterator, SortedMap.getIterator.
  by rewrite map_to_list_empty.
Qed.

(** When no batch of the mutation queue touches the keys,
    [recalculateAndSaveOverlaysForDocumentKeys] reads the remote documents,
    asks the mutation queue, and returns: [saveOverlays] is not called and
    the overlay cache is as it was. *)
Theorem recalculateAndSaveOverlaysForDocumentKeys_nothing_pending
    (w : LocalDocumentsView.t (C:=C)) (ks : gset DocumentKey) :
  (∀ batch, batch ∈ mutationQueue w → MutationBatch.keys batch ∩ ks = ∅) →
  recalculateAndSaveOverlaysForDocumentKeys ks w
  = (Ok tt,
     recorded [QueueGetAllMutationBatchesAffectingDocumentKeys ks;
               RemoteGetEntries ks] w)
  ∧ documentOverlayCache (after (recalculateAndSaveOverlaysForDocumentKeys ks) w)
    = documentOverlayCache w.
Proof.
  intros Hnone.
  assert (recalculateAndSaveOverlaysForDocumentKeys ks w
          = (Ok tt,
             recorded [QueueGetAllMutationBatchesAffectingDocumentKeys ks;
                       RemoteGetEntries ks] w)) as Hrun.
  { unfold recalculateAndSaveOverlaysForDocumentKeys, remoteGetEntries.
    cmd_unfold. simpl.
    rewrite recalculateAndSaveOverlays_nothing_pending.
    - simpl. by rewrite dom_remote_entries.
    - simpl. intros batch Hin. rewrite dom_remote_entries. by apply Hnone. }
  split; [done|]. unfold after. by rewrite Hrun.
Qed.




End NothingPending.

Lemma recalculateAndSaveOverlaysForDocumentKeys_nothing_pending_witness :
  LocalDocumentsView.recalculateAndSaveOverlaysForDocumentKeys
    (H := sampleMutationModel) {[alice]} (sampleView [])
  = (Ok tt,
     recorded [QueueGetAllMutationBatchesAffectingDocumentKeys {[alice]};
               RemoteGetEntries {[alice]}] (sampleView []))
  ∧ LocalDocumentsView.documentOverlayCache
      (after (LocalDocumentsView.recalculateAndSaveOverlaysForDocumentKeys
                (H := sampleMutationModel) {[alice]}) (sampleView []))
    = LocalDocumentsView.documentOverlayCache (sampleView []).
Proof.
  apply (recalculateAndSaveOverlaysForDocumentKeys_nothing_pending
           (H := sampleMutationModel) (sampleView []) {[alice]}).
  intros batch Hin. simpl in Hin. by apply elem_of_nil in Hin.
Defined.

